(** * Geolocation aggregation of the surveillance map and the region filter

    A shallow embedding of

    - [src/components/SurveillanceMap.tsx]: the three lookup tables and the
      [useMemo] aggregation that turns the news rows into map buckets and
      a count of rows that could not be placed;
    - the [Home] page: the [where] clause it builds for the [region]
      search parameter.

    JavaScript strings are sequences of UTF-16 code units, modelled as
    [list N].  [JSON.parse], [String.prototype.trim], [includes] and the
    reads on plain objects (own properties first, then [Object.prototype])
    are written out.  [String.prototype.toLowerCase] is the one built-in
    taken as an interface ([StringPrototype]): its Unicode case table is
    only fixed on the code units below 256, which cover every table key.

    Coordinates are the decimals of the source, as rationals: they are
    stored and copied, never computed with.  [threatLevel] and the
    counters are integers.  A callback that throws ends the pass; the
    writes that a callback can make outside [stats], on built-ins reached
    through [Object.prototype], are kept in a [realm]. *)

From Stdlib Require Import ZArith NArith QArith String Ascii List Bool Lia.
From Stdlib Require Import Permutation Sorted.
Import ListNotations.

Open Scope Z_scope.

Set Warnings "-register-all".

(** ** Strings *)

Definition jsstring := list N.

(** A string literal of the source, one code unit per character. *)
Definition js (s : string) : jsstring :=
  map N_of_ascii (list_ascii_of_string s).

Definition jsstring_eqb (a b : jsstring) : bool :=
  if list_eq_dec N.eq_dec a b then true else false.

Infix "=?s" := jsstring_eqb (at level 70).

(** [s.length] is truthy, that is [s] is not the empty string. *)
Definition nonEmpty (s : jsstring) : bool :=
  match s with [] => false | _ :: _ => true end.

Fixpoint startsWith (s p : jsstring) : bool :=
  match p, s with
  | [], _ => true
  | _ :: _, [] => false
  | c :: p', d :: s' => (c =? d)%N && startsWith s' p'
  end.

(** [s.includes(p)]: [p] occurs in [s] as a run of consecutive code units. *)
Fixpoint includes (s p : jsstring) : bool :=
  startsWith s p ||
  match s with
  | [] => false
  | _ :: s' => includes s' p
  end.

(** White space and line terminators of ECMAScript, the code units that
    [trim] removes at both ends. *)
Definition isWhiteSpace (c : N) : bool :=
  ((9 <=? c) && (c <=? 13) || (c =? 32) || (c =? 160) || (c =? 5760)
   || (8192 <=? c) && (c <=? 8202) || (c =? 8232) || (c =? 8233)
   || (c =? 8239) || (c =? 8287) || (c =? 12288) || (c =? 65279))%N.

Fixpoint trimStart (s : jsstring) : jsstring :=
  match s with
  | c :: s' => if isWhiteSpace c then trimStart s' else s
  | [] => []
  end.

Definition trim (s : jsstring) : jsstring :=
  rev (trimStart (rev (trimStart s))).

(** The lower-case mapping of Unicode on the code units below 256: the
    letters A-Z, and the capital letters of Latin-1 (U+00C0 to U+00DE,
    the multiplication sign U+00D7 apart). *)
Definition lower_latin1 (c : N) : N :=
  (if (65 <=? c) && (c <=? 90) then c + 32
   else if (192 <=? c) && (c <=? 222) && negb (c =? 215) then c + 32
   else c)%N.

Definition isLatin1 (s : jsstring) : bool :=
  forallb (fun c => (c <? 256)%N) s.

(** [String.prototype.toLowerCase].  Below 256 it is [lower_latin1] unit
    by unit; beyond, it follows the Unicode tables, left open here. *)
Class StringPrototype := {
  toLowerCase : jsstring -> jsstring;
  toLowerCase_latin1 :
    forall s, isLatin1 s = true -> toLowerCase s = map lower_latin1 s
}.

(** The instance that lower-cases the code units below 256 and keeps the
    others: the built-in on Latin-1 text. *)
#[export] Instance latin1 : StringPrototype := {|
  toLowerCase := map lower_latin1;
  toLowerCase_latin1 := fun s _ => eq_refl
|}.

(** [c.charAt(0).toUpperCase() + c.slice(1)], as the source applies it to
    a key of [countryCoordinates]: those keys are ASCII, where
    [toUpperCase] maps a-z to A-Z. *)
Definition upper_ascii (c : N) : N :=
  (if (97 <=? c) && (c <=? 122) then c - 32 else c)%N.

Definition capitalize (c : jsstring) : jsstring :=
  match c with
  | [] => []
  | h :: t => upper_ascii h :: t
  end.

(** ** JSON values and [JSON.parse] *)

(** A number keeps its exact decimal value [mant * 10 ^ exp10]. *)
Inductive json :=
| JNull
| JBool (b : bool)
| JNumber (mant exp10 : Z)
| JString (s : jsstring)
| JArray (elems : list json)
| JObject (props : list (jsstring * json)).

Inductive token :=
| TLBrace | TRBrace | TLBracket | TRBracket | TColon | TComma
| TScalar (v : json).

(** *** The structure automaton: what may follow what *)

Inductive frame :=
| InArray (done : list json)
| InObject (done : list (jsstring * json))
| InMember (done : list (jsstring * json)) (key : jsstring).

Inductive mode :=
| WantValue            (* at the start, after ':' and after ',' in an array *)
| WantValueOrClose     (* after '[' *)
| WantKeyOrClose       (* after '{' *)
| WantKey              (* after ',' in an object *)
| WantColon (key : jsstring)
| WantCommaOrClose     (* after an element or a member *)
| Finished (v : json). (* the whole text was one value *)

Definition pda := (list frame * mode)%type.

(** A value is complete: it is the result, an element, or a member. *)
Definition complete (v : json) (stack : list frame) : option pda :=
  match stack with
  | [] => Some ([], Finished v)
  | InArray done :: up => Some (InArray (v :: done) :: up, WantCommaOrClose)
  | InMember done key :: up =>
      Some (InObject ((key, v) :: done) :: up, WantCommaOrClose)
  | InObject _ :: _ => None
  end.

Definition startValue (t : token) (stack : list frame) : option pda :=
  match t with
  | TScalar v => complete v stack
  | TLBracket => Some (InArray [] :: stack, WantValueOrClose)
  | TLBrace => Some (InObject [] :: stack, WantKeyOrClose)
  | _ => None
  end.

Definition startKey (t : token) (stack : list frame) : option pda :=
  match t with
  | TScalar (JString k) => Some (stack, WantColon k)
  | _ => None
  end.

Definition feed (p : pda) (t : token) : option pda :=
  let (stack, m) := p in
  match m, t, stack with
  | WantValue, _, _ => startValue t stack
  | WantValueOrClose, TRBracket, InArray [] :: up => complete (JArray []) up
  | WantValueOrClose, _, _ => startValue t stack
  | WantKeyOrClose, TRBrace, InObject [] :: up => complete (JObject []) up
  | WantKeyOrClose, _, _ => startKey t stack
  | WantKey, _, _ => startKey t stack
  | WantColon k, TColon, InObject done :: up =>
      Some (InMember done k :: up, WantValue)
  | WantCommaOrClose, TComma, InArray _ :: _ => Some (stack, WantValue)
  | WantCommaOrClose, TComma, InObject _ :: _ => Some (stack, WantKey)
  | WantCommaOrClose, TRBracket, InArray done :: up =>
      complete (JArray (rev done)) up
  | WantCommaOrClose, TRBrace, InObject done :: up =>
      complete (JObject (rev done)) up
  | _, _, _ => None
  end.

(** *** The lexical automaton *)

(** Where we are inside a number: an optional minus sign; then a single
    0, or a digit from 1 to 9 followed by any digits; then optionally a dot
    and one digit or more; then optionally e or E, an optional sign and one
    digit or more. *)
Inductive phase :=
| AfterMinus | LeadingZero | IntDigits | AfterDot | FracDigits
| AfterE | AfterESign | ExpDigits.

Record number := {
  negative : bool;
  digits : Z;        (* integer and fraction digits read so far *)
  fraction : Z;      (* how many of them are fraction digits *)
  expNegative : bool;
  exponent : Z;
  at_ : phase
}.

Inductive lexer :=
| Idle
| InString (acc : jsstring)              (* reversed *)
| InEscape (acc : jsstring)
| InHex (acc : jsstring) (hex : list N)  (* after \u, digits reversed *)
| InNumber (n : number)
| InLiteral (rest : jsstring) (t : token).

Definition isDigit (c : N) : bool := ((48 <=? c) && (c <=? 57))%N.

Definition digitValue (c : N) : Z := Z.of_N c - 48.

Definition hexValue (c : N) : option N :=
  (if (48 <=? c) && (c <=? 57) then Some (c - 48)
   else if (97 <=? c) && (c <=? 102) then Some (c - 87)
   else if (65 <=? c) && (c <=? 70) then Some (c - 55)
   else None)%N.

Definition isJsonSpace (c : N) : bool :=
  ((c =? 32) || (c =? 9) || (c =? 10) || (c =? 13))%N.

Definition numberValue (n : number) : json :=
  JNumber ((if negative n then -1 else 1) * digits n)
          ((if expNegative n then -1 else 1) * exponent n - fraction n).

Definition numberEnds (n : number) : bool :=
  match at_ n with
  | LeadingZero | IntDigits | FracDigits | ExpDigits => true
  | _ => false
  end.

Definition withPhase (n : number) (p : phase) : number :=
  {| negative := negative n; digits := digits n; fraction := fraction n;
     expNegative := expNegative n; exponent := exponent n; at_ := p |}.

Definition mantissaDigit (n : number) (c : N) (frac : bool) (p : phase)
  : number :=
  {| negative := negative n; digits := 10 * digits n + digitValue c;
     fraction := if frac then fraction n + 1 else fraction n;
     expNegative := expNegative n; exponent := exponent n; at_ := p |}.

Definition exponentDigit (n : number) (c : N) : number :=
  {| negative := negative n; digits := digits n; fraction := fraction n;
     expNegative := expNegative n;
     exponent := 10 * exponent n + digitValue c; at_ := ExpDigits |}.

Definition exponentSign (n : number) (neg : bool) : number :=
  {| negative := negative n; digits := digits n; fraction := fraction n;
     expNegative := neg; exponent := exponent n; at_ := AfterESign |}.

Definition isE (c : N) : bool := ((c =? 101) || (c =? 69))%N.

(** The number goes on with [c], or [c] is not part of it. *)
Definition numberStep (n : number) (c : N) : option number :=
  match at_ n with
  | AfterMinus =>
      if (c =? 48)%N then Some (withPhase n LeadingZero)
      else if isDigit c then Some (mantissaDigit n c false IntDigits)
      else None
  | LeadingZero =>
      if (c =? 46)%N then Some (withPhase n AfterDot)
      else if isE c then Some (withPhase n AfterE)
      else None
  | IntDigits =>
      if isDigit c then Some (mantissaDigit n c false IntDigits)
      else if (c =? 46)%N then Some (withPhase n AfterDot)
      else if isE c then Some (withPhase n AfterE)
      else None
  | AfterDot =>
      if isDigit c then Some (mantissaDigit n c true FracDigits) else None
  | FracDigits =>
      if isDigit c then Some (mantissaDigit n c true FracDigits)
      else if isE c then Some (withPhase n AfterE)
      else None
  | AfterE =>
      if (c =? 43)%N then Some (exponentSign n false)
      else if (c =? 45)%N then Some (exponentSign n true)
      else if isDigit c then Some (exponentDigit n c)
      else None
  | AfterESign | ExpDigits =>
      if isDigit c then Some (exponentDigit n c) else None
  end.

Definition newNumber (neg : bool) (d : Z) (p : phase) : number :=
  {| negative := neg; digits := d; fraction := 0;
     expNegative := false; exponent := 0; at_ := p |}.

Definition parser := (lexer * pda)%type.

Definition emit (p : pda) (t : token) : option parser :=
  option_map (fun p' => (Idle, p')) (feed p t).

(** A code unit met between two tokens. *)
Definition idleStep (p : pda) (c : N) : option parser :=
  if isJsonSpace c then Some (Idle, p)
  else if (c =? 123)%N then emit p TLBrace
  else if (c =? 125)%N then emit p TRBrace
  else if (c =? 91)%N then emit p TLBracket
  else if (c =? 93)%N then emit p TRBracket
  else if (c =? 58)%N then emit p TColon
  else if (c =? 44)%N then emit p TComma
  else if (c =? 34)%N then Some (InString [], p)
  else if (c =? 45)%N then Some (InNumber (newNumber true 0 AfterMinus), p)
  else if (c =? 48)%N then Some (InNumber (newNumber false 0 LeadingZero), p)
  else if isDigit c then
    Some (InNumber (newNumber false (digitValue c) IntDigits), p)
  else if (c =? 116)%N then Some (InLiteral (js "rue") (TScalar (JBool true)), p)
  else if (c =? 102)%N then
    Some (InLiteral (js "alse") (TScalar (JBool false)), p)
  else if (c =? 110)%N then Some (InLiteral (js "ull") (TScalar JNull), p)
  else None.

Definition escapeStep (acc : jsstring) (c : N) : option lexer :=
  (if (c =? 34) || (c =? 92) || (c =? 47) then Some (InString (c :: acc))
   else if c =? 98 then Some (InString (8 :: acc))
   else if c =? 102 then Some (InString (12 :: acc))
   else if c =? 110 then Some (InString (10 :: acc))
   else if c =? 114 then Some (InString (13 :: acc))
   else if c =? 116 then Some (InString (9 :: acc))
   else if c =? 117 then Some (InHex acc [])
   else None)%N.

Definition hexStep (acc : jsstring) (hex : list N) (c : N) : option lexer :=
  match hexValue c with
  | None => None
  | Some d =>
      match hex with
      | [d2; d1; d0] =>
          Some (InString ((((d0 * 16 + d1) * 16 + d2) * 16 + d)%N :: acc))
      | _ => Some (InHex acc (d :: hex))
      end
  end.

Definition parserStep (st : parser) (c : N) : option parser :=
  let (lx, p) := st in
  match lx with
  | Idle => idleStep p c
  | InString acc =>
      if (c =? 34)%N then emit p (TScalar (JString (rev acc)))
      else if (c =? 92)%N then Some (InEscape acc, p)
      else if (c <? 32)%N then None
      else Some (InString (c :: acc), p)
  | InEscape acc => option_map (fun l => (l, p)) (escapeStep acc c)
  | InHex acc hex => option_map (fun l => (l, p)) (hexStep acc hex c)
  | InNumber n =>
      match numberStep n c with
      | Some n' => Some (InNumber n', p)
      | None =>
          if numberEnds n then
            match feed p (TScalar (numberValue n)) with
            | Some p' => idleStep p' c
            | None => None
            end
          else None
      end
  | InLiteral rest t =>
      match rest with
      | [] => None
      | x :: rest' =>
          if (c =? x)%N then
            match rest' with
            | [] => emit p t
            | _ :: _ => Some (InLiteral rest' t, p)
            end
          else None
      end
  end.

Fixpoint parserRun (st : parser) (text : jsstring) : option parser :=
  match text with
  | [] => Some st
  | c :: text' =>
      match parserStep st c with
      | Some st' => parserRun st' text'
      | None => None
      end
  end.

Definition parserEnd (st : parser) : option json :=
  let (lx, p) := st in
  let closed :=
    match lx with
    | Idle => Some p
    | InNumber n =>
        if numberEnds n then feed p (TScalar (numberValue n)) else None
    | _ => None
    end in
  match closed with
  | Some ([], Finished v) => Some v
  | _ => None
  end.

(** [JSON.parse(text)]: the value, or [None] where it throws a
    [SyntaxError]. *)
Definition JSON_parse (text : jsstring) : option json :=
  match parserRun (Idle, ([], WantValue)) text with
  | Some st => parserEnd st
  | None => None
  end.

(** The JSON texts of the examples are written with an apostrophe where
    the text has a double quote. *)
Definition quoted (s : string) : jsstring :=
  map (fun c => if (c =? 39)%N then 34%N else c) (js s).

(** ** Values and property reads *)

(** A number is falsy when it is 0.  [JSON.parse] yields the double
    nearest to the decimal, which is 0 for a zero mantissa and for a
    magnitude of at most [2 ^ -1075], half the smallest double. *)
Definition roundsToZero (mant exp10 : Z) : bool :=
  (mant =? 0) ||
  ((exp10 <? 0) && (Z.abs mant * 2 ^ 1075 <=? 10 ^ (- exp10))).

Definition truthy (v : json) : bool :=
  match v with
  | JNull => false
  | JBool b => b
  | JNumber m e => negb (roundsToZero m e)
  | JString s => nonEmpty s
  | JArray _ | JObject _ => true
  end.

(** The own property [k] of an object built by [JSON.parse]: of two
    members with one key the later one stays. *)
Fixpoint ownProperty (props : list (jsstring * json)) (k : jsstring)
  : option json :=
  match props with
  | [] => None
  | (k', v) :: rest =>
      match ownProperty rest k with
      | Some w => Some w
      | None => if k' =?s k then Some v else None
      end
  end.

(** [v.details] and [v.location] for a parsed value [v] other than
    [null]: the own property of an object, and [undefined] ([None])
    otherwise, since no prototype of an object, an array, a string, a
    number or a boolean has a property of either name. *)
Definition getProperty (v : json) (k : jsstring) : option json :=
  match v with
  | JObject props => ownProperty props k
  | _ => None
  end.

Definition truthyProperty (p : option json) : bool :=
  match p with
  | Some v => truthy v
  | None => false
  end.

(** The property names that every plain object inherits from
    [Object.prototype]. *)
Definition objectPrototypeKeys : list jsstring :=
  map js
    [ "constructor"; "__defineGetter__"; "__defineSetter__";
      "hasOwnProperty"; "__lookupGetter__"; "__lookupSetter__";
      "isPrototypeOf"; "propertyIsEnumerable"; "toString"; "valueOf";
      "__proto__"; "toLocaleString" ]%string.

Definition isIn (k : jsstring) (ks : list jsstring) : bool :=
  existsb (jsstring_eqb k) ks.

Arguments isIn : simpl never.

(** The part of the JavaScript realm that the aggregation can change: the
    built-in objects, named by the key of [Object.prototype] that leads
    to them, on which a callback has stored [count] and [maxThreat] (see
    [callback]).  ["__proto__"] names [Object.prototype] itself. *)
Definition realm := list jsstring.

(** What [o[k]] yields on a plain object [o]. *)
Inductive value (A : Type) :=
| Own (a : A)                (* an own property *)
| Builtin (key : jsstring)   (* the function or object [Object.prototype[k]] *)
| NotANumber                 (* an inherited [count] or [maxThreat] *)
| Undefined.

Arguments Own {A} a.
Arguments Builtin {A} key.
Arguments NotANumber {A}.
Arguments Undefined {A}.

Fixpoint own {A : Type} (o : list (jsstring * A)) (k : jsstring) : option A :=
  match o with
  | [] => None
  | (k', a) :: rest => if k' =?s k then Some a else own rest k
  end.

Definition read {A : Type} (heap : realm) (o : list (jsstring * A))
  (k : jsstring) : value A :=
  match own o k with
  | Some a => Own a
  | None =>
      if isIn k objectPrototypeKeys then Builtin k
      else if isIn k [js "count"; js "maxThreat"]
              && isIn (js "__proto__") heap then NotANumber
      else Undefined
  end.

(** ** The tables of [SurveillanceMap.tsx] *)

Definition lonlat := (Q * Q)%type.

Open Scope Q_scope.

Definition cityCoordinates : list (jsstring * lonlat) :=
  [ (* North America *)
    (js "new york, usa", (-74.006, 40.7128));
    (js "san francisco, usa", (-122.4194, 37.7749));
    (js "los angeles, usa", (-118.2437, 34.0522));
    (js "toronto, canada", (-79.3832, 43.6532));
    (js "vancouver, canada", (-123.1207, 49.2827));
    (js "austin, usa", (-97.7431, 30.2672));
    (js "chicago, usa", (-87.6298, 41.8781));
    (* Europe *)
    (js "london, uk", (-0.1276, 51.5074));
    (js "paris, france", (2.3522, 48.8566));
    (js "berlin, germany", (13.4050, 52.5200));
    (js "munich, germany", (11.5820, 48.1351));
    (js "amsterdam, netherlands", (4.9041, 52.3676));
    (js "copenhagen, denmark", (12.5683, 55.6761));
    (js "stockholm, sweden", (18.0686, 59.3293));
    (js "zurich, switzerland", (8.5417, 47.3769));
    (js "dublin, ireland", (-6.2603, 53.3498));
    (* APAC *)
    (js "singapore", (103.8198, 1.3521));
    (js "sydney, australia", (151.2093, -33.8688));
    (js "melbourne, australia", (144.9631, -37.8136));
    (js "tokyo, japan", (139.6917, 35.6895));
    (js "seoul, south korea", (126.9780, 37.5665));
    (js "beijing, china", (116.4074, 39.9042));
    (js "shanghai, china", (121.4737, 31.2304));
    (js "mumbai, india", (72.8777, 19.0760));
    (js "bengaluru, india", (77.5946, 12.9716));
    (* Middle East *)
    (js "dubai, uae", (55.2708, 25.2048));
    (js "abu dhabi, uae", (54.3773, 24.4539));
    (js "riyadh, saudi arabia", (46.6753, 24.7136));
    (js "doha, qatar", (51.5310, 25.2854));
    (js "tel aviv, israel", (34.7818, 32.0853));
    (js "istanbul, turkey", (28.9784, 41.0082));
    (* Europe (Expanded) *)
    (js "madrid, spain", (-3.7038, 40.4168));
    (js "barcelona, spain", (2.1734, 41.3851));
    (js "rome, italy", (12.4964, 41.9028));
    (js "milan, italy", (9.1900, 45.4642));
    (js "brussels, belgium", (4.3517, 50.8503));
    (js "vienna, austria", (16.3738, 48.2082));
    (js "warsaw, poland", (21.0122, 52.2297));
    (js "oslo, norway", (10.7522, 59.9139));
    (js "helsinki, finland", (24.9384, 60.1699));
    (* South America *)
    (js "sao paulo, brazil", (-46.6333, -23.5505));
    (js "buenos aires, argentina", (-58.3816, -34.6037));
    (* Africa *)
    (js "cape town, south africa", (18.4241, -33.9249));
    (js "johannesburg, south africa", (28.0473, -26.2041));
    (js "cairo, egypt", (31.2357, 30.0444)) ].

(** Fallback country centers. *)
Definition countryCoordinates : list (jsstring * lonlat) :=
  [ (js "usa", (-95.7129, 37.0902));
    (js "canada", (-106.3468, 56.1304));
    (js "uk", (-3.435, 55.378));
    (js "france", (2.2137, 46.2276));
    (js "germany", (10.4515, 51.1657));
    (js "australia", (133.7751, -25.2744));
    (js "japan", (138.2529, 36.2048));
    (js "china", (104.1954, 35.8617));
    (js "india", (78.9629, 20.5937));
    (js "brazil", (-51.9253, -14.2350));
    (js "south africa", (22.9375, -30.5595)) ].

(** The region centers of the [if] chain on [locationName]. *)
Definition regionCenters : list (jsstring * lonlat) :=
  [ (js "MENA", (45, 25));
    (js "Europe", (15, 50));
    (js "North America", (-100, 40));
    (js "APAC", (100, 20));
    (js "South America", (-60, -15)) ].

Close Scope Q_scope.

(** A string of digits only, as every array index is. *)
Definition allDigits (s : jsstring) : bool :=
  nonEmpty s && forallb isDigit s.

(** [Object.keys(o)]: the own keys in the order they were written (no key
    of the tables is an array index, which would come first). *)
Definition Object_keys {A : Type} (o : list (jsstring * A)) : list jsstring :=
  map fst o.

(** ** The aggregation of [SurveillanceMap] *)

(** A row of [CompetitorNews] as the component reads it: [region] is a
    nullable text column, [details] a text column that is never null,
    [threatLevel] an integer column. *)
Record NewsItem := {
  region : option jsstring;
  details : jsstring;
  threatLevel : Z
}.

(** What [finalCoords] holds when it is truthy: a pair of a table, or the
    built-in that a key of [Object.prototype] leads to. *)
Inductive coords :=
| Point (lon lat : Q)
| BuiltinObject (key : jsstring).

Record bucket := {
  count : Z;
  maxThreat : Z;
  name : jsstring;
  coordinates : coords
}.

(** [item.region || "Global"]. *)
Definition regionOrGlobal (item : NewsItem) : jsstring :=
  match region item with
  | Some r => if nonEmpty r then r else js "Global"
  | None => js "Global"
  end.

(** The [try] block.  [parsed] starts as the empty object and is assigned
    before [parsed.details] is read: a [SyntaxError] of [JSON.parse]
    leaves the empty object, the [TypeError] of [null.details] leaves
    [null]. *)
Definition tryParse (item : NewsItem) : json :=
  match JSON_parse (details item) with
  | None => JObject []
  | Some JNull => JNull
  | Some v =>
      match getProperty v (js "details") with
      | Some d =>
          if truthy d && truthyProperty (getProperty d (js "location"))
          then d else v
      | None => v
      end
  end.

Inductive completion (A : Type) :=
| Normal (a : A)
| TypeError.

Arguments Normal {A} a.
Arguments TypeError {A}.

(** [if (parsed.location)] and the receiver of [.toLowerCase()]: the
    string, or [None] when the property is falsy.  Reading a property of
    [null] throws, and a truthy value that is not a string has no
    [toLowerCase] to call. *)
Definition readLocation (parsed : json) : completion (option jsstring) :=
  match parsed with
  | JNull => TypeError
  | _ =>
      match getProperty parsed (js "location") with
      | Some (JString s) => Normal (if nonEmpty s then Some s else None)
      | Some v => if truthy v then TypeError else Normal None
      | None => Normal None
      end
  end.

Definition truthyCoords (v : value lonlat) : option coords :=
  match v with
  | Own (lon, lat) => Some (Point lon lat)
  | Builtin k => Some (BuiltinObject k)
  | NotANumber | Undefined => None
  end.

(** [Object.keys(countryCoordinates).find(c => loc.includes(c))]. *)
Definition countryMatch (loc : jsstring) : option jsstring :=
  find (fun c => includes loc c) (Object_keys countryCoordinates).

(** The chain of [locationName === ...] tests. *)
Definition regionCenter (locationName : jsstring) : option coords :=
  option_map (fun p => Point (fst p) (snd p)) (own regionCenters locationName).

(** Where the callback goes after line 155. *)
Inductive resolution :=
| Placed (locationName : jsstring) (finalCoords : coords)
| Unplaced.   (* [global++; return] *)

Section Aggregation.

Context `{StringPrototype}.

(** [parsed.location.toLowerCase().trim()]. *)
Definition normalize (location : jsstring) : jsstring :=
  trim (toLowerCase location).

(** Lines 128 to 142: the name and the coordinates after the city and
    country lookups. *)
Definition lookupLocation (heap : realm) (locationName location : jsstring)
  : jsstring * option coords :=
  let loc := normalize location in
  match truthyCoords (read heap cityCoordinates loc) with
  | Some c => (location, Some c)
  | None =>
      match countryMatch loc with
      | Some c =>
          (capitalize c, truthyCoords (read heap countryCoordinates c))
      | None => (locationName, None)
      end
  end.

(** Lines 144 to 155. *)
Definition regionFallback (locationName : jsstring) (finalCoords : option coords)
  : resolution :=
  match finalCoords with
  | Some c => Placed locationName c
  | None =>
      match regionCenter locationName with
      | Some c => Placed locationName c
      | None => Unplaced
      end
  end.

(** Lines 105 to 142 of the callback: [locationName] and [finalCoords]
    when line 144 is reached. *)
Definition locate (heap : realm) (item : NewsItem)
  : completion (jsstring * option coords) :=
  match readLocation (tryParse item) with
  | TypeError => TypeError
  | Normal None => Normal (regionOrGlobal item, None)
  | Normal (Some location) =>
      Normal (lookupLocation heap (regionOrGlobal item) location)
  end.

(** Lines 105 to 155 of the callback. *)
Definition resolve (heap : realm) (item : NewsItem) : completion resolution :=
  match locate heap item with
  | TypeError => TypeError
  | Normal (locationName, finalCoords) =>
      Normal (regionFallback locationName finalCoords)
  end.

Record state := {
  heap : realm;
  stats : list (jsstring * bucket);
  global : Z
}.

(** [b.count += 1] and [b.maxThreat = Math.max(b.maxThreat, threat)]. *)
Definition increment (b : bucket) (threat : Z) : bucket :=
  {| count := count b + 1;
     maxThreat := Z.max (maxThreat b) threat;
     name := name b;
     coordinates := coordinates b |}.

(** The two assignments of lines 166 and 167 on the own bucket
    [stats[k]]. *)
Fixpoint bump (stats : list (jsstring * bucket)) (k : jsstring) (threat : Z)
  : list (jsstring * bucket) :=
  match stats with
  | [] => []
  | (k', b) :: rest =>
      if k' =?s k then (k', increment b threat) :: rest
      else (k', b) :: bump rest k threat
  end.

(** Lines 157 to 167.  [stats[locationName]] is an own bucket, or falsy
    so that a bucket is created at the end of [stats], or a built-in
    inherited from [Object.prototype]: then nothing is created and the
    two assignments store [count] and [maxThreat] (both [NaN]) on the
    built-in. *)
Definition place (st : state) (locationName : jsstring) (finalCoords : coords)
  (threat : Z) : state :=
  match read (heap st) (stats st) locationName with
  | Own _ =>
      {| heap := heap st;
         stats := bump (stats st) locationName threat;
         global := global st |}
  | Builtin k =>
      {| heap := k :: heap st; stats := stats st; global := global st |}
  | NotANumber | Undefined =>
      let fresh := {| count := 0; maxThreat := 0; name := locationName;
                      coordinates := finalCoords |} in
      {| heap := heap st;
         stats := bump (stats st ++ [(locationName, fresh)]) locationName threat;
         global := global st |}
  end.

(** The callback of [news.forEach]. *)
Definition callback (st : state) (item : NewsItem) : completion state :=
  match resolve (heap st) item with
  | TypeError => TypeError
  | Normal Unplaced =>
      Normal {| heap := heap st; stats := stats st; global := global st + 1 |}
  | Normal (Placed locationName finalCoords) =>
      Normal (place st locationName finalCoords (threatLevel item))
  end.

(** [news.forEach]: the state after the last callback, or the state in
    which a callback threw. *)
Inductive run :=
| Done (st : state)
| Thrown (st : state).

Fixpoint forEach (news : list NewsItem) (st : state) : run :=
  match news with
  | [] => Done st
  | item :: rest =>
      match callback st item with
      | Normal st' => forEach rest st'
      | TypeError => Thrown st
      end
  end.

(** What the function given to [useMemo] does. *)
Inductive outcome :=
| Returned (regionStats : list bucket) (globalCount : Z)
| Threw.

(** [Object.values(stats)]: the own values in the order the keys were
    created.  Keys that are array indices would come first, in numeric
    order; such a key is written with digits only, and no row is placed
    under such a name ([placed_name_is_no_index] below). *)
Definition Object_values {A : Type} (o : list (jsstring * A)) : list A :=
  map snd o.

Definition aggregate (heap0 : realm) (news : list NewsItem) : outcome * realm :=
  match forEach news {| heap := heap0; stats := []; global := 0 |} with
  | Done st => (Returned (Object_values (stats st)) (global st), heap st)
  | Thrown st => (Threw, heap st)
  end.

End Aggregation.

(** ** The region filter of the [Home] page *)

Definition regionMappings : list (jsstring * list jsstring) :=
  [ (js "North America",
     map js ["north america"; "us"; "usa"; "canada"; "america"]%string);
    (js "Europe",
     map js ["europe"; "uk"; "germany"; "france"; "spain"; "italy";
             "netherlands"; "sweden"; "denmark"; "ireland"; "switzerland";
             "belgium"; "austria"; "poland"; "norway"; "finland"]%string);
    (js "MENA",
     map js ["mena"; "middle east"; "uae"; "saudi"; "qatar"; "dubai";
             "abu dhabi"; "israel"; "turkey"; "egypt"]%string);
    (js "APAC",
     map js ["apac"; "asia"; "china"; "japan"; "korea"; "india";
             "singapore"; "australia"; "pacific"]%string);
    (js "Global", [js "global"]) ].

(** What the block of lines 30 to 51 adds to [where]. *)
Inductive regionWhere :=
| NoRegionFilter
| OrContains (keywords : list jsstring)
    (* [where.OR]: one [{ region: { contains: k, mode: 'insensitive' } }]
       for each keyword *)
| RegionEquals (regionVal : jsstring).
    (* [where.region = { equals: regionVal, mode: 'insensitive' }] *)

(** Lines 30 to 51, for [searchParams.region] absent ([None]) or a
    string.  A key inherited from [Object.prototype] makes [keywords] a
    built-in without a [map] method, and the call throws. *)
Definition regionFilter (heap : realm) (param : option jsstring)
  : completion regionWhere :=
  match param with
  | None => Normal NoRegionFilter
  | Some requested =>
      if nonEmpty requested then
        let regionVal :=
          if requested =?s js "Middle East" then js "MENA" else requested in
        match read heap regionMappings regionVal with
        | Own keywords => Normal (OrContains keywords)
        | Builtin _ => TypeError
        | NotANumber | Undefined => Normal (RegionEquals regionVal)
        end
      else Normal NoRegionFilter
  end.

Section RegionFilter.

Context `{StringPrototype}.

(** The meaning of the two filters of the query, on the stored region of
    a row: [contains] is a substring test and [equals] an equality, both
    without regard to letter case; a null region satisfies neither. *)
Definition containsInsensitive (stored k : jsstring) : bool :=
  includes (toLowerCase stored) (toLowerCase k).

Definition equalsInsensitive (stored v : jsstring) : bool :=
  toLowerCase stored =?s toLowerCase v.

Definition matchesRegion (w : regionWhere) (stored : option jsstring) : bool :=
  match w, stored with
  | NoRegionFilter, _ => true
  | _, None => false
  | OrContains keywords, Some r => existsb (containsInsensitive r) keywords
  | RegionEquals v, Some r => equalsInsensitive r v
  end.

End RegionFilter.

(** ** Vocabulary of the properties *)

(** [sum(bucket.count for bucket in buckets)]. *)
Definition total (buckets : list bucket) : Z :=
  fold_right (fun b acc => count b + acc) 0 buckets.

(** The largest of 0 and the members of [l]. *)
Definition max0 (l : list Z) : Z := fold_right Z.max 0 l.

(** [m] is the maximum of the list [l]. *)
Definition isMaximum (m : Z) (l : list Z) : Prop :=
  In m l /\ Forall (fun x => x <= m) l.

(** The bucket of one row. *)
Definition single (locationName : jsstring) (c : coords) (threat : Z) : bucket :=
  {| count := 1; maxThreat := Z.max 0 threat; name := locationName;
     coordinates := c |}.

Section Vocabulary.

Context `{StringPrototype}.

(** The rows that the callback puts in the bucket [k]; the rows it
    resolves to a key inherited from [Object.prototype], which reach no
    bucket of [stats]; the rows it counts in [global].  The realm plays no
    part in the resolution ([resolve_any_realm] below). *)
Definition placedIn (k : jsstring) (item : NewsItem) : bool :=
  match resolve [] item with
  | Normal (Placed n _) => (n =?s k) && negb (isIn n objectPrototypeKeys)
  | _ => false
  end.

Definition isLost (item : NewsItem) : bool :=
  match resolve [] item with
  | Normal (Placed n _) => isIn n objectPrototypeKeys
  | _ => false
  end.

Definition isUnplaced (item : NewsItem) : bool :=
  match resolve [] item with
  | Normal Unplaced => true
  | _ => false
  end.

Definition threatsOf (k : jsstring) (news : list NewsItem) : list Z :=
  map threatLevel (filter (placedIn k) news).

(** What the own bucket [b] of [stats] under the key [k] is after the
    rows [seen]. *)
Definition describes (seen : list NewsItem) (k : jsstring) (b : bucket)
  : Prop :=
  name b = k /\ 1 <= count b /\
  count b = Z.of_nat (length (filter (placedIn k) seen)) /\
  maxThreat b = max0 (threatsOf k seen) /\
  isIn k objectPrototypeKeys = false /\
  exists item, In item seen /\
               resolve [] item = Normal (Placed k (coordinates b)).

(** What [stats] and [global] are after the rows [seen], starting from
    the empty [stats] and 0. *)
Record summarizes (seen : list NewsItem) (st : state) : Prop := {
  sum_keys : NoDup (Object_keys (stats st));
  sum_bucket : forall k b, own (stats st) k = Some b -> describes seen k b;
  sum_absent : forall k,
    own (stats st) k = None -> filter (placedIn k) seen = [];
  sum_global : global st = Z.of_nat (length (filter isUnplaced seen));
  sum_total :
    total (Object_values (stats st)) + global st
    + Z.of_nat (length (filter isLost seen)) = Z.of_nat (length seen)
}.

End Vocabulary.

(** ** Rows of the examples *)

Definition row (r : option string) (d : string) (threat : Z) : NewsItem :=
  {| region := option_map js r; details := quoted d; threatLevel := threat |}.

Definition tokyoRow := row None "{'location':'Tokyo, Japan'}" 3.
Definition tokyoUpperRow := row None "{'location':'TOKYO, JAPAN'}" 2.
Definition europeRow := row (Some "Europe"%string) "{}" 3.
Definition europeCalmRow := row (Some "Europe"%string) "{}" (-1).
Definition globalRow := row (Some "Global"%string) "{}" 3.
Definition malformedRow := row (Some "Europe"%string) "{'location':" 4.
Definition emptyRow := row None "" 4.
Definition constructorRow := row None "{'location':'constructor'}" 3.
Definition nullRow := row (Some "Europe"%string) "null" 3.
Definition numberRow := row (Some "Europe"%string) "{'location':5}" 3.
Definition atlantisRow :=
  row (Some "APAC"%string) "{'details':{'location':'Atlantis'}}" 3.
Definition germanyRow :=
  row (Some "Europe"%string) "{'location':'somewhere in Germany'}" 3.
Definition europeConstructorRow :=
  row (Some "Europe"%string) "{'location':'constructor'}" 3.
Definition protoRow := row None "{'location':'__proto__'}" 3.

(** The state in which [forEach] starts. *)
Definition start (h : realm) : state :=
  {| heap := h; stats := []; global := 0 |}.

(** ** The markers of [SurveillanceMap] and the counters of [Home] *)

(** [Math.max(...regionStats.map(s => s.count), 1)]. *)
Definition maxCount (regionStats : list bucket) : Z :=
  fold_right Z.max 1 (map count regionStats).

(** The fill of a marker: the two [if]s on [maxThreat], one after the
    other. *)
Definition colorClass (maxThreat : Z) : jsstring :=
  let colorClass := js "fill-cyan-500" in
  let colorClass :=
    if 3 <=? maxThreat then js "fill-yellow-500" else colorClass in
  if 4 <=? maxThreat then js "fill-red-500" else colorClass.

(** [news.filter(n => n.threatLevel >= 4).length] of [Home]. *)
Definition highThreat (news : list NewsItem) : Z :=
  Z.of_nat (length (filter (fun n => 4 <=? threatLevel n) news)).

(** How many buckets of [stats] get a red marker. *)
Definition reds (stats : list (jsstring * bucket)) : Z :=
  Z.of_nat (length (filter (fun kb => 4 <=? maxThreat (snd kb)) stats)).

(** ** The query of the page *)

(** A string as [URLSearchParams] takes it (a [USVString]): a surrogate
    code unit that is not half of a pair becomes U+FFFD. *)
Definition isHighSurrogate (c : N) : bool :=
  ((55296 <=? c) && (c <=? 56319))%N.

Definition isLowSurrogate (c : N) : bool :=
  ((56320 <=? c) && (c <=? 57343))%N.

Fixpoint toUSVString (s : jsstring) : jsstring :=
  match s with
  | [] => []
  | c :: rest =>
      if isHighSurrogate c then
        match rest with
        | d :: rest' =>
            if isLowSurrogate d then c :: d :: toUSVString rest'
            else 65533%N :: toUSVString rest
        | [] => [65533%N]
        end
      else if isLowSurrogate c then 65533%N :: toUSVString rest
      else c :: toUSVString rest
  end.

(** [URLSearchParams]: the list of name and value pairs.  [get],
    [delete] and [set] are the algorithms of the URL standard on the
    list ([set] writes the first pair of that name and drops the others,
    or appends a pair), applied to the converted arguments. *)
Definition URLSearchParams := list (jsstring * jsstring).

Definition pairs_delete (p : URLSearchParams) (k : jsstring)
  : URLSearchParams :=
  filter (fun kv => negb (fst kv =?s k)) p.

Fixpoint pairs_set (p : URLSearchParams) (k v : jsstring) : URLSearchParams :=
  match p with
  | [] => [(k, v)]
  | (k', v') :: rest =>
      if k' =?s k then (k', v) :: pairs_delete rest k
      else (k', v') :: pairs_set rest k v
  end.

Definition params_get (p : URLSearchParams) (k : jsstring) : option jsstring :=
  own p (toUSVString k).

Definition params_delete (p : URLSearchParams) (k : jsstring)
  : URLSearchParams :=
  pairs_delete p (toUSVString k).

Definition params_set (p : URLSearchParams) (k v : jsstring)
  : URLSearchParams :=
  pairs_set p (toUSVString k) (toUSVString v).

(** The handlers of [SurveillanceMap] that write the query.  Each starts
    from a copy of the current parameters and pushes the result. *)
Module MapControl.

Record position := { coordinates : lonlat; zoom : Q }.

Open Scope Q_scope.

(** The initial state of [position]. *)
Definition initial : position := {| coordinates := (0, 20); zoom := 1 |}.

(** The labels of the focus buttons. *)
Definition focusButtons : list jsstring :=
  map js ["Global"; "North America"; "Europe"; "MENA"; "APAC"]%string.

(** [minZoom] and [maxZoom] of the [ZoomableGroup]. *)
Definition minZoom : Q := 1.
Definition maxZoom : Q := 4.

(** The [switch] of [handleRegionFocus]: no case, no change. *)
Definition focusPosition (region : jsstring) (current : position) : position :=
  if region =?s js "Global" then {| coordinates := (0, 20); zoom := 1 |}
  else if region =?s js "North America" then
    {| coordinates := (-100, 40); zoom := 2.5 |}
  else if region =?s js "Europe" then
    {| coordinates := (15, 50); zoom := 3 |}
  else if region =?s js "MENA" then
    {| coordinates := (45, 25); zoom := 3.5 |}
  else if region =?s js "APAC" then
    {| coordinates := (100, 20); zoom := 2 |}
  else current.

Close Scope Q_scope.

(** The second half of [handleRegionFocus]: the parameters pushed. *)
Definition focusParams (region : jsstring) (searchParams : URLSearchParams)
  : URLSearchParams :=
  if region =?s js "Global" then params_delete searchParams (js "region")
  else if region =?s js "MENA" then
    params_set searchParams (js "region") (js "Middle East")
  else params_set searchParams (js "region") region.

(** [handleReset]. *)
Definition handleReset (searchParams : URLSearchParams) : URLSearchParams :=
  params_delete searchParams (js "location").

Section MarkerClick.

Context `{StringPrototype}.

(** [handleMarkerClick]. *)
Definition handleMarkerClick (regionName : jsstring)
  (searchParams : URLSearchParams) : URLSearchParams :=
  params_set searchParams (js "location") (toLowerCase regionName).

(** [isSelected] of a marker. *)
Definition isSelected (searchParams : URLSearchParams) (name : jsstring)
  : bool :=
  match params_get searchParams (js "location") with
  | Some l => l =?s toLowerCase name
  | None => false
  end.

End MarkerClick.

End MapControl.

(** ** The route [api/refresh/status] and the button that polls it *)

(** [a || b] on a property that may be undefined. *)
Definition orDefault (v : option json) (d : json) : json :=
  match v with
  | Some x => if truthy x then x else d
  | None => d
  end.

(** A number that [JSON.parse] reads as an infinity: the double nearest
    to the decimal is infinite from [2 ^ 1024 - 2 ^ 970] on, halfway
    between the largest double and [2 ^ 1024]. *)
Definition roundsToInfinity (mant exp10 : Z) : bool :=
  if 0 <=? exp10 then 2 ^ 1024 - 2 ^ 970 <=? Z.abs mant * 10 ^ exp10
  else (2 ^ 1024 - 2 ^ 970) * 10 ^ (- exp10) <=? Z.abs mant.

(** What a client reads back with [res.json()] from a value of
    [JSON.parse] that the server has given to [NextResponse.json]:
    [JSON.stringify] writes a number that is not finite as [null], inside
    arrays and objects as well.  Every other number stands for the same
    double on both sides and keeps its decimal here; strings, booleans
    and [null] are written and read back as they are. *)
Fixpoint serialized (v : json) : json :=
  match v with
  | JNumber m e => if roundsToInfinity m e then JNull else v
  | JArray elems => JArray (map serialized elems)
  | JObject props =>
      JObject (map (fun kv => (fst kv, serialized (snd kv))) props)
  | JNull | JBool _ | JString _ => v
  end.

Module RefreshStatus.

(** What the route finds at [public/refresh_status.json]: nothing, a file
    that [readFileSync] cannot read, or the text of the file. *)
Inductive statusFile :=
| Missing
| Unreadable
| Contents (data : jsstring).

(** The object given to [NextResponse.json]; an undefined property
    ([None]) is left out of the response. *)
Record body := {
  status : option json;
  current_competitor : option json;
  processed : option json;
  total : option json;
  percent_complete : option json;
  estimated_seconds_remaining : option json;
  started_at : option json;
  completed_at : option json;
  error : option json;
  message : option json
}.

Record response := { httpStatus : Z; payload : body }.

Definition zero : json := JNumber 0 0.

Definition idle : body :=
  {| status := Some (JString (js "idle"));
     current_competitor := None;
     processed := Some zero; total := Some zero;
     percent_complete := Some zero;
     estimated_seconds_remaining := None;
     started_at := None; completed_at := None; error := None;
     message := Some (JString (js "No active refresh process found.")) |}.

Definition failed : body :=
  {| status := Some (JString (js "error"));
     current_competitor := None;
     processed := Some zero; total := Some zero;
     percent_complete := Some zero;
     estimated_seconds_remaining := None;
     started_at := None; completed_at := None;
     error := Some (JString (js "Failed to read status"));
     message := None |}.

(** The body built from the parsed file, [json] not being [null]. *)
Definition report (json : json) : body :=
  {| status := Some (orDefault (getProperty json (js "status"))
                               (JString (js "idle")));
     current_competitor := getProperty json (js "current_competitor");
     processed := Some (orDefault (getProperty json (js "processed")) zero);
     total := Some (orDefault (getProperty json (js "total")) zero);
     percent_complete :=
       Some (orDefault (getProperty json (js "percent_complete")) zero);
     estimated_seconds_remaining :=
       getProperty json (js "estimated_seconds_remaining");
     started_at := getProperty json (js "started_at");
     completed_at := getProperty json (js "completed_at");
     error := getProperty json (js "error");
     message := None |}.

(** [GET].  Whatever throws inside the [try] block (reading the file,
    [JSON.parse], a property of [null]) ends in the [catch] block. *)
Definition GET (file : statusFile) : response :=
  match file with
  | Missing => {| httpStatus := 200; payload := idle |}
  | Unreadable => {| httpStatus := 500; payload := failed |}
  | Contents data =>
      match JSON_parse data with
      | None | Some JNull => {| httpStatus := 500; payload := failed |}
      | Some json => {| httpStatus := 200; payload := report json |}
      end
  end.

(** The body that the client reads from the response: [await res.json()]
    on what [NextResponse.json] has written. *)
Definition received (sent : body) : body :=
  {| status := option_map serialized (status sent);
     current_competitor := option_map serialized (current_competitor sent);
     processed := option_map serialized (processed sent);
     total := option_map serialized (total sent);
     percent_complete := option_map serialized (percent_complete sent);
     estimated_seconds_remaining :=
       option_map serialized (estimated_seconds_remaining sent);
     started_at := option_map serialized (started_at sent);
     completed_at := option_map serialized (completed_at sent);
     error := option_map serialized (error sent);
     message := option_map serialized (message sent) |}.

(** The state of [DashboardRefreshButton]. *)
Record button := {
  isRefreshing : bool;
  lastStatus : option body;
  showSuccess : bool
}.

(** [data.status === s] for a string [s]. *)
Definition statusIs (data : body) (s : string) : bool :=
  match status data with
  | Some (JString t) => t =?s js s
  | _ => false
  end.

(** One tick of the polling interval, given the body of the response. *)
Definition poll (data : body) (b : button) : button :=
  if statusIs data "completed" then
    {| isRefreshing := false; lastStatus := Some data; showSuccess := true |}
  else if statusIs data "error" then
    {| isRefreshing := false; lastStatus := Some data;
       showSuccess := showSuccess b |}
  else
    {| isRefreshing := isRefreshing b; lastStatus := Some data;
       showSuccess := showSuccess b |}.

(** The text of the error message, when the button shows one:
    [status?.status === 'error' && !isRefreshing], then
    [status.error || 'Scan failed. Please try again.']. *)
Definition errorMessage (b : button) : option json :=
  match lastStatus b with
  | Some data =>
      if statusIs data "error" && negb (isRefreshing b) then
        Some (orDefault (error data)
                        (JString (js "Scan failed. Please try again.")))
      else None
  | None => None
  end.

End RefreshStatus.

(** ** The route [api/news/[id]], [PATCH] *)

Module NewsPatch.

(** [updateData], from the text of the request, or [None] where the
    handler ends in its [catch] block (status 500): [request.json()]
    throws on text that is not JSON, and the destructuring throws on
    [null].  A property that is not undefined is copied. *)
Definition updateData (text : jsstring) : option (list (jsstring * json)) :=
  match JSON_parse text with
  | None => None
  | Some JNull => None
  | Some body =>
      let isRead := getProperty body (js "isRead") in
      let isStarred := getProperty body (js "isStarred") in
      Some
        ((match isRead with Some v => [(js "isRead", v)] | None => [] end)
         ++ (match isStarred with
             | Some v => [(js "isStarred", v)]
             | None => []
             end))
  end.

(** The bodies that [NewsCard] sends: [JSON.stringify({ isRead: true })]
    and [JSON.stringify({ isStarred: newState })]. *)
Definition readRequest : jsstring := quoted "{'isRead':true}".

Definition starRequest (newState : bool) : jsstring :=
  if newState then quoted "{'isStarred':true}"
  else quoted "{'isStarred':false}".

End NewsPatch.

(** ** The side bar *)

Module Sidebar.

(** A competitor as the side bar reads it. *)
Record competitor := { name : jsstring; region : option jsstring }.

(** [(c.region || '')]. *)
Definition regionOrEmpty (c : competitor) : jsstring :=
  match region c with
  | Some r => r
  | None => []
  end.

(** The filter state that [applyFilters] reads. *)
Record filters := {
  selectedCompetitor : option jsstring;
  selectedRegion : option jsstring;
  unreadOnly : bool;
  starredOnly : bool
}.

(** A value of [string | null] is truthy. *)
Definition chosen (v : option jsstring) : option jsstring :=
  match v with
  | Some s => if nonEmpty s then Some s else None
  | None => None
  end.

(** The state after the effect that syncs it with the query. *)
Definition fromQuery (searchParams : URLSearchParams) : filters :=
  {| selectedCompetitor := params_get searchParams (js "competitorId");
     selectedRegion := params_get searchParams (js "region");
     unreadOnly :=
       match params_get searchParams (js "unread") with
       | Some v => v =?s js "true"
       | None => false
       end;
     starredOnly :=
       match params_get searchParams (js "starred") with
       | Some v => v =?s js "true"
       | None => false
       end |}.

(** [if (v) params.set(k, v) else params.delete(k)]. *)
Definition setOrDelete (params : URLSearchParams) (k : jsstring)
  (v : option jsstring) : URLSearchParams :=
  match v with
  | Some x => params_set params k x
  | None => params_delete params k
  end.

(** [applyFilters]: the parameters it compares with the current ones,
    and pushes when their texts differ. *)
Definition applyFilters (f : filters) (searchParams : URLSearchParams)
  : URLSearchParams :=
  let params := searchParams in
  let params :=
    setOrDelete params (js "competitorId") (chosen (selectedCompetitor f)) in
  let params :=
    setOrDelete params (js "region") (chosen (selectedRegion f)) in
  let params :=
    setOrDelete params (js "unread")
                (if unreadOnly f then Some (js "true") else None) in
  setOrDelete params (js "starred")
              (if starredOnly f then Some (js "true") else None).

Section Filtering.

Context `{StringPrototype}.

Definition matchesSearch (searchTerm : jsstring) (c : competitor) : bool :=
  includes (toLowerCase (name c)) (toLowerCase searchTerm).

(** [matchesRegion] of the filter callback. *)
Definition matchesRegion (selected : option jsstring) (c : competitor)
  : bool :=
  match chosen selected with
  | None => true
  | Some selectedRegion =>
      let r := toLowerCase (regionOrEmpty c) in
      let s := toLowerCase selectedRegion in
      if s =?s js "north america" then
        includes r (js "usa") || includes r (js "canada")
        || includes r (js "america")
      else if s =?s js "europe" then
        includes r (js "europe") || includes r (js "uk")
        || includes r (js "germany") || includes r (js "france")
      else if s =?s js "apac" then
        includes r (js "asia") || includes r (js "china")
        || includes r (js "japan") || includes r (js "australia")
      else if s =?s js "middle east" then
        includes r (js "middle east") || includes r (js "uae")
        || includes r (js "saudi") || includes r (js "qatar")
      else includes r s
  end.

Definition filteredCompetitors (competitors : list competitor)
  (searchTerm : jsstring) (selected : option jsstring) : list competitor :=
  filter (fun c => matchesSearch searchTerm c && matchesRegion selected c)
         competitors.

End Filtering.

End Sidebar.

(** ** The top movers of [Home] *)

(** [assign o k v]: the assignment [o[k] = v] on own properties: an
    existing property keeps its place, a new one is created last. *)
Fixpoint assign {A : Type} (o : list (jsstring * A)) (k : jsstring) (v : A)
  : list (jsstring * A) :=
  match o with
  | [] => [(k, v)]
  | (k', a) :: rest =>
      if k' =?s k then (k', v) :: rest else (k', a) :: assign rest k v
  end.

(** The array index that a key is, if any: digits without a leading
    zero, up to [2 ^ 32 - 2]. *)
Definition arrayIndex (k : jsstring) : option Z :=
  match k with
  | [] => None
  | c :: rest =>
      if forallb isDigit k
         && (negb (c =? 48)%N || negb (nonEmpty rest)) then
        let v := fold_left (fun acc d => 10 * acc + digitValue d) k 0 in
        if v <=? 4294967294 then Some v else None
      else None
  end.

Definition isArrayIndex (k : jsstring) : bool :=
  match arrayIndex k with
  | Some _ => true
  | None => false
  end.

Fixpoint insertByIndex {A : Type} (e : jsstring * A)
  (l : list (jsstring * A)) : list (jsstring * A) :=
  match l with
  | [] => [e]
  | e' :: rest =>
      match arrayIndex (fst e), arrayIndex (fst e') with
      | Some i, Some i' =>
          if i <? i' then e :: l else e' :: insertByIndex e rest
      | _, _ => e :: l
      end
  end.

(** [Object.entries(o)]: the properties whose keys are array indices, in
    the order of the indices, then the others in the order of their
    creation. *)
Definition Object_entries {A : Type} (o : list (jsstring * A))
  : list (jsstring * A) :=
  fold_right insertByIndex [] (filter (fun kv => isArrayIndex (fst kv)) o)
  ++ filter (fun kv => negb (isArrayIndex (fst kv))) o.

Module TopMovers.

(** A row of [news] as the block reads it: [n.competitor.name] and the
    time value of [n.date]. *)
Record row := { competitor : jsstring; date : Z }.

(** [news.filter(n => new Date(n.date) >= last7Days)]. *)
Definition recentNews (last7Days : Z) (news : list row) : list row :=
  filter (fun n => last7Days <=? date n) news.

(** A value of [competitorCounts]: a number, or the text that [+ 1]
    makes of a built-in or of a text. *)
Inductive tally :=
| Count (n : Z)
| Text.

(** [competitorCounts[name] = (competitorCounts[name] || 0) + 1].  A
    built-in inherited from [Object.prototype] is truthy and gives a
    text; the assignment to ["__proto__"] reaches the setter of
    [Object.prototype], which ignores a text. *)
Definition countOne (heap : realm) (counts : list (jsstring * tally))
  (name : jsstring) : list (jsstring * tally) :=
  match read heap counts name with
  | Own (Count n) => assign counts name (Count (n + 1))
  | Own Text => assign counts name Text
  | Builtin k =>
      if k =?s js "__proto__" then counts else assign counts name Text
  | NotANumber | Undefined => assign counts name (Count 1)
  end.

Definition competitorCounts (heap : realm) (recent : list row)
  : list (jsstring * tally) :=
  fold_left (countOne heap) (map competitor recent) [].

Record mover := { name : jsstring; count : Z }.

(** [.map(([name, count]) => ({ name, count }))], as long as every count
    is a number. *)
Fixpoint movers (entries : list (jsstring * tally)) : option (list mover) :=
  match entries with
  | [] => Some []
  | (k, Count n) :: rest =>
      option_map (cons {| name := k; count := n |}) (movers rest)
  | (_, Text) :: _ => None
  end.

(** [.sort((a, b) => b.count - a.count)]: the sort is stable, so that a
    mover goes before the movers after it that count as much or less. *)
Fixpoint insertMover (x : mover) (l : list mover) : list mover :=
  match l with
  | [] => [x]
  | y :: rest =>
      if count x <? count y then y :: insertMover x rest else x :: l
  end.

Definition sortMovers (l : list mover) : list mover :=
  fold_right insertMover [] l.

(** [topMovers], or [None] when a count is a text: the comparator then
    yields [NaN] and the order is left to the engine. *)
Definition topMovers (heap : realm) (last7Days : Z) (news : list row)
  : option (list mover) :=
  option_map (fun l => firstn 5 (sortMovers l))
    (movers (Object_entries (competitorCounts heap (recentNews last7Days news)))).

(** How often [k] is the competitor of a row. *)
Definition occurrences (k : jsstring) (names : list jsstring) : Z :=
  Z.of_nat (length (filter (jsstring_eqb k) names)).

End TopMovers.

(** What [competitorCounts] holds after the names [seen]. *)
Definition tallied (seen : list jsstring)
  (counts : list (jsstring * TopMovers.tally)) : Prop :=
  NoDup (Object_keys counts) /\
  forall k,
    own counts k =
    if isIn k objectPrototypeKeys then
      if (k =?s js "__proto__") || (TopMovers.occurrences k seen =? 0)
      then None else Some TopMovers.Text
    else if TopMovers.occurrences k seen =? 0 then None
         else Some (TopMovers.Count (TopMovers.occurrences k seen)).


Definition entryOf (m : TopMovers.mover) : jsstring * TopMovers.tally :=
  (TopMovers.name m, TopMovers.Count (TopMovers.count m)).

Definition atLeast (a b : TopMovers.mover) : Prop :=
  TopMovers.count b <= TopMovers.count a.

(** Rows for the examples: the last has left the window of seven days. *)
Definition newsRow (competitor : string) (date : Z) : TopMovers.row :=
  {| TopMovers.competitor := js competitor; TopMovers.date := date |}.

Definition sampleNews : list TopMovers.row :=
  [ newsRow "Romi" 11; newsRow "Fagor" 12; newsRow "Romi" 13;
    newsRow "7" 20; newsRow "10" 11; newsRow "Fagor" 10; newsRow "2" 10;
    newsRow "Eurostec" 10; newsRow "Alletech" 10; newsRow "__proto__" 10;
    newsRow "Fagor" 100; newsRow "Eurostec" 5 ].

Definition sampleMovers : list TopMovers.mover :=
  [ {| TopMovers.name := js "Fagor"; TopMovers.count := 3 |};
    {| TopMovers.name := js "Romi"; TopMovers.count := 2 |};
    {| TopMovers.name := js "2"; TopMovers.count := 1 |};
    {| TopMovers.name := js "7"; TopMovers.count := 1 |};
    {| TopMovers.name := js "10"; TopMovers.count := 1 |} ].

(** * Properties *)

(** ** Keys and association lists *)

Lemma jsstring_eqb_eq (a b : jsstring) : (a =?s b) = true <-> a = b.
Proof.
  unfold jsstring_eqb. destruct (list_eq_dec N.eq_dec a b); split;
    congruence.
Qed.

Lemma jsstring_eqb_refl (a : jsstring) : (a =?s a) = true.
Proof. now apply jsstring_eqb_eq. Qed.

Lemma jsstring_eqb_neq (a b : jsstring) : (a =?s b) = false <-> a <> b.
Proof.
  unfold jsstring_eqb. destruct (list_eq_dec N.eq_dec a b); split;
    congruence.
Qed.

Lemma isIn_In (k : jsstring) (ks : list jsstring) :
  isIn k ks = true <-> In k ks.
Proof.
  unfold isIn. rewrite existsb_exists. split.
  - intros (x & Hx & E). apply jsstring_eqb_eq in E. now subst.
  - intros Hk. exists k. split; [assumption | apply jsstring_eqb_refl].
Qed.

Section Own.

Context {A : Type}.
Implicit Types (o : list (jsstring * A)) (k : jsstring).

Lemma own_None o k : own o k = None <-> ~ In k (Object_keys o).
Proof.
  induction o as [|[k' a] o IH]; simpl.
  - tauto.
  - destruct (k' =?s k) eqn:E.
    + apply jsstring_eqb_eq in E. split; [discriminate | tauto].
    + apply jsstring_eqb_neq in E. rewrite IH. tauto.
Qed.

Lemma own_Some_In o k a : own o k = Some a -> In (k, a) o.
Proof.
  induction o as [|[k' a'] o IH]; simpl; [discriminate|].
  destruct (k' =?s k) eqn:E.
  - apply jsstring_eqb_eq in E. intros [= ->]. subst. now left.
  - intros Ho. right. now apply IH.
Qed.

Lemma In_own o k a :
  NoDup (Object_keys o) -> In (k, a) o -> own o k = Some a.
Proof.
  induction o as [|[k' a'] o IH]; simpl; [tauto|].
  intros Hnd [E | Hin].
  - injection E as -> ->. now rewrite jsstring_eqb_refl.
  - inversion Hnd as [|? ? Hk' Hnd']; subst.
    destruct (k' =?s k) eqn:E.
    + apply jsstring_eqb_eq in E. subst. exfalso. apply Hk'.
      change k with (fst (k, a)). now apply in_map.
    + now apply IH.
Qed.

Lemma own_key_In o k : In k (Object_keys o) -> exists a, own o k = Some a.
Proof.
  intros Hk. destruct (own o k) as [a|] eqn:E; [now exists a|].
  apply own_None in E. contradiction.
Qed.

Lemma own_app_fresh o k k' a :
  own (o ++ [(k', a)]) k =
  match own o k with
  | Some b => Some b
  | None => if k' =?s k then Some a else None
  end.
Proof.
  induction o as [|[k0 a0] o IH]; simpl; [reflexivity|].
  now destruct (k0 =?s k).
Qed.

End Own.

(** ** Strings of digits *)

Lemma isDigit_bounds c : isDigit c = true -> (48 <= c <= 57)%N.
Proof.
  unfold isDigit. rewrite andb_true_iff, !N.leb_le. tauto.
Qed.

Lemma lower_digits s : forallb isDigit s = true -> map lower_latin1 s = s.
Proof.
  induction s as [|c s IH]; simpl; [reflexivity|].
  rewrite andb_true_iff. intros [Hc Hs]. rewrite (IH Hs). f_equal.
  apply isDigit_bounds in Hc. unfold lower_latin1.
  destruct (N.leb_spec 65 c); simpl.
  - destruct (N.leb_spec c 90); simpl; [lia|].
    destruct (N.leb_spec 192 c); simpl; [lia | reflexivity].
  - destruct (N.leb_spec 192 c); simpl; [lia | reflexivity].
Qed.

Lemma isLatin1_digits s : allDigits s = true -> isLatin1 s = true.
Proof.
  unfold allDigits, isLatin1. rewrite andb_true_iff. intros [_ Hs].
  rewrite forallb_forall in *. intros c Hc.
  specialize (Hs c Hc). apply isDigit_bounds in Hs. apply N.ltb_lt. lia.
Qed.

Lemma isWhiteSpace_digit c : isDigit c = true -> isWhiteSpace c = false.
Proof.
  intros Hc. apply isDigit_bounds in Hc. unfold isWhiteSpace.
  repeat match goal with
         | |- context [(?a <=? ?b)%N] => destruct (N.leb_spec a b); simpl
         | |- context [(?a =? ?b)%N] => destruct (N.eqb_spec a b); simpl
         end; solve [reflexivity | lia].
Qed.

Lemma trimStart_digits s : forallb isDigit s = true -> trimStart s = s.
Proof.
  destruct s as [|c s]; simpl; [reflexivity|].
  rewrite andb_true_iff. intros [Hc _].
  now rewrite (isWhiteSpace_digit _ Hc).
Qed.

Lemma trim_digits s : allDigits s = true -> trim s = s.
Proof.
  unfold allDigits, trim. rewrite andb_true_iff. intros [_ Hs].
  rewrite (trimStart_digits _ Hs).
  rewrite trimStart_digits, rev_involutive; [reflexivity|].
  rewrite forallb_forall in *. intros c Hc. apply Hs. now apply in_rev.
Qed.

Lemma own_allDigits {A : Type} (o : list (jsstring * A)) (k : jsstring) :
  forallb (fun key => negb (allDigits key)) (Object_keys o) = true ->
  allDigits k = true -> own o k = None.
Proof.
  intros Hkeys Hk. apply own_None. intros Hin.
  rewrite forallb_forall in Hkeys. specialize (Hkeys k Hin).
  now rewrite Hk in Hkeys.
Qed.

(** ** Reads do not depend on what the realm holds *)

Lemma truthyCoords_read (h h' : realm) (o : list (jsstring * lonlat)) k :
  truthyCoords (read h o k) = truthyCoords (read h' o k).
Proof.
  unfold read. destruct (own o k) as [[lon lat]|]; [reflexivity|].
  destruct (isIn k objectPrototypeKeys); [reflexivity|].
  now destruct (_ && isIn _ h), (_ && isIn _ h').
Qed.

Section Realm.

Context `{StringPrototype}.

Lemma lookupLocation_any_realm h h' n l :
  lookupLocation h n l = lookupLocation h' n l.
Proof.
  unfold lookupLocation.
  rewrite (truthyCoords_read h h' cityCoordinates).
  destruct (truthyCoords _); [reflexivity|].
  destruct (countryMatch _); [|reflexivity].
  now rewrite (truthyCoords_read h h' countryCoordinates).
Qed.

Lemma locate_any_realm h h' item : locate h item = locate h' item.
Proof.
  unfold locate. destruct (readLocation _) as [[l|]|]; try reflexivity.
  now rewrite (lookupLocation_any_realm h h').
Qed.

Lemma resolve_any_realm h h' item : resolve h item = resolve h' item.
Proof. unfold resolve. now rewrite (locate_any_realm h h'). Qed.

End Realm.

(** ** The two assignments on a bucket *)

Lemma keys_bump stats k t : Object_keys (bump stats k t) = Object_keys stats.
Proof.
  induction stats as [|[k' b] stats IH]; simpl; [reflexivity|].
  destruct (k' =?s k); simpl; [reflexivity | now rewrite IH].
Qed.

Lemma own_bump stats k t k' :
  own (bump stats k t) k' =
  if k =?s k' then option_map (fun b => increment b t) (own stats k)
  else own stats k'.
Proof.
  induction stats as [|[k0 b] stats IH]; simpl.
  - now destruct (k =?s k').
  - destruct (k0 =?s k) eqn:E0; simpl.
    + apply jsstring_eqb_eq in E0. subst k0.
      now destruct (k =?s k').
    + destruct (k0 =?s k') eqn:E1.
      * apply jsstring_eqb_eq in E1. subst k0.
        destruct (k =?s k') eqn:E2; [|reflexivity].
        apply jsstring_eqb_eq in E2. subst.
        rewrite jsstring_eqb_refl in E0. discriminate.
      * apply IH.
Qed.

Lemma total_bump stats k t b :
  own stats k = Some b ->
  total (Object_values (bump stats k t)) = total (Object_values stats) + 1.
Proof.
  induction stats as [|[k' b'] stats IH]; simpl; [discriminate|].
  destruct (k' =?s k); simpl.
  - intros _. lia.
  - intros Ho. rewrite (IH Ho). lia.
Qed.

Lemma bump_fresh stats k t b :
  own stats k = None ->
  bump (stats ++ [(k, b)]) k t = stats ++ [(k, increment b t)].
Proof.
  induction stats as [|[k' b'] stats IH]; simpl.
  - now rewrite jsstring_eqb_refl.
  - destruct (k' =?s k); [discriminate|].
    intros Ho. now rewrite (IH Ho).
Qed.

Lemma NoDup_snoc {A : Type} (l : list A) (x : A) :
  NoDup l -> ~ In x l -> NoDup (l ++ [x]).
Proof.
  induction l as [|y l IH]; simpl; intros Hnd Hx.
  - repeat constructor. tauto.
  - inversion Hnd as [|? ? Hy Hnd']; subst. constructor.
    + rewrite in_app_iff. simpl. intuition congruence.
    + apply IH; tauto.
Qed.

Lemma total_app bs1 bs2 : total (bs1 ++ bs2) = total bs1 + total bs2.
Proof. induction bs1 as [|b bs1 IH]; simpl; lia. Qed.

Lemma max0_snoc l x : max0 (l ++ [x]) = Z.max (max0 l) x.
Proof. induction l as [|y l IH]; simpl; lia. Qed.

Lemma max0_nonneg l : 0 <= max0 l.
Proof. induction l as [|y l IH]; simpl; lia. Qed.

Lemma max0_upper l : Forall (fun x => x <= max0 l) l.
Proof.
  induction l as [|y l IH]; simpl; constructor; [lia|].
  eapply Forall_impl; [|exact IH]. simpl. intros. lia.
Qed.

Lemma max0_reached l : max0 l = 0 \/ In (max0 l) l.
Proof.
  induction l as [|y l [IH | IH]]; simpl; [now left| |].
  - rewrite IH. destruct (Z.max_spec y 0) as [[_ ->] | [_ ->]]; tauto.
  - destruct (Z.max_spec y (max0 l)) as [[_ ->] | [_ ->]]; tauto.
Qed.

(** ** The pass over the rows *)

Section Pass.

Context `{StringPrototype}.

Lemma summarizes_start h :
  summarizes [] {| heap := h; stats := []; global := 0 |}.
Proof.
  constructor; simpl; try reflexivity.
  - constructor.
  - discriminate.
Qed.

Lemma placedIn_snoc k seen item :
  filter (placedIn k) (seen ++ [item]) =
  filter (placedIn k) seen ++ (if placedIn k item then [item] else []).
Proof. rewrite filter_app. simpl. now destruct (placedIn k item). Qed.

Lemma length_filter_snoc (f : NewsItem -> bool) seen item :
  Z.of_nat (length (filter f (seen ++ [item]))) =
  Z.of_nat (length (filter f seen)) + (if f item then 1 else 0).
Proof.
  rewrite filter_app, length_app. simpl.
  destruct (f item); simpl; lia.
Qed.

Lemma threatsOf_snoc k seen item :
  threatsOf k (seen ++ [item]) =
  threatsOf k seen ++ (if placedIn k item then [threatLevel item] else []).
Proof.
  unfold threatsOf. rewrite placedIn_snoc, map_app.
  now destruct (placedIn k item).
Qed.

Lemma describes_other seen k b item :
  describes seen k b -> placedIn k item = false ->
  describes (seen ++ [item]) k b.
Proof.
  intros (Hn & H1 & Hc & Hm & Hp & first & Hin & Hr) Hk.
  unfold describes. rewrite threatsOf_snoc, length_filter_snoc, Hk.
  rewrite app_nil_r, Z.add_0_r. repeat split; try assumption.
  exists first. split; [|exact Hr]. apply in_or_app. now left.
Qed.

Lemma describes_one_more seen k b item :
  describes seen k b -> placedIn k item = true ->
  describes (seen ++ [item]) k (increment b (threatLevel item)).
Proof.
  intros (Hn & H1 & Hc & Hm & Hp & first & Hin & Hr) Hk.
  unfold describes. rewrite threatsOf_snoc, length_filter_snoc, Hk.
  rewrite max0_snoc. simpl. rewrite <- Hm, <- Hc.
  repeat split; try first [lia | assumption].
  exists first. split; [|exact Hr]. apply in_or_app. now left.
Qed.

Lemma describes_first seen k c item :
  filter (placedIn k) seen = [] ->
  resolve [] item = Normal (Placed k c) ->
  isIn k objectPrototypeKeys = false ->
  describes (seen ++ [item]) k (single k c (threatLevel item)).
Proof.
  intros Hnone Hr Hp.
  assert (Hk : placedIn k item = true).
  { unfold placedIn. now rewrite Hr, Hp, jsstring_eqb_refl. }
  unfold describes. rewrite threatsOf_snoc, length_filter_snoc, Hk.
  rewrite max0_snoc. unfold threatsOf. rewrite Hnone. simpl.
  repeat split; try first [lia | assumption].
  exists item. split; [|exact Hr]. apply in_or_app. right. now left.
Qed.

Lemma place_cases st n c t :
  place st n c t =
  match own (stats st) n with
  | Some _ =>
      {| heap := heap st; stats := bump (stats st) n t; global := global st |}
  | None =>
      if isIn n objectPrototypeKeys then
        {| heap := n :: heap st; stats := stats st; global := global st |}
      else
        {| heap := heap st;
           stats := stats st ++ [(n, single n c t)];
           global := global st |}
  end.
Proof.
  unfold place, read. destruct (own (stats st) n) eqn:O; [reflexivity|].
  destruct (isIn n objectPrototypeKeys); [reflexivity|].
  destruct (_ && _); now rewrite (bump_fresh _ _ _ _ O).
Qed.

Lemma summarizes_step seen st item st' :
  summarizes seen st -> callback st item = Normal st' ->
  summarizes (seen ++ [item]) st'.
Proof.
  intros [Hk Hb Ha Hg Ht]. unfold callback.
  rewrite (resolve_any_realm (heap st) []).
  destruct (resolve [] item) as [[n c|]|] eqn:R; [| |discriminate].
  - (* the row has coordinates *)
    intros [= <-]. rewrite place_cases.
    assert (Hp : forall k, placedIn k item =
              (n =?s k) && negb (isIn n objectPrototypeKeys))
      by (intros k; unfold placedIn; now rewrite R).
    assert (Hl : isLost item = isIn n objectPrototypeKeys)
      by (unfold isLost; now rewrite R).
    assert (Hu : isUnplaced item = false)
      by (unfold isUnplaced; now rewrite R).
    destruct (own (stats st) n) as [b0|] eqn:O.
    + (* an own bucket *)
      pose proof (Hb n b0 O) as D0.
      assert (P : isIn n objectPrototypeKeys = false) by apply D0.
      rewrite P in Hl.
      assert (Hp2 : forall k, placedIn k item = (n =?s k))
        by (intros k; rewrite Hp, P; apply andb_true_r).
      constructor; simpl.
      * now rewrite keys_bump.
      * intros k b. rewrite own_bump.
        destruct (n =?s k) eqn:E.
        -- apply jsstring_eqb_eq in E. subst k. rewrite O. simpl.
           intros [= <-]. apply describes_one_more; [exact D0|].
           now rewrite Hp2, jsstring_eqb_refl.
        -- intros Ho. apply describes_other; [now apply Hb|].
           now rewrite Hp2.
      * intros k. rewrite own_bump, placedIn_snoc, Hp2.
        destruct (n =?s k) eqn:E; simpl.
        -- apply jsstring_eqb_eq in E. subst k. rewrite O. discriminate.
        -- intros Ho. rewrite app_nil_r. now apply Ha.
      * now rewrite length_filter_snoc, Hu, Z.add_0_r.
      * rewrite (total_bump _ _ _ _ O), length_filter_snoc, Hl, length_app.
        simpl. lia.
    + destruct (isIn n objectPrototypeKeys) eqn:P.
      * (* a key of Object.prototype: nothing reaches [stats] *)
        assert (Hp' : forall k, placedIn k item = false)
          by (intros k; rewrite Hp; apply andb_false_r).
        constructor; simpl.
        -- assumption.
        -- intros k b Ho. apply describes_other; [now apply Hb | apply Hp'].
        -- intros k Ho. rewrite placedIn_snoc, Hp', app_nil_r. now apply Ha.
        -- now rewrite length_filter_snoc, Hu, Z.add_0_r.
        -- rewrite length_filter_snoc, Hl, length_app. simpl. lia.
      * (* a new bucket *)
        assert (Hp2 : forall k, placedIn k item = (n =?s k))
          by (intros k; rewrite Hp; apply andb_true_r).
        constructor; simpl.
        -- unfold Object_keys. rewrite map_app. simpl.
           apply NoDup_snoc; [exact Hk | now apply own_None].
        -- intros k b. rewrite own_app_fresh.
           destruct (own (stats st) k) as [b1|] eqn:O1.
           ++ intros [= <-]. apply describes_other; [now apply Hb|].
              rewrite Hp2. apply jsstring_eqb_neq. congruence.
           ++ destruct (n =?s k) eqn:E; [|discriminate].
              apply jsstring_eqb_eq in E. subst k. intros [= <-].
              apply describes_first; [now apply Ha | exact R | exact P].
        -- intros k. rewrite own_app_fresh, placedIn_snoc, Hp2.
           destruct (own (stats st) k) eqn:O1; [discriminate|].
           destruct (n =?s k); [discriminate|].
           intros _. rewrite app_nil_r. now apply Ha.
        -- now rewrite length_filter_snoc, Hu, Z.add_0_r.
        -- unfold Object_values. rewrite map_app, total_app.
           rewrite length_filter_snoc, Hl, length_app. simpl.
           fold (Object_values (stats st)). lia.
  - (* the row is counted in [global] *)
    intros [= <-].
    assert (Hp : forall k, placedIn k item = false)
      by (intros k; unfold placedIn; now rewrite R).
    assert (Hl : isLost item = false) by (unfold isLost; now rewrite R).
    assert (Hu : isUnplaced item = true) by (unfold isUnplaced; now rewrite R).
    constructor; simpl.
    + assumption.
    + intros k b Ho. apply describes_other; [now apply Hb | apply Hp].
    + intros k Ho. rewrite placedIn_snoc, Hp, app_nil_r. now apply Ha.
    + rewrite length_filter_snoc, Hu. lia.
    + rewrite length_filter_snoc, Hl, length_app. simpl. lia.
Qed.

End Pass.

Section Aggregate.

Context `{StringPrototype}.

Lemma forEach_summarizes rest : forall seen st st',
  summarizes seen st -> forEach rest st = Done st' ->
  summarizes (seen ++ rest) st'.
Proof.
  induction rest as [|item rest IH]; simpl; intros seen st st' Hs.
  - intros [= <-]. now rewrite app_nil_r.
  - destruct (callback st item) as [st1|] eqn:C; [|discriminate].
    intros Hrun.
    replace (seen ++ item :: rest) with ((seen ++ [item]) ++ rest)
      by now rewrite <- app_assoc.
    eapply IH; [|exact Hrun]. eapply summarizes_step; eassumption.
Qed.

Lemma aggregate_summarizes h news bs g :
  fst (aggregate h news) = Returned bs g ->
  exists st, summarizes news st /\
             bs = Object_values (stats st) /\ g = global st.
Proof.
  unfold aggregate.
  destruct (forEach news _) as [st|st] eqn:F; simpl; [|discriminate].
  intros [= <- <-]. exists st. split; [|tauto].
  apply (forEach_summarizes news [] _ st (summarizes_start h) F).
Qed.

(** A bucket of the result is the own property of [stats] under its
    name. *)
Lemma bucket_of_summary news st b :
  summarizes news st -> In b (Object_values (stats st)) ->
  own (stats st) (name b) = Some b.
Proof.
  intros Hs Hin. unfold Object_values in Hin.
  apply in_map_iff in Hin. destruct Hin as ([k b'] & <- & Hin). simpl.
  pose proof (In_own _ _ _ (sum_keys _ _ Hs) Hin) as Ho.
  destruct (sum_bucket _ _ Hs _ _ Ho) as (-> & _). exact Ho.
Qed.

(** The account of a pass that returns: every row is in one bucket, or
    counted in [global], or was resolved to a key of [Object.prototype]
    and is in neither. *)
Lemma aggregate_accounting h news bs g :
  fst (aggregate h news) = Returned bs g ->
  total bs + g + Z.of_nat (length (filter isLost news))
  = Z.of_nat (length news).
Proof.
  intros Hr. destruct (aggregate_summarizes _ _ _ _ Hr) as (st & Hs & -> & ->).
  apply (sum_total _ _ Hs).
Qed.

(** The callback changes [stats] and [global] in the same way in every
    realm. *)
Lemma callback_any_realm st1 st2 item :
  stats st1 = stats st2 -> global st1 = global st2 ->
  match callback st1 item, callback st2 item with
  | Normal a, Normal b => stats a = stats b /\ global a = global b
  | TypeError, TypeError => True
  | _, _ => False
  end.
Proof.
  intros Es Eg. unfold callback.
  rewrite (resolve_any_realm (heap st1) (heap st2)).
  destruct (resolve (heap st2) item) as [[n c|]|]; simpl; [| |exact I].
  - rewrite !place_cases, Es, Eg.
    destruct (own (stats st2) n); simpl; [tauto|].
    destruct (isIn n objectPrototypeKeys); simpl; tauto.
  - split; congruence.
Qed.

Lemma forEach_any_realm news : forall st1 st2,
  stats st1 = stats st2 -> global st1 = global st2 ->
  match forEach news st1, forEach news st2 with
  | Done a, Done b => stats a = stats b /\ global a = global b
  | Thrown _, Thrown _ => True
  | _, _ => False
  end.
Proof.
  induction news as [|item news IH]; simpl; intros st1 st2 Es Eg; [tauto|].
  pose proof (callback_any_realm st1 st2 item Es Eg) as Hc.
  destruct (callback st1 item) as [a|], (callback st2 item) as [b|];
    try contradiction; [|exact I].
  now apply IH.
Qed.

Lemma aggregate_any_realm h h' news :
  fst (aggregate h news) = fst (aggregate h' news).
Proof.
  unfold aggregate.
  pose proof (forEach_any_realm news
                {| heap := h; stats := []; global := 0 |}
                {| heap := h'; stats := []; global := 0 |} eq_refl eq_refl)
    as Hf.
  destruct (forEach news _) as [a|a], (forEach news _) as [b|b];
    simpl; try contradiction; [|reflexivity].
  destruct Hf as [-> ->]. reflexivity.
Qed.

(** The pass returns unless a callback throws. *)
Lemma forEach_Done news : forall st,
  Forall (fun item => resolve [] item <> TypeError) news ->
  exists st', forEach news st = Done st'.
Proof.
  induction news as [|item news IH]; simpl; intros st Hn.
  - now exists st.
  - inversion Hn as [|? ? Hitem Hrest]; subst.
    unfold callback. rewrite (resolve_any_realm (heap st) []).
    destruct (resolve [] item) as [[n c|]|]; [| |congruence];
      now apply IH.
Qed.

Lemma aggregate_Returned h news :
  Forall (fun item => resolve [] item <> TypeError) news ->
  exists bs g, fst (aggregate h news) = Returned bs g.
Proof.
  intros Hn. unfold aggregate.
  destruct (forEach_Done news {| heap := h; stats := []; global := 0 |} Hn)
    as (st & ->).
  simpl. eauto.
Qed.

End Aggregate.

(** ** Rows of the examples, resolved *)

Section Examples.

Context `{StringPrototype}.

Lemma normalize_latin1 s :
  isLatin1 s = true -> normalize s = trim (map lower_latin1 s).
Proof. intros Hs. unfold normalize. now rewrite toLowerCase_latin1. Qed.

(** Resolve a row whose parsed location is the Latin-1 string [l]. *)
Ltac resolve_location l :=
  unfold resolve, locate;
  replace (readLocation (tryParse _)) with (Normal (Some l))
    by (vm_compute; reflexivity);
  unfold lookupLocation;
  rewrite normalize_latin1 by (vm_compute; reflexivity);
  vm_compute; reflexivity.

Lemma resolve_constructorRow h :
  resolve h constructorRow =
  Normal (Placed (js "constructor") (BuiltinObject (js "constructor"))).
Proof. rewrite (resolve_any_realm h []). resolve_location (js "constructor"). Qed.

Lemma resolve_europeConstructorRow h :
  resolve h europeConstructorRow =
  Normal (Placed (js "constructor") (BuiltinObject (js "constructor"))).
Proof. rewrite (resolve_any_realm h []). resolve_location (js "constructor"). Qed.

Lemma resolve_protoRow h :
  resolve h protoRow =
  Normal (Placed (js "__proto__") (BuiltinObject (js "__proto__"))).
Proof. rewrite (resolve_any_realm h []). resolve_location (js "__proto__"). Qed.

(** The examples of the specification. *)

Example europe_example h :
  fst (aggregate h [europeRow])
  = Returned [single (js "Europe") (Point 15 50) 3] 0.
Proof. rewrite (aggregate_any_realm h []). vm_compute. reflexivity. Qed.

Example tokyo_example h :
  resolve h tokyoRow
  = Normal (Placed (js "Tokyo, Japan") (Point 139.6917 35.6895)).
Proof. rewrite (resolve_any_realm h []). resolve_location (js "Tokyo, Japan"). Qed.

Example germany_example h :
  resolve h germanyRow
  = Normal (Placed (js "Germany") (Point 10.4515 51.1657)).
Proof.
  rewrite (resolve_any_realm h []).
  resolve_location (js "somewhere in Germany").
Qed.

Example unparsable_example h :
  fst (aggregate h [emptyRow]) = Returned [] 1.
Proof. rewrite (aggregate_any_realm h []). vm_compute. reflexivity. Qed.

(** Details that are valid JSON can make the pass throw: [null], whose
    [location] is read after the [try] block, and a location that is not
    a string. *)
Example null_details_throw h :
  fst (aggregate h [nullRow]) = Threw /\
  fst (aggregate h [europeRow; numberRow]) = Threw.
Proof.
  rewrite !(aggregate_any_realm h []). split; vm_compute; reflexivity.
Qed.

End Examples.

(** ** The count of the rows *)

Section Counting.

Context `{StringPrototype}.

(** C1, at a row the code loses.  The claim is that the counts of the
    buckets and the unresolved count add up to the number of rows.  The
    row whose location is the text [constructor] is resolved through
    [cityCoordinates["constructor"]], which is the inherited
    [Object.prototype.constructor]; [stats["constructor"]] is that same
    function, so no bucket is created and [global] is not touched: the
    one row is counted nowhere. *)
Theorem constructor_row_is_counted_nowhere (h : realm) :
  fst (aggregate h [constructorRow]) = Returned [] 0 /\
  total [] + 0 <> Z.of_nat (length [constructorRow]).
Proof.
  split; [|simpl; lia].
  unfold aggregate. simpl. unfold callback. rewrite resolve_constructorRow.
  rewrite place_cases. reflexivity.
Qed.

(** C6: every bucket of the result has a count of at least 1, and no
    rows give no bucket and an unresolved count of 0. *)
Theorem buckets_are_never_empty (h : realm) (news : list NewsItem)
  (bs : list bucket) (g : Z) :
  fst (aggregate h news) = Returned bs g ->
  Forall (fun b => 1 <= count b) bs /\
  aggregate h [] = (Returned [] 0, h).
Proof.
  intros Hr. split; [|reflexivity].
  destruct (aggregate_summarizes _ _ _ _ Hr) as (st & Hs & -> & ->).
  apply Forall_forall. intros b Hb.
  pose proof (bucket_of_summary _ _ _ Hs Hb) as Ho.
  now destruct (sum_bucket _ _ Hs _ _ Ho) as (_ & H1 & _).
Qed.

(** The [maxThreat] of a bucket of the result is the largest of 0 and the
    threat levels of the rows placed in it, since a bucket is created
    with [maxThreat: 0]; it is their maximum as soon as one of them is
    not negative. *)
Lemma maxThreat_is_maximum_from_zero (h : realm) (news : list NewsItem)
  (bs : list bucket) (g : Z) (b : bucket) :
  fst (aggregate h news) = Returned bs g -> In b bs ->
  threatsOf (name b) news <> [] /\
  maxThreat b = max0 (threatsOf (name b) news) /\
  ((exists x, In x (threatsOf (name b) news) /\ 0 <= x) ->
   isMaximum (maxThreat b) (threatsOf (name b) news)).
Proof.
  intros Hr Hb.
  destruct (aggregate_summarizes _ _ _ _ Hr) as (st & Hs & -> & ->).
  pose proof (bucket_of_summary _ _ _ Hs Hb) as Ho.
  destruct (sum_bucket _ _ Hs _ _ Ho) as (_ & H1 & Hc & Hm & _).
  split; [|split; [exact Hm|]].
  - unfold threatsOf. intros E. apply map_eq_nil in E.
    rewrite E in Hc. simpl in Hc. lia.
  - intros (x & Hx & H0). rewrite Hm.
    set (l := threatsOf (name b) news) in *.
    split; [|apply max0_upper].
    destruct (max0_reached l) as [E | Hin]; [|exact Hin].
    pose proof (max0_upper l) as Hu. rewrite Forall_forall in Hu.
    specialize (Hu x Hx). replace (max0 l) with x by lia. exact Hx.
Qed.

(** C2: over rows whose threat levels are not negative, as the levels 1
    to 5 of the application are, the [maxThreat] of a bucket of the
    result is the maximum of the threat levels of the rows placed in it:
    one of these rows has it and none exceeds it. *)
Theorem maxThreat_is_the_maximum (h : realm) (news : list NewsItem)
  (bs : list bucket) (g : Z) (b : bucket) :
  Forall (fun item => 0 <= threatLevel item) news ->
  fst (aggregate h news) = Returned bs g -> In b bs ->
  isMaximum (maxThreat b) (threatsOf (name b) news).
Proof.
  intros Hrange Hr Hb.
  destruct (maxThreat_is_maximum_from_zero h news bs g b Hr Hb)
    as (Hne & _ & Hmax).
  apply Hmax.
  destruct (threatsOf (name b) news) as [|x l] eqn:E; [contradiction|].
  exists x. split; [now left|].
  assert (Hx : In x (threatsOf (name b) news)) by (rewrite E; now left).
  unfold threatsOf in Hx. apply in_map_iff in Hx.
  destruct Hx as (item & <- & Hin). apply filter_In in Hin.
  rewrite Forall_forall in Hrange. now apply Hrange.
Qed.

(** The value that a pass returns depends on the rows alone.  A pass may
    leave [count] and [maxThreat] on built-ins of the realm; a second
    pass over the same rows in the realm left by the first returns the
    same buckets and the same unresolved count, or throws as the first
    did, and so does a pass in any other realm. *)
Lemma aggregate_twice_same_result (h : realm) (news : list NewsItem) :
  fst (aggregate (snd (aggregate h news)) news) = fst (aggregate h news)
  /\ forall h', fst (aggregate h' news) = fst (aggregate h news).
Proof.
  split; [|intros h']; apply aggregate_any_realm.
Qed.

(** C7, at a row that makes the pass write outside its result.  The row
    whose location is the text [__proto__] is resolved to
    [Object.prototype] itself, and lines 166 and 167 store [count] and
    [maxThreat], both [NaN], on it: a plain object without such a
    property of its own reads [undefined] before the pass and [NaN] after
    it.  The row whose location is [constructor] leaves the two
    properties on the function [Object].  The value returned for the same
    rows is the same afterwards, but the pass is not free of side
    effects. *)
Theorem pass_writes_on_the_builtins (h : realm) :
  fst (aggregate h [protoRow]) = Returned [] 0
  /\ snd (aggregate h [protoRow]) = js "__proto__" :: h
  /\ (forall (A : Type) (o : list (jsstring * A)) (k : jsstring),
        In k [js "count"; js "maxThreat"] -> own o k = None ->
        read [] o k = Undefined
        /\ read (snd (aggregate h [protoRow])) o k = NotANumber)
  /\ snd (aggregate h [constructorRow]) = js "constructor" :: h
  /\ fst (aggregate (snd (aggregate h [protoRow])) [protoRow])
     = fst (aggregate h [protoRow]).
Proof.
  assert (Hp : aggregate h [protoRow]
               = (Returned [] 0, js "__proto__" :: h)).
  { unfold aggregate. simpl. unfold callback. rewrite resolve_protoRow.
    rewrite place_cases. reflexivity. }
  assert (Hc : aggregate h [constructorRow]
               = (Returned [] 0, js "constructor" :: h)).
  { unfold aggregate. simpl. unfold callback. rewrite resolve_constructorRow.
    rewrite place_cases. reflexivity. }
  rewrite Hp, Hc. simpl fst. simpl snd.
  split; [reflexivity|]. split; [reflexivity|]. split.
  - intros A o k Hk Ho. unfold read. rewrite Ho.
    assert (Hin : isIn k [js "count"; js "maxThreat"] = true)
      by now apply isIn_In.
    assert (Hnp : isIn k objectPrototypeKeys = false).
    { destruct Hk as [<- | [<- | []]]; vm_compute; reflexivity. }
    rewrite Hnp, Hin. split; [reflexivity|].
    replace (isIn (js "__proto__") (js "__proto__" :: h)) with true;
      [reflexivity|].
    symmetry. apply isIn_In. now left.
  - split; [reflexivity|].
    rewrite (aggregate_any_realm (js "__proto__" :: h) h), Hp. reflexivity.
Qed.

End Counting.

(** The bound on the threat levels is needed: a bucket whose only row has
    the threat level -1 has [maxThreat] 0, which is not the maximum of
    its rows. *)
Lemma maxThreat_is_not_always_the_maximum :
  ~ (forall (news : list NewsItem) (bs : list bucket) (g : Z) (b : bucket),
       fst (aggregate [] news) = Returned bs g -> In b bs ->
       isMaximum (maxThreat b) (threatsOf (name b) news)).
Proof.
  intros claim.
  destruct (claim [europeCalmRow]
              [single (js "Europe") (Point 15 50) (-1)] 0
              (single (js "Europe") (Point 15 50) (-1)))
    as [Hin _].
  - vm_compute. reflexivity.
  - now left.
  - vm_compute in Hin. destruct Hin as [Hin | []]. discriminate.
Qed.

Lemma buckets_are_never_empty_witness :
  fst (aggregate [] [europeRow; tokyoRow; europeCalmRow; globalRow])
  = Returned [ {| count := 2; maxThreat := 3; name := js "Europe";
                  coordinates := Point 15 50 |};
               single (js "Tokyo, Japan") (Point 139.6917 35.6895) 3 ] 1
  /\ Forall (fun b => 1 <= count b)
       [ {| count := 2; maxThreat := 3; name := js "Europe";
            coordinates := Point 15 50 |};
         single (js "Tokyo, Japan") (Point 139.6917 35.6895) 3 ]
  /\ aggregate [] [] = (Returned [] 0, []).
Proof.
  assert (Hr : fst (aggregate [] [europeRow; tokyoRow; europeCalmRow; globalRow])
    = Returned [ {| count := 2; maxThreat := 3; name := js "Europe";
                    coordinates := Point 15 50 |};
                 single (js "Tokyo, Japan") (Point 139.6917 35.6895) 3 ] 1)
    by (vm_compute; reflexivity).
  split; [exact Hr|].
  exact (buckets_are_never_empty [] _ _ _ Hr).
Defined.

Lemma maxThreat_is_the_maximum_witness :
  Forall (fun item => 0 <= threatLevel item) [europeRow; tokyoRow; globalRow]
  /\ fst (aggregate [] [europeRow; tokyoRow; globalRow])
     = Returned [ single (js "Europe") (Point 15 50) 3;
                  single (js "Tokyo, Japan") (Point 139.6917 35.6895) 3 ] 1
  /\ isMaximum 3 (threatsOf (js "Europe") [europeRow; tokyoRow; globalRow]).
Proof.
  assert (Hrange : Forall (fun item => 0 <= threatLevel item)
                          [europeRow; tokyoRow; globalRow])
    by (repeat constructor; simpl; lia).
  assert (Hr : fst (aggregate [] [europeRow; tokyoRow; globalRow])
               = Returned [ single (js "Europe") (Point 15 50) 3;
                            single (js "Tokyo, Japan")
                                   (Point 139.6917 35.6895) 3 ] 1)
    by (vm_compute; reflexivity).
  split; [exact Hrange|]. split; [exact Hr|].
  exact (maxThreat_is_the_maximum [] _ _ _
           (single (js "Europe") (Point 15 50) 3) Hrange Hr
           (or_introl eq_refl)).
Defined.

(** ** The order of the lookups *)

Lemma find_first {A : Type} (f : A -> bool) (l : list A) (x : A) :
  In x l -> f x = true ->
  exists before first after,
    l = before ++ first :: after /\ find f l = Some first /\
    f first = true /\ Forall (fun y => f y = false) before.
Proof.
  induction l as [|y l IH]; simpl; [tauto|]. intros Hx Hf.
  destruct (f y) eqn:Fy.
  - exists [], y, l. repeat split; [assumption | constructor].
  - destruct Hx as [-> | Hx]; [congruence|].
    destruct (IH Hx Hf) as (before & first & after & -> & Hfind & Hfirst & Hb).
    exists (y :: before), first, after.
    repeat split; try assumption. now constructor.
Qed.

Section Lookups.

Context `{StringPrototype}.

Lemma resolve_city_hit h item location lon lat :
  readLocation (tryParse item) = Normal (Some location) ->
  own cityCoordinates (normalize location) = Some (lon, lat) ->
  resolve h item = Normal (Placed location (Point lon lat)).
Proof.
  intros Hl Ho. unfold resolve, locate. rewrite Hl.
  unfold lookupLocation, read. now rewrite Ho.
Qed.

Lemma country_key_coordinates h c :
  In c (Object_keys countryCoordinates) ->
  exists lon lat, own countryCoordinates c = Some (lon, lat) /\
    truthyCoords (read h countryCoordinates c) = Some (Point lon lat).
Proof.
  intros Hc. destruct (own_key_In _ _ Hc) as ([lon lat] & Ho).
  exists lon, lat. split; [exact Ho|]. unfold read. now rewrite Ho.
Qed.

(** C3: the city table is asked first.  A location whose normal form is a
    key of [cityCoordinates] is placed under the location as written, at
    the pair of the table, whatever the country keys and the region are;
    the country keys are searched when the city lookup gave nothing. *)
Theorem city_match_is_tried_first (h : realm) (item : NewsItem)
  (location : jsstring) :
  readLocation (tryParse item) = Normal (Some location) ->
  (forall lon lat,
     own cityCoordinates (normalize location) = Some (lon, lat) ->
     resolve h item = Normal (Placed location (Point lon lat)))
  /\
  (forall c,
     truthyCoords (read h cityCoordinates (normalize location)) = None ->
     countryMatch (normalize location) = Some c ->
     exists lon lat,
       own countryCoordinates c = Some (lon, lat) /\
       resolve h item = Normal (Placed (capitalize c) (Point lon lat))).
Proof.
  intros Hl. split.
  - intros lon lat. now apply resolve_city_hit.
  - intros c Hcity Hcountry.
    assert (Hc : In c (Object_keys countryCoordinates)).
    { unfold countryMatch in Hcountry. now apply find_some in Hcountry. }
    destruct (country_key_coordinates h c Hc) as (lon & lat & Ho & Ht).
    exists lon, lat. split; [exact Ho|].
    unfold resolve, locate. rewrite Hl. unfold lookupLocation.
    now rewrite Hcity, Hcountry, Ht.
Qed.

(** C4: details that [JSON.parse] rejects, the empty text among them,
    raise nothing: each such row goes on to the region fallback with its
    region (or "Global") and no coordinates, its callback completes in
    every state, and a pass over such rows returns. *)
Theorem malformed_details_fall_back (h : realm) (news : list NewsItem) :
  Forall (fun item => JSON_parse (details item) = None) news ->
  Forall (fun item => forall st,
            resolve (heap st) item
            = Normal (regionFallback (regionOrGlobal item) None)
            /\ exists st', callback st item = Normal st')
         news
  /\ (exists bs g, fst (aggregate h news) = Returned bs g)
  /\ JSON_parse [] = None.
Proof.
  intros Hm.
  assert (Hres : Forall (fun item => forall h',
            resolve h' item = Normal (regionFallback (regionOrGlobal item) None))
         news).
  { eapply Forall_impl; [|exact Hm]. simpl. intros item Hp h'.
    unfold resolve, locate, tryParse. now rewrite Hp. }
  split; [|split; [|reflexivity]].
  - eapply Forall_impl; [|exact Hres]. cbv beta. intros item Hr st.
    split; [apply Hr|]. unfold callback. rewrite Hr.
    destruct (regionFallback _ _); eauto.
  - apply aggregate_Returned.
    eapply Forall_impl; [|exact Hres]. simpl. intros item ->. discriminate.
Qed.

Lemma region_label_not_prototype_key label p :
  own regionCenters label = Some p -> isIn label objectPrototypeKeys = false.
Proof.
  intros Ho. apply own_Some_In in Ho. simpl in Ho.
  repeat (destruct Ho as [[= <- _] | Ho]; [vm_compute; reflexivity|]).
  destruct Ho.
Qed.

Lemma city_hit_not_prototype_key s p :
  own cityCoordinates (normalize s) = Some p ->
  isIn s objectPrototypeKeys = false.
Proof.
  intros Ho. destruct (isIn s objectPrototypeKeys) eqn:E; [|reflexivity].
  apply isIn_In in E. simpl in E.
  repeat (destruct E as [<- | E];
          [rewrite normalize_latin1 in Ho by reflexivity;
           vm_compute in Ho; discriminate|]).
  destruct E.
Qed.

(** How a row comes to be placed under [n] at [c]: by the city lookup,
    by a country key, or by one of the five region labels. *)
Lemma resolve_Placed h item n c :
  resolve h item = Normal (Placed n c) ->
  (readLocation (tryParse item) = Normal (Some n) /\
   truthyCoords (read h cityCoordinates (normalize n)) = Some c)
  \/ (exists k, In k (Object_keys countryCoordinates) /\ n = capitalize k)
  \/ (exists lon lat,
        own regionCenters n = Some (lon, lat) /\ c = Point lon lat).
Proof.
  unfold resolve, locate.
  assert (Hregion : forall label,
            Normal (regionFallback label None) = Normal (Placed n c) ->
            exists lon lat,
              own regionCenters n = Some (lon, lat) /\ c = Point lon lat).
  { intros label. unfold regionFallback, regionCenter.
    destruct (own regionCenters label) as [[lon lat]|] eqn:Ho; simpl;
      [|discriminate].
    intros [= <- <-]. now exists lon, lat. }
  destruct (readLocation (tryParse item)) as [[l|]|]; [| |discriminate].
  - unfold lookupLocation.
    destruct (truthyCoords (read h cityCoordinates (normalize l)))
      as [c0|] eqn:Hcity.
    + simpl. intros [= <- <-]. now left.
    + destruct (countryMatch (normalize l)) as [k|] eqn:Hcountry.
      * assert (Hk : In k (Object_keys countryCoordinates)).
        { unfold countryMatch in Hcountry. now apply find_some in Hcountry. }
        destruct (country_key_coordinates h k Hk) as (lon & lat & _ & ->).
        simpl. intros [= <- _]. right. left. now exists k.
      * intros Hr. right. right. now apply (Hregion (regionOrGlobal item)).
  - intros Hr. right. right. now apply (Hregion (regionOrGlobal item)).
Qed.

(** No row is placed under a name written with digits only: lower-casing
    and trimming leave such a location as it is, and it is no key of the
    city table or of [Object.prototype]. *)
Lemma placed_name_is_no_index h item n c :
  resolve h item = Normal (Placed n c) -> allDigits n = false.
Proof.
  intros Hr. destruct (allDigits n) eqn:Hd; [exfalso|reflexivity].
  destruct (resolve_Placed _ _ _ _ Hr)
    as [[_ Hc] | [(k & Hk & ->) | (lon & lat & Hp & _)]].
  - rewrite normalize_latin1 in Hc by (now apply isLatin1_digits).
    apply andb_true_iff in Hd as Hd'. destruct Hd' as [_ Hall].
    rewrite (lower_digits _ Hall), (trim_digits _ Hd) in Hc.
    unfold read in Hc.
    rewrite (own_allDigits cityCoordinates n eq_refl Hd) in Hc.
    replace (isIn n objectPrototypeKeys) with false in Hc.
    + now destruct (_ && _).
    + symmetry. destruct (isIn n objectPrototypeKeys) eqn:E; [|reflexivity].
      apply isIn_In in E. simpl in E.
      repeat (destruct E as [<- | E]; [discriminate Hd|]). destruct E.
  - simpl in Hk.
    repeat (destruct Hk as [<- | Hk]; [discriminate Hd|]). destruct Hk.
  - apply own_Some_In in Hp. simpl in Hp.
    repeat (destruct Hp as [[= <- _] | Hp]; [discriminate Hd|]). destruct Hp.
Qed.

(** A name under which the city lookup places rows is no country name and
    no region label, so that every row of its bucket has the pair of the
    city table. *)
Lemma city_name_coordinates h s lon lat item c :
  own cityCoordinates (normalize s) = Some (lon, lat) ->
  resolve h item = Normal (Placed s c) ->
  c = Point lon lat.
Proof.
  intros Ho Hr.
  destruct (resolve_Placed _ _ _ _ Hr)
    as [[_ Hc] | [(k & Hk & ->) | (lon' & lat' & Hp & _)]].
  - unfold read in Hc. rewrite Ho in Hc. simpl in Hc. congruence.
  - exfalso. simpl in Hk.
    repeat (destruct Hk as [<- | Hk];
            [rewrite normalize_latin1 in Ho by reflexivity;
             vm_compute in Ho; discriminate|]).
    destruct Hk.
  - exfalso. apply own_Some_In in Hp. simpl in Hp.
    repeat (destruct Hp as [[= <- _] | Hp];
            [rewrite normalize_latin1 in Ho by reflexivity;
             vm_compute in Ho; discriminate|]).
    destruct Hp.
Qed.

Lemma bucket_of_placed_row news st item k c :
  summarizes news st -> In item news ->
  resolve [] item = Normal (Placed k c) ->
  isIn k objectPrototypeKeys = false ->
  exists b, own (stats st) k = Some b /\ describes news k b.
Proof.
  intros Hs Hin Hr Hp.
  destruct (own (stats st) k) as [b|] eqn:Ho.
  - exists b. split; [reflexivity|]. now apply (sum_bucket _ _ Hs).
  - exfalso. pose proof (sum_absent _ _ Hs k Ho) as Hnone.
    assert (Hf : In item (filter (placedIn k) news)).
    { apply filter_In. split; [exact Hin|].
      unfold placedIn. now rewrite Hr, Hp, jsstring_eqb_refl. }
    rewrite Hnone in Hf. destruct Hf.
Qed.

Lemma city_bucket h news bs g item s lon lat :
  fst (aggregate h news) = Returned bs g -> In item news ->
  readLocation (tryParse item) = Normal (Some s) ->
  own cityCoordinates (normalize s) = Some (lon, lat) ->
  exists b, In b bs /\ name b = s /\ coordinates b = Point lon lat.
Proof.
  intros Hr Hin Hl Ho.
  destruct (aggregate_summarizes _ _ _ _ Hr) as (st & Hs & -> & ->).
  pose proof (resolve_city_hit [] _ _ _ _ Hl Ho) as Hres.
  destruct (bucket_of_placed_row _ _ _ _ _ Hs Hin Hres
              (city_hit_not_prototype_key _ _ Ho)) as (b & Hb & D).
  exists b. split; [|split].
  - unfold Object_values. apply in_map_iff. exists (s, b).
    split; [reflexivity | now apply own_Some_In].
  - apply D.
  - destruct D as (_ & _ & _ & _ & _ & first & _ & Hfirst).
    now apply (city_name_coordinates [] s lon lat first).
Qed.

(** A bucket under one of the five region labels holds rows placed by
    their label: no location is normalized from such a label to a key of
    the city table, and no country name is such a label. *)
Lemma region_name_coordinates h n lon lat item c :
  own regionCenters n = Some (lon, lat) ->
  resolve h item = Normal (Placed n c) ->
  c = Point lon lat.
Proof.
  intros Ho Hr.
  destruct (resolve_Placed _ _ _ _ Hr)
    as [[_ Hc] | [(k & Hk & ->) | (lon' & lat' & Hp & ->)]].
  - exfalso. apply own_Some_In in Ho. simpl in Ho.
    repeat (destruct Ho as [[= <- _ _] | Ho];
            [rewrite normalize_latin1 in Hc by reflexivity;
             rewrite (truthyCoords_read h []) in Hc;
             vm_compute in Hc; discriminate|]).
    destruct Ho.
  - exfalso. simpl in Hk.
    repeat (destruct Hk as [<- | Hk]; [vm_compute in Ho; discriminate|]).
    destruct Hk.
  - congruence.
Qed.

(** Lines 144 to 155: a row that reaches line 144 without coordinates is
    placed by its label alone.  One of the five labels of [regionCenters] puts it in
    the bucket of that label, created at the center of the region (15,
    50 for "Europe") or counted up; any other label, "Global" among them,
    leaves [stats] as it is and adds 1 to [global].  In the result of a
    pass, a bucket under one of the five labels is at the center of its
    region. *)
Lemma region_center_or_unresolved (st : state) (item : NewsItem)
  (label : jsstring) :
  locate (heap st) item = Normal (label, None) ->
  Object_keys regionCenters =
    map js ["MENA"; "Europe"; "North America"; "APAC"; "South America"]%string
  /\ own regionCenters (js "Europe") = Some (15, 50)%Q
  /\ own regionCenters (js "Global") = None
  /\ match own regionCenters label with
     | Some (lon, lat) =>
         exists st',
           callback st item = Normal st' /\
           global st' = global st /\
           own (stats st') label =
             Some (match own (stats st) label with
                   | Some b => increment b (threatLevel item)
                   | None => single label (Point lon lat) (threatLevel item)
                   end) /\
           (forall k, k <> label -> own (stats st') k = own (stats st) k)
     | None =>
         callback st item =
         Normal {| heap := heap st; stats := stats st;
                   global := global st + 1 |}
     end
  /\ forall h news bs g b lon lat,
       fst (aggregate h news) = Returned bs g -> In b bs ->
       own regionCenters (name b) = Some (lon, lat) ->
       coordinates b = Point lon lat.
Proof.
  intros Hl. split; [reflexivity|]. split; [reflexivity|].
  split; [reflexivity|]. split.
  - unfold callback, resolve. rewrite Hl. unfold regionFallback, regionCenter.
    destruct (own regionCenters label) as [[lon lat]|] eqn:Ho; simpl;
      [|reflexivity].
    eexists. split; [reflexivity|]. rewrite place_cases.
    rewrite (region_label_not_prototype_key _ _ Ho).
    destruct (own (stats st) label) as [b|] eqn:Os; simpl.
    + split; [reflexivity|]. split.
      * now rewrite own_bump, jsstring_eqb_refl, Os.
      * intros k Hk. rewrite own_bump.
        destruct (label =?s k) eqn:E; [|reflexivity].
        apply jsstring_eqb_eq in E. congruence.
    + split; [reflexivity|]. split.
      * now rewrite own_app_fresh, Os, jsstring_eqb_refl.
      * intros k Hk. rewrite own_app_fresh.
        destruct (own (stats st) k); [reflexivity|].
        destruct (label =?s k) eqn:E; [|reflexivity].
        apply jsstring_eqb_eq in E. congruence.
  - intros h news bs g b lon lat Hr Hb Ho.
    destruct (aggregate_summarizes _ _ _ _ Hr) as (s & Hs & -> & ->).
    pose proof (bucket_of_summary _ _ _ Hs Hb) as Hown.
    destruct (sum_bucket _ _ Hs _ _ Hown)
      as (_ & _ & _ & _ & _ & first & _ & Hfirst).
    now apply (region_name_coordinates [] (name b) lon lat first).
Qed.

(** C5, at rows that miss both tables and still do not reach the region
    centers.  The location [constructor] is no key of [cityCoordinates]
    and contains no key of [countryCoordinates], but line 132 reads the
    inherited [Object.prototype.constructor] as coordinates.  With the
    region "Europe" the row is not put in the bucket "Europe" at (15,
    50), where the same row without a location goes; with no region,
    hence the label "Global", it is not counted as unresolved, as the
    row without a location is.  In both cases the pass returns no bucket
    and an unresolved count of 0. *)
Theorem constructor_location_skips_the_region_fallback (h : realm) :
  (readLocation (tryParse europeConstructorRow)
     = Normal (Some (js "constructor"))
   /\ own cityCoordinates (normalize (js "constructor")) = None
   /\ countryMatch (normalize (js "constructor")) = None)
  /\ (regionOrGlobal europeConstructorRow = js "Europe"
      /\ own regionCenters (js "Europe") = Some (15, 50)%Q
      /\ fst (aggregate h [europeConstructorRow]) = Returned [] 0
      /\ fst (aggregate h [europeRow])
         = Returned [single (js "Europe") (Point 15 50) 3] 0)
  /\ (readLocation (tryParse constructorRow)
       = Normal (Some (js "constructor"))
      /\ regionOrGlobal constructorRow = js "Global"
      /\ own regionCenters (js "Global") = None
      /\ fst (aggregate h [constructorRow]) = Returned [] 0
      /\ fst (aggregate h [globalRow]) = Returned [] 1).
Proof.
  assert (Hn : normalize (js "constructor") = js "constructor").
  { rewrite normalize_latin1 by (vm_compute; reflexivity).
    vm_compute. reflexivity. }
  assert (Hlost : forall item,
            resolve h item = Normal (Placed (js "constructor")
                                       (BuiltinObject (js "constructor"))) ->
            fst (aggregate h [item]) = Returned [] 0).
  { intros item Hr. unfold aggregate, forEach, callback. cbn [heap].
    rewrite Hr. rewrite place_cases. reflexivity. }
  split; [|split].
  - split; [vm_compute; reflexivity|]. rewrite Hn.
    split; vm_compute; reflexivity.
  - split; [reflexivity|]. split; [reflexivity|]. split.
    + apply Hlost, resolve_europeConstructorRow.
    + rewrite (aggregate_any_realm h []). vm_compute. reflexivity.
  - split; [vm_compute; reflexivity|]. split; [reflexivity|].
    split; [reflexivity|]. split.
    + apply Hlost, resolve_constructorRow.
    + rewrite (aggregate_any_realm h []). vm_compute. reflexivity.
Qed.

(** C10: two locations that differ in letter case only and are keys of
    [cityCoordinates] once normalized are not merged.  The two rows alone
    give two buckets, one under each spelling, with the same pair of the
    table; among any rows, the result has a bucket under each spelling,
    both at that pair. *)
Theorem case_variants_get_separate_buckets (h : realm)
  (item1 item2 : NewsItem) (s1 s2 : jsstring) (lon lat : Q) :
  readLocation (tryParse item1) = Normal (Some s1) ->
  readLocation (tryParse item2) = Normal (Some s2) ->
  s1 <> s2 ->
  toLowerCase s1 = toLowerCase s2 ->
  own cityCoordinates (normalize s1) = Some (lon, lat) ->
  fst (aggregate h [item1; item2]) =
    Returned [ single s1 (Point lon lat) (threatLevel item1);
               single s2 (Point lon lat) (threatLevel item2) ] 0
  /\
  forall news bs g,
    In item1 news -> In item2 news ->
    fst (aggregate h news) = Returned bs g ->
    exists b1 b2,
      In b1 bs /\ In b2 bs /\ b1 <> b2 /\
      name b1 = s1 /\ name b2 = s2 /\
      coordinates b1 = Point lon lat /\ coordinates b2 = Point lon lat.
Proof.
  intros Hl1 Hl2 Hne Hcase Ho1.
  assert (Ho2 : own cityCoordinates (normalize s2) = Some (lon, lat))
    by (unfold normalize in *; now rewrite <- Hcase).
  split.
  - unfold aggregate. simpl. unfold callback.
    rewrite (resolve_city_hit _ _ _ _ _ Hl1 Ho1), place_cases. simpl.
    rewrite (city_hit_not_prototype_key _ _ Ho1).
    rewrite (resolve_city_hit _ _ _ _ _ Hl2 Ho2), place_cases. simpl.
    apply jsstring_eqb_neq in Hne. rewrite Hne.
    rewrite (city_hit_not_prototype_key _ _ Ho2). reflexivity.
  - intros news bs g Hin1 Hin2 Hr.
    destruct (city_bucket _ _ _ _ _ _ _ _ Hr Hin1 Hl1 Ho1)
      as (b1 & Hb1 & Hn1 & Hc1).
    destruct (city_bucket _ _ _ _ _ _ _ _ Hr Hin2 Hl2 Ho2)
      as (b2 & Hb2 & Hn2 & Hc2).
    exists b1, b2. repeat split; try assumption. congruence.
Qed.

End Lookups.

(** C8: when several keys of [countryCoordinates] occur in the location,
    the one taken is the first in the order of the table. *)
Theorem country_match_is_first_in_table_order (loc c : jsstring) :
  In c (Object_keys countryCoordinates) -> includes loc c = true ->
  Object_keys countryCoordinates =
    map js ["usa"; "canada"; "uk"; "france"; "germany"; "australia";
            "japan"; "china"; "india"; "brazil"; "south africa"]%string
  /\ exists before first after,
       Object_keys countryCoordinates = before ++ first :: after /\
       countryMatch loc = Some first /\
       includes loc first = true /\
       Forall (fun k => includes loc k = false) before.
Proof.
  intros Hc Hi. split; [reflexivity|].
  exact (find_first (fun k => includes loc k) _ c Hc Hi).
Qed.

(** ** The region filter *)

Lemma startsWith_refl s : startsWith s s = true.
Proof. induction s as [|c s IH]; simpl; [reflexivity|]. now rewrite N.eqb_refl. Qed.

Lemma includes_refl s : includes s s = true.
Proof. destruct s; simpl; [reflexivity|]. now rewrite N.eqb_refl, startsWith_refl. Qed.

Section RegionFilterProperties.

Context `{StringPrototype}.

(** C9, amended: "Middle East" is filtered as "MENA" is, by the keywords
    of "MENA".  A requested region that is no key of [regionMappings] is
    compared with the stored region as a whole, without regard to letter
    case, and not searched in it: the rows accepted have a stored region
    that equals it up to letter case, which then also contains it.
    Excepted are the names that [regionMappings] inherits from
    [Object.prototype]: for them [keywords] is a built-in without a
    [map] method, and the call throws. *)
Theorem region_filter_alias_and_equality (h : realm) (v : jsstring) :
  nonEmpty v = true -> v <> js "Middle East" ->
  own regionMappings v = None ->
  regionFilter h (Some (js "Middle East")) = regionFilter h (Some (js "MENA"))
  /\ regionFilter h (Some (js "MENA")) =
     Normal (OrContains
               (map js ["mena"; "middle east"; "uae"; "saudi"; "qatar";
                        "dubai"; "abu dhabi"; "israel"; "turkey";
                        "egypt"]%string))
  /\ regionFilter h (Some v)
     = (if isIn v objectPrototypeKeys then TypeError
        else Normal (RegionEquals v))
  /\ (forall stored,
        matchesRegion (RegionEquals v) stored = true <->
        exists r, stored = Some r /\ toLowerCase r = toLowerCase v)
  /\ (forall r,
        matchesRegion (RegionEquals v) (Some r) = true ->
        containsInsensitive r v = true).
Proof.
  intros Hv Hne Ho. split; [reflexivity|]. split; [reflexivity|].
  split; [|split].
  - unfold regionFilter. rewrite Hv.
    apply jsstring_eqb_neq in Hne. rewrite Hne.
    unfold read. rewrite Ho.
    destruct (isIn v objectPrototypeKeys); [reflexivity|].
    now destruct (_ && _).
  - intros [r|]; simpl; unfold equalsInsensitive.
    + rewrite jsstring_eqb_eq. split.
      * intros E. now exists r.
      * now intros (r' & [= <-] & E).
    + split; [discriminate | now intros (r & [=] & _)].
  - intros r. simpl. unfold equalsInsensitive, containsInsensitive.
    rewrite jsstring_eqb_eq. intros ->. apply includes_refl.
Qed.

End RegionFilterProperties.

(** C9, as stated, fails: the requested region "Africa" has no keywords,
    the stored region "South Africa" contains it, and the filter built
    for it does not accept that row. *)
Lemma region_fallback_is_not_a_substring_match :
  ~ (forall (v stored : jsstring) (w : regionWhere),
       nonEmpty v = true -> own regionMappings v = None ->
       regionFilter [] (Some v) = Normal w ->
       (matchesRegion w (Some stored) = true <->
        containsInsensitive stored v = true)).
Proof.
  intros claim.
  destruct (claim (js "Africa") (js "South Africa")
              (RegionEquals (js "Africa")) eq_refl eq_refl eq_refl)
    as [_ Hback].
  discriminate (Hback eq_refl).
Qed.

(** ** The properties at the rows of the examples *)

Lemma city_match_is_tried_first_witness :
  (readLocation (tryParse tokyoRow) = Normal (Some (js "Tokyo, Japan")) /\
   countryMatch (normalize (js "Tokyo, Japan")) = Some (js "japan") /\
   resolve [] tokyoRow =
     Normal (Placed (js "Tokyo, Japan") (Point 139.6917 35.6895)))
  /\
  (readLocation (tryParse germanyRow)
     = Normal (Some (js "somewhere in Germany")) /\
   exists lon lat,
     own countryCoordinates (js "germany") = Some (lon, lat) /\
     resolve [] germanyRow = Normal (Placed (js "Germany") (Point lon lat))).
Proof.
  assert (Ht : readLocation (tryParse tokyoRow)
               = Normal (Some (js "Tokyo, Japan")))
    by (vm_compute; reflexivity).
  assert (Hg : readLocation (tryParse germanyRow)
               = Normal (Some (js "somewhere in Germany")))
    by (vm_compute; reflexivity).
  split.
  - split; [exact Ht|]. split; [vm_compute; reflexivity|].
    apply (proj1 (city_match_is_tried_first [] tokyoRow _ Ht)).
    vm_compute. reflexivity.
  - split; [exact Hg|].
    apply (proj2 (city_match_is_tried_first [] germanyRow _ Hg)
             (js "germany")); vm_compute; reflexivity.
Defined.

Lemma malformed_details_fall_back_witness :
  Forall (fun item => JSON_parse (details item) = None)
         [malformedRow; emptyRow]
  /\ Forall (fun item => forall st,
               resolve (heap st) item
               = Normal (regionFallback (regionOrGlobal item) None)
               /\ exists st', callback st item = Normal st')
            [malformedRow; emptyRow]
  /\ (exists bs g, fst (aggregate [] [malformedRow; emptyRow]) = Returned bs g)
  /\ JSON_parse [] = None.
Proof.
  assert (Hm : Forall (fun item => JSON_parse (details item) = None)
                      [malformedRow; emptyRow])
    by (repeat constructor; vm_compute; reflexivity).
  split; [exact Hm|].
  exact (malformed_details_fall_back [] _ Hm).
Defined.

Lemma region_center_or_unresolved_witness :
  (locate [] europeRow = Normal (js "Europe", None) /\
   exists st',
     callback (start []) europeRow = Normal st' /\
     global st' = 0 /\
     own (stats st') (js "Europe")
     = Some (single (js "Europe") (Point 15 50) 3))
  /\
  (locate [] atlantisRow = Normal (js "APAC", None) /\
   exists st',
     callback (start []) atlantisRow = Normal st' /\
     global st' = 0 /\
     own (stats st') (js "APAC")
     = Some (single (js "APAC") (Point 100 20) 3))
  /\
  (locate [] globalRow = Normal (js "Global", None) /\
   callback (start []) globalRow
   = Normal {| heap := []; stats := []; global := 0 + 1 |}).
Proof.
  assert (He : locate [] europeRow = Normal (js "Europe", None))
    by (vm_compute; reflexivity).
  assert (Ha : locate [] atlantisRow = Normal (js "APAC", None))
    by (vm_compute; reflexivity).
  assert (Hg : locate [] globalRow = Normal (js "Global", None))
    by (vm_compute; reflexivity).
  split; [|split].
  - split; [exact He|].
    destruct (region_center_or_unresolved (start []) europeRow _ He)
      as (_ & _ & _ & (st' & Hc & Hglobal & Hown & _) & _).
    exists st'. split; [exact Hc|]. split; [exact Hglobal | exact Hown].
  - split; [exact Ha|].
    destruct (region_center_or_unresolved (start []) atlantisRow _ Ha)
      as (_ & _ & _ & (st' & Hc & Hglobal & Hown & _) & _).
    exists st'. split; [exact Hc|]. split; [exact Hglobal | exact Hown].
  - split; [exact Hg|].
    destruct (region_center_or_unresolved (start []) globalRow _ Hg)
      as (_ & _ & _ & Hc & _).
    exact Hc.
Defined.

Lemma country_match_is_first_in_table_order_witness :
  In (js "canada") (Object_keys countryCoordinates) /\
  includes (js "canada and usa") (js "canada") = true /\
  exists before first after,
    Object_keys countryCoordinates = before ++ first :: after /\
    countryMatch (js "canada and usa") = Some first /\
    includes (js "canada and usa") first = true /\
    Forall (fun k => includes (js "canada and usa") k = false) before.
Proof.
  assert (Hc : In (js "canada") (Object_keys countryCoordinates))
    by (right; left; reflexivity).
  assert (Hi : includes (js "canada and usa") (js "canada") = true)
    by (vm_compute; reflexivity).
  split; [exact Hc|]. split; [exact Hi|].
  exact (proj2 (country_match_is_first_in_table_order _ _ Hc Hi)).
Defined.

Lemma region_filter_alias_and_equality_witness :
  (nonEmpty (js "Africa") = true /\
   own regionMappings (js "Africa") = None /\
   regionFilter [] (Some (js "Africa")) = Normal (RegionEquals (js "Africa")) /\
   regionFilter [] (Some (js "Middle East"))
   = regionFilter [] (Some (js "MENA")))
  /\
  (nonEmpty (js "constructor") = true /\
   own regionMappings (js "constructor") = None /\
   regionFilter [] (Some (js "constructor")) = TypeError).
Proof.
  assert (Hne : js "Africa" <> js "Middle East") by discriminate.
  assert (Hnc : js "constructor" <> js "Middle East") by discriminate.
  split.
  - split; [reflexivity|]. split; [reflexivity|].
    destruct (region_filter_alias_and_equality [] (js "Africa")
                eq_refl Hne eq_refl) as (Ha & _ & Hf & _).
    split; [exact Hf | exact Ha].
  - split; [reflexivity|]. split; [reflexivity|].
    destruct (region_filter_alias_and_equality [] (js "constructor")
                eq_refl Hnc eq_refl) as (_ & _ & Hf & _).
    exact Hf.
Defined.

Lemma case_variants_get_separate_buckets_witness :
  readLocation (tryParse tokyoRow) = Normal (Some (js "Tokyo, Japan")) /\
  readLocation (tryParse tokyoUpperRow) = Normal (Some (js "TOKYO, JAPAN")) /\
  js "Tokyo, Japan" <> js "TOKYO, JAPAN" /\
  toLowerCase (js "Tokyo, Japan") = toLowerCase (js "TOKYO, JAPAN") /\
  own cityCoordinates (normalize (js "Tokyo, Japan"))
  = Some (139.6917, 35.6895)%Q /\
  fst (aggregate [] [tokyoRow; tokyoUpperRow]) =
    Returned [ single (js "Tokyo, Japan") (Point 139.6917 35.6895) 3;
               single (js "TOKYO, JAPAN") (Point 139.6917 35.6895) 2 ] 0.
Proof.
  assert (H1 : readLocation (tryParse tokyoRow)
               = Normal (Some (js "Tokyo, Japan")))
    by (vm_compute; reflexivity).
  assert (H2 : readLocation (tryParse tokyoUpperRow)
               = Normal (Some (js "TOKYO, JAPAN")))
    by (vm_compute; reflexivity).
  assert (Hne : js "Tokyo, Japan" <> js "TOKYO, JAPAN") by discriminate.
  assert (Hcase : toLowerCase (js "Tokyo, Japan")
                  = toLowerCase (js "TOKYO, JAPAN"))
    by (vm_compute; reflexivity).
  assert (Ho : own cityCoordinates (normalize (js "Tokyo, Japan"))
               = Some (139.6917, 35.6895)%Q)
    by (vm_compute; reflexivity).
  repeat (split; [assumption|]).
  exact (proj1 (case_variants_get_separate_buckets [] tokyoRow tokyoUpperRow
                  _ _ _ _ H1 H2 Hne Hcase Ho)).
Defined.

(** * Further properties *)

(** ** The account of a pass *)

Section Account.

Context `{StringPrototype}.

(** The rows that reach no bucket and no counter are those whose
    location is one of two keys of [Object.prototype] written in lower
    case. *)
Lemma isLost_locations item :
  isLost item = true <->
  readLocation (tryParse item) = Normal (Some (js "constructor")) \/
  readLocation (tryParse item) = Normal (Some (js "__proto__")).
Proof.
  unfold isLost. split.
  - destruct (resolve [] item) as [[n c|]|] eqn:Hr; try discriminate.
    intros Hp.
    destruct (resolve_Placed _ _ _ _ Hr)
      as [[Hl Hc] | [(k & Hk & ->) | (lon & lat & Ho & _)]].
    + apply isIn_In in Hp. simpl in Hp.
      repeat (destruct Hp as [<- | Hp];
              [first [ now left | now right
                     | rewrite normalize_latin1 in Hc by reflexivity;
                       vm_compute in Hc; discriminate ]|]).
      destruct Hp.
    + exfalso. simpl in Hk.
      repeat (destruct Hk as [<- | Hk]; [vm_compute in Hp; discriminate|]).
      destruct Hk.
    + rewrite (region_label_not_prototype_key _ _ Ho) in Hp. discriminate.
  - intros [Hl | Hl]; unfold resolve, locate; rewrite Hl;
      unfold lookupLocation; rewrite normalize_latin1 by reflexivity;
      vm_compute; reflexivity.
Qed.

(** X1: in the result of a pass, the counts of the buckets, the
    unresolved count and the number of rows whose location is
    "constructor" or "__proto__" add up to the number of rows; the
    unresolved count is the number of rows without coordinates and
    without a region label. *)
Theorem rows_are_counted_except_two_locations (h : realm)
  (news : list NewsItem) (bs : list bucket) (g : Z) :
  fst (aggregate h news) = Returned bs g ->
  total bs + g + Z.of_nat (length (filter isLost news))
    = Z.of_nat (length news)
  /\ g = Z.of_nat (length (filter isUnplaced news))
  /\ (forall item,
        isLost item = true <->
        readLocation (tryParse item) = Normal (Some (js "constructor")) \/
        readLocation (tryParse item) = Normal (Some (js "__proto__")))
  /\ (Forall (fun item =>
                readLocation (tryParse item)
                  <> Normal (Some (js "constructor")) /\
                readLocation (tryParse item)
                  <> Normal (Some (js "__proto__"))) news ->
      total bs + g = Z.of_nat (length news)).
Proof.
  intros Hr.
  destruct (aggregate_summarizes _ _ _ _ Hr) as (st & Hs & -> & ->).
  pose proof (sum_total _ _ Hs) as Ht.
  split; [exact Ht|]. split; [apply (sum_global _ _ Hs)|].
  split; [apply isLost_locations|].
  intros Hnone.
  assert (E : filter isLost news = []).
  { clear Ht Hs Hr. induction news as [|item news IH]; [reflexivity|].
    inversion Hnone as [|? ? [H1 H2] Hrest]; subst. simpl.
    destruct (isLost item) eqn:Hl; [|now apply IH].
    apply isLost_locations in Hl. tauto. }
  rewrite E in Ht. simpl in Ht. lia.
Qed.

End Account.

Lemma rows_are_counted_except_two_locations_witness :
  fst (aggregate [] [europeRow; constructorRow; globalRow; tokyoRow])
  = Returned [ single (js "Europe") (Point 15 50) 3;
               single (js "Tokyo, Japan") (Point 139.6917 35.6895) 3 ] 1
  /\ 2 + 1 + Z.of_nat (length (filter isLost
                  [europeRow; constructorRow; globalRow; tokyoRow])) = 4
  /\ 1 = Z.of_nat (length (filter isUnplaced
                  [europeRow; constructorRow; globalRow; tokyoRow])).
Proof.
  assert (Hr : fst (aggregate [] [europeRow; constructorRow; globalRow; tokyoRow])
    = Returned [ single (js "Europe") (Point 15 50) 3;
                 single (js "Tokyo, Japan") (Point 139.6917 35.6895) 3 ] 1)
    by (vm_compute; reflexivity).
  split; [exact Hr|].
  destruct (rows_are_counted_except_two_locations [] _ _ _ Hr)
    as (Ht & Hg & _).
  split; [exact Ht | exact Hg].
Defined.

(** ** When the pass throws *)

Lemma readLocation_TypeError parsed :
  readLocation parsed = TypeError <->
  parsed = JNull \/
  exists v, getProperty parsed (js "location") = Some v /\
            truthy v = true /\ forall s, v <> JString s.
Proof.
  split.
  - destruct parsed; simpl; try (now left); try discriminate;
      destruct (ownProperty props (js "location")) as [v|] eqn:Hp;
      try discriminate.
    destruct v; try discriminate;
      intros Ht; right;
      match goal with
      | |- exists v, Some ?w = Some v /\ _ => exists w
      end;
      (split; [reflexivity|]); (split; [|discriminate]);
      simpl in *;
      match type of Ht with
      | (if ?b then _ else _) = _ => destruct b; [reflexivity|discriminate]
      | _ => reflexivity
      end.
  - intros [-> | (v & Hp & Ht & Hs)]; [reflexivity|].
    destruct parsed; simpl in *; try discriminate.
    rewrite Hp.
    destruct v; simpl in *; try congruence; try (now rewrite Ht).
Qed.

Lemma Exists_iff {A : Type} (P Q : A -> Prop) (l : list A) :
  (forall x, P x <-> Q x) -> (Exists P l <-> Exists Q l).
Proof.
  intros Hpq. rewrite !Exists_exists.
  split; intros (x & Hx & Hp); exists x; (split; [exact Hx|]);
    now apply Hpq.
Qed.

Section Throwing.

Context `{StringPrototype}.

Lemma resolve_TypeError h item :
  resolve h item = TypeError <-> readLocation (tryParse item) = TypeError.
Proof.
  unfold resolve, locate.
  destruct (readLocation (tryParse item)) as [[l|]|].
  - destruct (lookupLocation _ _ _). split; discriminate.
  - split; discriminate.
  - tauto.
Qed.

Lemma forEach_Thrown news : forall st,
  (exists st', forEach news st = Thrown st') <->
  Exists (fun item => readLocation (tryParse item) = TypeError) news.
Proof.
  induction news as [|item news IH]; simpl; intros st.
  - split; [intros (st' & [=]) | intros E; inversion E].
  - unfold callback.
    destruct (resolve (heap st) item) as [r|] eqn:Hr.
    + assert (Hn : readLocation (tryParse item) <> TypeError).
      { intros E. apply resolve_TypeError with (h := heap st) in E.
        congruence. }
      destruct r as [n c|]; rewrite IH; (split; [now right|]);
        intros E; inversion E; subst; tauto.
    + split; [|now exists st].
      intros _. left. now apply (resolve_TypeError (heap st)).
Qed.

(** X2: the pass throws exactly when some row has details that parse to
    [null], or a truthy location that is not a string; every other pass
    returns. *)
Theorem pass_throws_iff (h : realm) (news : list NewsItem) :
  (fst (aggregate h news) = Threw <->
   Exists (fun item =>
             tryParse item = JNull \/
             exists v, getProperty (tryParse item) (js "location") = Some v /\
                       truthy v = true /\ forall s, v <> JString s) news)
  /\ (fst (aggregate h news) <> Threw ->
      exists bs g, fst (aggregate h news) = Returned bs g)
  /\ (forall item, tryParse item = JNull <->
                   JSON_parse (details item) = Some JNull).
Proof.
  split; [|split].
  - rewrite <- (Exists_iff _ _ news
                   (fun item => readLocation_TypeError (tryParse item))).
    rewrite <- (forEach_Thrown news (start h)).
    unfold aggregate, start.
    destruct (forEach news _) as [st|st]; simpl.
    + split; [discriminate | intros (st' & [=])].
    + split; [now exists st | reflexivity].
  - unfold aggregate. destruct (forEach news _); simpl; [eauto | congruence].
  - intros item. unfold tryParse.
    destruct (JSON_parse (details item)) as [v|]; [|split; discriminate].
    destruct v; simpl; try (split; [discriminate | intros [=]]);
      [tauto|].
    destruct (ownProperty props (js "details")) as [d|];
      [|split; [discriminate | intros [=]]].
    destruct (truthy d && _) eqn:E; [|split; [discriminate | intros [=]]].
    split; [|intros [=]]. intros ->. discriminate E.
Qed.

End Throwing.

(** ** Buckets and names *)


Lemma filter_Permutation {A : Type} (f : A -> bool) (l l' : list A) :
  Permutation l l' -> Permutation (filter f l) (filter f l').
Proof.
  induction 1 as [|x l l' _ IH|x y l|l l' l'' _ IH1 _ IH2]; simpl.
  - constructor.
  - destruct (f x); [now constructor | exact IH].
  - destruct (f x), (f y); try reflexivity. apply perm_swap.
  - now transitivity (filter f l').
Qed.

Lemma max0_Permutation (l l' : list Z) :
  Permutation l l' -> max0 l = max0 l'.
Proof.
  induction 1 as [|x l l' _ IH|x y l|l l' l'' _ IH1 _ IH2]; simpl; lia.
Qed.

Lemma bucket_eq (b b' : bucket) :
  count b = count b' -> maxThreat b = maxThreat b' -> name b = name b' ->
  coordinates b = coordinates b' -> b = b'.
Proof. destruct b, b'. simpl. now intros -> -> -> ->. Qed.

Section Names.

Context `{StringPrototype}.

(** As [resolve_Placed], with the pair of the country. *)
Lemma resolve_Placed_coords h item n c :
  resolve h item = Normal (Placed n c) ->
  (readLocation (tryParse item) = Normal (Some n) /\
   truthyCoords (read h cityCoordinates (normalize n)) = Some c)
  \/ (exists k lon lat,
        In k (Object_keys countryCoordinates) /\ n = capitalize k /\
        own countryCoordinates k = Some (lon, lat) /\ c = Point lon lat)
  \/ (exists lon lat,
        own regionCenters n = Some (lon, lat) /\ c = Point lon lat).
Proof.
  unfold resolve, locate.
  assert (Hregion : forall label,
            Normal (regionFallback label None) = Normal (Placed n c) ->
            exists lon lat,
              own regionCenters n = Some (lon, lat) /\ c = Point lon lat).
  { intros label. unfold regionFallback, regionCenter.
    destruct (own regionCenters label) as [[lon lat]|] eqn:Ho; simpl;
      [|discriminate].
    intros [= <- <-]. now exists lon, lat. }
  destruct (readLocation (tryParse item)) as [[l|]|]; [| |discriminate].
  - unfold lookupLocation.
    destruct (truthyCoords (read h cityCoordinates (normalize l)))
      as [c0|] eqn:Hcity.
    + simpl. intros [= <- <-]. now left.
    + destruct (countryMatch (normalize l)) as [k|] eqn:Hcountry.
      * assert (Hk : In k (Object_keys countryCoordinates)).
        { unfold countryMatch in Hcountry. now apply find_some in Hcountry. }
        destruct (country_key_coordinates h k Hk) as (lon & lat & Ho & ->).
        simpl. intros [= <- <-]. right. left. now exists k, lon, lat.
      * intros Hr. right. right. now apply (Hregion (regionOrGlobal item)).
  - intros Hr. right. right. now apply (Hregion (regionOrGlobal item)).
Qed.

(** The name of a bucket tells how its rows were placed, and so where:
    no capitalized country key and no region label is normalized to a key
    of the city table or of [Object.prototype], and no capitalized country
    key is a region label. *)
Lemma name_determines_coords item1 item2 n c1 c2 :
  resolve [] item1 = Normal (Placed n c1) ->
  resolve [] item2 = Normal (Placed n c2) ->
  c1 = c2.
Proof.
  intros H1 H2.
  destruct (resolve_Placed_coords _ _ _ _ H1)
    as [[_ C1] | [(k1 & lon1 & lat1 & K1 & E1 & O1 & ->)
                 | (lon1 & lat1 & R1 & ->)]];
  destruct (resolve_Placed_coords _ _ _ _ H2)
    as [[_ C2] | [(k2 & lon2 & lat2 & K2 & E2 & O2 & ->)
                 | (lon2 & lat2 & R2 & ->)]].
  - congruence.
  - exfalso. subst n. simpl in K2.
    repeat (destruct K2 as [<- | K2];
            [rewrite normalize_latin1 in C1 by reflexivity;
             vm_compute in C1; discriminate|]).
    destruct K2.
  - exfalso. apply own_Some_In in R2. simpl in R2.
    repeat (destruct R2 as [[= <- _ _] | R2];
            [rewrite normalize_latin1 in C1 by reflexivity;
             vm_compute in C1; discriminate|]).
    destruct R2.
  - exfalso. subst n. simpl in K1.
    repeat (destruct K1 as [<- | K1];
            [rewrite normalize_latin1 in C2 by reflexivity;
             vm_compute in C2; discriminate|]).
    destruct K1.
  - subst n. simpl in K1.
    repeat (destruct K1 as [<- | K1];
            [simpl in K2;
             repeat (destruct K2 as [<- | K2];
                     [first [ discriminate E2 | congruence ]|]);
             destruct K2|]).
    destruct K1.
  - exfalso. subst n. simpl in K1.
    repeat (destruct K1 as [<- | K1]; [vm_compute in R2; discriminate|]).
    destruct K1.
  - exfalso. apply own_Some_In in R1. simpl in R1.
    repeat (destruct R1 as [[= <- _ _] | R1];
            [rewrite normalize_latin1 in C2 by reflexivity;
             vm_compute in C2; discriminate|]).
    destruct R1.
  - exfalso. subst n. simpl in K2.
    repeat (destruct K2 as [<- | K2]; [vm_compute in R1; discriminate|]).
    destruct K2.
  - congruence.
Qed.

Lemma names_of_values st news :
  summarizes news st ->
  map name (Object_values (stats st)) = Object_keys (stats st).
Proof.
  intros Hs. unfold Object_values, Object_keys. rewrite map_map.
  apply map_ext_in. intros [k b] Hin. simpl.
  pose proof (In_own _ _ _ (sum_keys _ _ Hs) Hin) as Ho.
  now destruct (sum_bucket _ _ Hs _ _ Ho) as (-> & _).
Qed.

(** X3: the buckets of a result have distinct names; the count of a
    bucket is the number of rows placed under its name; and a row placed
    under a name that [Object.prototype] does not have is in the bucket
    of that name, which lies where the row was placed. *)
Theorem buckets_are_keyed_by_name (h : realm) (news : list NewsItem)
  (bs : list bucket) (g : Z) :
  fst (aggregate h news) = Returned bs g ->
  NoDup (map name bs)
  /\ (forall b, In b bs ->
        count b = Z.of_nat (length (filter (placedIn (name b)) news)))
  /\ (forall item k c,
        In item news -> resolve [] item = Normal (Placed k c) ->
        isIn k objectPrototypeKeys = false ->
        exists b, In b bs /\ name b = k /\ coordinates b = c).
Proof.
  intros Hr.
  destruct (aggregate_summarizes _ _ _ _ Hr) as (st & Hs & -> & ->).
  split; [|split].
  - rewrite (names_of_values _ _ Hs). apply (sum_keys _ _ Hs).
  - intros b Hb. pose proof (bucket_of_summary _ _ _ Hs Hb) as Ho.
    apply (sum_bucket _ _ Hs _ _ Ho).
  - intros item k c Hin Hres Hp.
    destruct (bucket_of_placed_row _ _ _ _ _ Hs Hin Hres Hp) as (b & Ho & D).
    exists b. split; [|split].
    + unfold Object_values. apply in_map_iff. exists (k, b).
      split; [reflexivity | now apply own_Some_In].
    + apply D.
    + destruct D as (_ & _ & _ & _ & _ & first & _ & Hfirst).
      now apply (name_determines_coords first item k).
Qed.

Lemma bucket_in_permuted news news' st st' k b :
  Permutation news news' ->
  summarizes news st -> summarizes news' st' ->
  own (stats st) k = Some b -> own (stats st') k = Some b.
Proof.
  intros Hp Hs Hs' Ho.
  destruct (sum_bucket _ _ Hs _ _ Ho)
    as (Hn & H1 & Hc & Hm & Hk & first & Hfirst & Rfirst).
  pose proof (filter_Permutation (placedIn k) _ _ Hp) as Hpf.
  destruct (own (stats st') k) as [b'|] eqn:Ho'.
  - f_equal.
    destruct (sum_bucket _ _ Hs' _ _ Ho')
      as (Hn' & _ & Hc' & Hm' & _ & first' & _ & Rfirst').
    apply bucket_eq.
    + rewrite Hc, Hc'. f_equal. symmetry. now apply Permutation_length.
    + rewrite Hm, Hm'. symmetry. apply max0_Permutation.
      unfold threatsOf. now apply Permutation_map.
    + congruence.
    + now apply (name_determines_coords first' first k).
  - exfalso. pose proof (sum_absent _ _ Hs' k Ho') as Hnone.
    rewrite Hnone in Hpf. apply Permutation_sym, Permutation_nil in Hpf.
    rewrite Hpf in Hc. simpl in Hc. lia.
Qed.

(** X4: the order of the rows only shows in the order of the buckets.
    Over the same rows in another order the pass returns the same
    buckets, up to their order, and the same unresolved count, or throws
    as well. *)
Theorem row_order_changes_bucket_order_only (h : realm)
  (news news' : list NewsItem) :
  Permutation news news' ->
  match fst (aggregate h news), fst (aggregate h news') with
  | Returned bs g, Returned bs' g' => Permutation bs bs' /\ g = g'
  | Threw, Threw => True
  | _, _ => False
  end.
Proof.
  intros Hp.
  assert (Hthrow : forall l l', Permutation l l' ->
            fst (aggregate h l) = Threw -> fst (aggregate h l') = Threw).
  { intros l l' Hl. unfold aggregate.
    destruct (forEach l (start h)) as [st|st] eqn:F; unfold start in F;
      rewrite F; simpl; [discriminate|]. intros _.
    assert (E : exists st', forEach l (start h) = Thrown st')
      by (now exists st).
    apply forEach_Thrown in E.
    assert (E' : Exists (fun item => readLocation (tryParse item) = TypeError) l').
    { apply Exists_exists in E. destruct E as (x & Hx & Hxt).
      apply Exists_exists. exists x. split; [|exact Hxt].
      now apply (Permutation_in x Hl). }
    apply (forEach_Thrown l' (start h)) in E'. destruct E' as (st' & F').
    unfold start in F'. now rewrite F'. }
  destruct (fst (aggregate h news)) as [bs g|] eqn:Hr;
    destruct (fst (aggregate h news')) as [bs' g'|] eqn:Hr'.
  - destruct (aggregate_summarizes _ _ _ _ Hr) as (st & Hs & -> & ->).
    destruct (aggregate_summarizes _ _ _ _ Hr') as (st' & Hs' & -> & ->).
    split.
    + apply NoDup_Permutation.
      * apply (NoDup_map_inv name). rewrite (names_of_values _ _ Hs).
        apply (sum_keys _ _ Hs).
      * apply (NoDup_map_inv name). rewrite (names_of_values _ _ Hs').
        apply (sum_keys _ _ Hs').
      * intros b. split; intros Hb.
        -- pose proof (bucket_of_summary _ _ _ Hs Hb) as Ho.
           pose proof (bucket_in_permuted _ _ _ _ _ _ Hp Hs Hs' Ho) as Ho'.
           unfold Object_values. apply in_map_iff. exists (name b, b).
           split; [reflexivity | now apply own_Some_In].
        -- pose proof (bucket_of_summary _ _ _ Hs' Hb) as Ho'.
           pose proof (bucket_in_permuted _ _ _ _ _ _
                         (Permutation_sym Hp) Hs' Hs Ho') as Ho.
           unfold Object_values. apply in_map_iff. exists (name b, b).
           split; [reflexivity | now apply own_Some_In].
    + rewrite (sum_global _ _ Hs), (sum_global _ _ Hs'). f_equal.
      apply Permutation_length. now apply filter_Permutation.
  - pose proof (Hthrow _ _ (Permutation_sym Hp) Hr'). congruence.
  - pose proof (Hthrow _ _ Hp Hr). congruence.
  - exact I.
Qed.

End Names.

Lemma buckets_are_keyed_by_name_witness :
  fst (aggregate [] [europeRow; tokyoRow; europeCalmRow])
  = Returned [ {| count := 2; maxThreat := 3; name := js "Europe";
                  coordinates := Point 15 50 |};
               single (js "Tokyo, Japan") (Point 139.6917 35.6895) 3 ] 0
  /\ NoDup [js "Europe"; js "Tokyo, Japan"]
  /\ 2 = Z.of_nat (length (filter (placedIn (js "Europe"))
                             [europeRow; tokyoRow; europeCalmRow])).
Proof.
  assert (Hr : fst (aggregate [] [europeRow; tokyoRow; europeCalmRow])
    = Returned [ {| count := 2; maxThreat := 3; name := js "Europe";
                    coordinates := Point 15 50 |};
                 single (js "Tokyo, Japan") (Point 139.6917 35.6895) 3 ] 0)
    by (vm_compute; reflexivity).
  split; [exact Hr|].
  destruct (buckets_are_keyed_by_name [] _ _ _ Hr) as (Hn & Hc & _).
  split; [exact Hn|].
  exact (Hc _ (or_introl eq_refl)).
Defined.

Lemma row_order_changes_bucket_order_only_witness :
  Permutation [europeRow; tokyoRow; globalRow]
              [globalRow; tokyoRow; europeRow]
  /\ match fst (aggregate [] [europeRow; tokyoRow; globalRow]),
           fst (aggregate [] [globalRow; tokyoRow; europeRow]) with
     | Returned bs g, Returned bs' g' => Permutation bs bs' /\ g = g'
     | Threw, Threw => True
     | _, _ => False
     end.
Proof.
  assert (Hp : Permutation [europeRow; tokyoRow; globalRow]
                           [globalRow; tokyoRow; europeRow]).
  { apply (perm_trans (l' := [tokyoRow; europeRow; globalRow])).
    - apply perm_swap.
    - apply (perm_trans (l' := [tokyoRow; globalRow; europeRow])).
      + apply perm_skip. apply perm_swap.
      + apply perm_swap. }
  split; [exact Hp|].
  exact (row_order_changes_bucket_order_only [] _ _ Hp).
Defined.

(** ** The size and the fill of the markers *)

Lemma maxCount_upper (bs : list bucket) :
  1 <= maxCount bs /\ Forall (fun b => count b <= maxCount bs) bs.
Proof.
  unfold maxCount. induction bs as [|b bs [IH1 IH2]]; simpl.
  - split; [lia | constructor].
  - split; [lia|]. constructor; [lia|].
    eapply Forall_impl; [|exact IH2]. simpl. intros. lia.
Qed.

Lemma maxCount_reached (bs : list bucket) :
  Forall (fun b => 1 <= count b) bs -> bs <> [] ->
  exists b, In b bs /\ count b = maxCount bs.
Proof.
  unfold maxCount. induction bs as [|b bs IH]; [congruence|].
  intros Hall _. inversion Hall as [|? ? Hb Hrest]; subst. simpl.
  destruct bs as [|b' bs].
  - exists b. split; [now left | simpl; lia].
  - destruct (IH Hrest ltac:(discriminate)) as (m & Hm & Em).
    destruct (Z.max_spec (count b) (fold_right Z.max 1 (map count (b' :: bs))))
      as [[_ ->] | [_ ->]].
    + exists m. split; [now right | exact Em].
    + exists b. split; [now left | reflexivity].
Qed.

Lemma max0_at_least (c : Z) (l : list Z) :
  0 < c -> (c <= max0 l <-> Exists (fun x => c <= x) l).
Proof.
  intros Hc. induction l as [|x l IH]; simpl.
  - split; [lia | intros E; inversion E].
  - rewrite Exists_cons, <- IH. lia.
Qed.

Lemma max0_below (c : Z) (l : list Z) :
  0 < c -> (max0 l < c <-> Forall (fun x => x < c) l).
Proof.
  intros Hc. induction l as [|x l IH]; simpl.
  - split; [constructor | lia].
  - rewrite Forall_cons_iff, <- IH. lia.
Qed.

Lemma colorClass_cases (m : Z) :
  (colorClass m = js "fill-red-500" <-> 4 <= m)
  /\ (colorClass m = js "fill-yellow-500" <-> m = 3)
  /\ (colorClass m = js "fill-cyan-500" <-> m < 3).
Proof.
  unfold colorClass.
  destruct (Z.leb_spec 4 m), (Z.leb_spec 3 m);
    repeat split; intros E; try lia; try reflexivity;
    vm_compute in E; discriminate.
Qed.

Section Markers.

Context `{StringPrototype}.

(** X5: the largest count that scales the markers is at least 1, so that
    the domain of the scale is never empty; every bucket of a result has
    a count from 1 to that largest count, and some bucket reaches it
    when there is a bucket at all. *)
Theorem maxCount_bounds_the_counts (h : realm) (news : list NewsItem)
  (bs : list bucket) (g : Z) :
  fst (aggregate h news) = Returned bs g ->
  1 <= maxCount bs
  /\ (forall b, In b bs -> 1 <= count b <= maxCount bs)
  /\ (bs <> [] -> exists b, In b bs /\ count b = maxCount bs)
  /\ (bs = [] -> maxCount bs = 1).
Proof.
  intros Hr.
  destruct (aggregate_summarizes _ _ _ _ Hr) as (st & Hs & -> & ->).
  assert (H1 : Forall (fun b => 1 <= count b) (Object_values (stats st))).
  { apply Forall_forall. intros b Hb.
    pose proof (bucket_of_summary _ _ _ Hs Hb) as Ho.
    apply (sum_bucket _ _ Hs _ _ Ho). }
  destruct (maxCount_upper (Object_values (stats st))) as [Hm Hu].
  rewrite Forall_forall in H1, Hu.
  split; [exact Hm|]. split; [|split].
  - intros b Hb. split; [now apply H1 | now apply Hu].
  - apply maxCount_reached. now apply Forall_forall.
  - now intros ->.
Qed.

(** X6: the fill of a marker is decided by the rows of its bucket: red
    when one of them has a threat level of 4 or more, yellow when the
    highest is 3, cyan when all are below 3. *)
Theorem marker_fill_follows_the_rows (h : realm) (news : list NewsItem)
  (bs : list bucket) (g : Z) (b : bucket) :
  fst (aggregate h news) = Returned bs g -> In b bs ->
  (colorClass (maxThreat b) = js "fill-red-500" <->
   Exists (fun x => 4 <= x) (threatsOf (name b) news))
  /\ (colorClass (maxThreat b) = js "fill-yellow-500" <->
      Exists (fun x => 3 <= x) (threatsOf (name b) news) /\
      Forall (fun x => x < 4) (threatsOf (name b) news))
  /\ (colorClass (maxThreat b) = js "fill-cyan-500" <->
      Forall (fun x => x < 3) (threatsOf (name b) news)).
Proof.
  intros Hr Hb.
  destruct (aggregate_summarizes _ _ _ _ Hr) as (st & Hs & -> & ->).
  pose proof (bucket_of_summary _ _ _ Hs Hb) as Ho.
  destruct (sum_bucket _ _ Hs _ _ Ho) as (_ & _ & _ & Hm & _).
  destruct (colorClass_cases (maxThreat b)) as (Hred & Hyellow & Hcyan).
  rewrite Hred, Hyellow, Hcyan, Hm.
  rewrite <- (max0_at_least 4), <- (max0_at_least 3), <- (max0_below 4),
    <- (max0_below 3) by lia.
  lia.
Qed.

Lemma forEach_invariant (P : list NewsItem -> state -> Prop) :
  (forall seen st item st',
     P seen st -> callback st item = Normal st' -> P (seen ++ [item]) st') ->
  forall rest seen st st',
    P seen st -> forEach rest st = Done st' -> P (seen ++ rest) st'.
Proof.
  intros Hstep. induction rest as [|item rest IH]; simpl; intros seen st st' Hp.
  - intros [= <-]. now rewrite app_nil_r.
  - destruct (callback st item) as [st1|] eqn:C; [|discriminate].
    intros Hrun.
    replace (seen ++ item :: rest) with ((seen ++ [item]) ++ rest)
      by now rewrite <- app_assoc.
    eapply IH; [|exact Hrun]. eapply Hstep; eassumption.
Qed.

End Markers.

Lemma highThreat_snoc seen item :
  highThreat (seen ++ [item]) =
  highThreat seen + (if 4 <=? threatLevel item then 1 else 0).
Proof.
  unfold highThreat. rewrite filter_app, length_app. simpl.
  destruct (4 <=? threatLevel item); simpl; lia.
Qed.

Section RedMarkers.

Context `{StringPrototype}.

Lemma reds_bump stats k t :
  reds (bump stats k t) <= reds stats + (if 4 <=? t then 1 else 0).
Proof.
  unfold reds. induction stats as [|[k' b] stats IH]; cbn [bump].
  - destruct (4 <=? t); simpl; lia.
  - destruct (k' =?s k); cbn [filter snd increment maxThreat].
    + destruct (Z.leb_spec 4 (Z.max (maxThreat b) t)),
        (Z.leb_spec 4 (maxThreat b)), (Z.leb_spec 4 t);
        cbn [length]; rewrite ?Nat2Z.inj_succ; lia.
    + destruct (4 <=? maxThreat b);
        cbn [length]; rewrite ?Nat2Z.inj_succ; lia.
Qed.

Lemma reds_fresh stats k c t :
  reds (stats ++ [(k, single k c t)]) =
  reds stats + (if 4 <=? t then 1 else 0).
Proof.
  unfold reds. rewrite filter_app, length_app, Nat2Z.inj_add.
  cbn [filter snd single maxThreat].
  destruct (Z.leb_spec 4 (Z.max 0 t)), (Z.leb_spec 4 t);
    cbn [length]; lia.
Qed.

Lemma reds_step seen st item st' :
  reds (stats st) <= highThreat seen ->
  callback st item = Normal st' ->
  reds (stats st') <= highThreat (seen ++ [item]).
Proof.
  intros Hle. unfold callback. rewrite highThreat_snoc.
  assert (H0 : 0 <= (if 4 <=? threatLevel item then 1 else 0))
    by (destruct (4 <=? threatLevel item); lia).
  destruct (resolve (heap st) item) as [[n c|]|]; [| |discriminate];
    intros [= <-]; simpl; [|lia].
  rewrite place_cases.
  destruct (own (stats st) n); simpl.
  - pose proof (reds_bump (stats st) n (threatLevel item)). lia.
  - destruct (isIn n objectPrototypeKeys); simpl; [lia|].
    rewrite reds_fresh. lia.
Qed.

(** X7: the map never shows more red markers than [Home] counts rows of
    high threat: each red marker stands for a row with a threat level of
    4 or more, and no row for two. *)
Theorem red_markers_at_most_highThreat (h : realm) (news : list NewsItem)
  (bs : list bucket) (g : Z) :
  fst (aggregate h news) = Returned bs g ->
  Z.of_nat (length (filter (fun b => colorClass (maxThreat b)
                                     =?s js "fill-red-500") bs))
  <= highThreat news
  /\ highThreat news <= Z.of_nat (length news).
Proof.
  intros Hr. split.
  - unfold aggregate in Hr.
    destruct (forEach news _) as [st|st] eqn:F; simpl in Hr; [|discriminate].
    injection Hr as <- <-.
    pose proof (forEach_invariant
                  (fun seen st => reds (stats st) <= highThreat seen)
                  reds_step news [] (start h) st) as Hinv.
    simpl in Hinv. specialize (Hinv ltac:(vm_compute; discriminate) F).
    eapply Z.le_trans; [|exact Hinv].
    unfold reds, Object_values. clear.
    induction (stats st) as [|[k b] l IH]; simpl; [lia|].
    destruct (colorClass_cases (maxThreat b)) as (Hred & _).
    destruct (Z.leb_spec 4 (maxThreat b)) as [Hge | Hlt].
    + apply Hred in Hge. rewrite Hge, jsstring_eqb_refl. simpl. lia.
    + destruct (colorClass (maxThreat b) =?s js "fill-red-500") eqn:E.
      * apply jsstring_eqb_eq, Hred in E. lia.
      * exact IH.
  - unfold highThreat. apply inj_le. apply filter_length_le.
Qed.

End RedMarkers.

Lemma maxCount_bounds_the_counts_witness :
  fst (aggregate [] [europeRow; tokyoRow; europeCalmRow])
  = Returned [ {| count := 2; maxThreat := 3; name := js "Europe";
                  coordinates := Point 15 50 |};
               single (js "Tokyo, Japan") (Point 139.6917 35.6895) 3 ] 0
  /\ 1 <= maxCount
            [ {| count := 2; maxThreat := 3; name := js "Europe";
                 coordinates := Point 15 50 |};
              single (js "Tokyo, Japan") (Point 139.6917 35.6895) 3 ]
  /\ 1 <= 1 <= maxCount
            [ {| count := 2; maxThreat := 3; name := js "Europe";
                 coordinates := Point 15 50 |};
              single (js "Tokyo, Japan") (Point 139.6917 35.6895) 3 ].
Proof.
  assert (Hr : fst (aggregate [] [europeRow; tokyoRow; europeCalmRow])
    = Returned [ {| count := 2; maxThreat := 3; name := js "Europe";
                    coordinates := Point 15 50 |};
                 single (js "Tokyo, Japan") (Point 139.6917 35.6895) 3 ] 0)
    by (vm_compute; reflexivity).
  split; [exact Hr|].
  destruct (maxCount_bounds_the_counts [] _ _ _ Hr) as (H1 & Hall & _).
  split; [exact H1|].
  exact (Hall _ (or_intror (or_introl eq_refl))).
Defined.

Lemma marker_fill_follows_the_rows_witness :
  fst (aggregate [] [europeRow; malformedRow])
  = Returned [ {| count := 2; maxThreat := 4; name := js "Europe";
                  coordinates := Point 15 50 |} ] 0
  /\ (colorClass 4 = js "fill-red-500" <->
      Exists (fun x => 4 <= x)
             (threatsOf (js "Europe") [europeRow; malformedRow])).
Proof.
  assert (Hr : fst (aggregate [] [europeRow; malformedRow])
    = Returned [ {| count := 2; maxThreat := 4; name := js "Europe";
                    coordinates := Point 15 50 |} ] 0)
    by (vm_compute; reflexivity).
  split; [exact Hr|].
  exact (proj1 (marker_fill_follows_the_rows [] _ _ _ _ Hr
                  (or_introl eq_refl))).
Defined.

Lemma red_markers_at_most_highThreat_witness :
  fst (aggregate [] [europeRow; malformedRow; emptyRow])
  = Returned [ {| count := 2; maxThreat := 4; name := js "Europe";
                  coordinates := Point 15 50 |} ] 1
  /\ 1 <= highThreat [europeRow; malformedRow; emptyRow]
  /\ highThreat [europeRow; malformedRow; emptyRow] <= 3.
Proof.
  assert (Hr : fst (aggregate [] [europeRow; malformedRow; emptyRow])
    = Returned [ {| count := 2; maxThreat := 4; name := js "Europe";
                    coordinates := Point 15 50 |} ] 1)
    by (vm_compute; reflexivity).
  split; [exact Hr|].
  exact (red_markers_at_most_highThreat [] _ _ _ Hr).
Defined.

(** ** The query parameters *)

Lemma pairs_get_delete p k k' :
  own (pairs_delete p k) k' = if k =?s k' then None else own p k'.
Proof.
  unfold pairs_delete.
  induction p as [|[k0 v0] p IH]; simpl.
  - now destruct (k =?s k').
  - destruct (k0 =?s k) eqn:E0; simpl.
    + apply jsstring_eqb_eq in E0. subst k0. rewrite IH.
      now destruct (k =?s k').
    + rewrite IH. destruct (k0 =?s k') eqn:E1; [|reflexivity].
      apply jsstring_eqb_eq in E1. subst k0.
      destruct (k =?s k') eqn:E2; [|reflexivity].
      apply jsstring_eqb_eq in E2. subst.
      rewrite jsstring_eqb_refl in E0. discriminate.
Qed.

Lemma pairs_get_set p k v k' :
  own (pairs_set p k v) k' = if k =?s k' then Some v else own p k'.
Proof.
  induction p as [|[k0 v0] p IH]; simpl.
  - reflexivity.
  - destruct (k0 =?s k) eqn:E0; simpl.
    + apply jsstring_eqb_eq in E0. subst k0.
      destruct (k =?s k') eqn:E; [reflexivity|].
      now rewrite pairs_get_delete, E.
    + destruct (k0 =?s k') eqn:E1; [|exact IH].
      apply jsstring_eqb_eq in E1. subst k0.
      destruct (k =?s k') eqn:E2; [|reflexivity].
      apply jsstring_eqb_eq in E2. subst.
      rewrite jsstring_eqb_refl in E0. discriminate.
Qed.

(** The pairs of a name after [delete] and after [set]. *)
Lemma named_delete p k :
  filter (fun kv => fst kv =?s k) (pairs_delete p k) = [].
Proof.
  unfold pairs_delete. induction p as [|[k0 v0] p IH]; simpl; [reflexivity|].
  destruct (k0 =?s k) eqn:E; simpl; [exact IH|]. now rewrite E.
Qed.

Lemma named_set p k v :
  filter (fun kv => fst kv =?s k) (pairs_set p k v) = [(k, v)].
Proof.
  induction p as [|[k0 v0] p IH]; simpl.
  - now rewrite jsstring_eqb_refl.
  - destruct (k0 =?s k) eqn:E; simpl; rewrite E.
    + rewrite named_delete. apply jsstring_eqb_eq in E. now subst.
    + exact IH.
Qed.

Lemma pairs_delete_absent p k :
  filter (fun kv => fst kv =?s k) p = [] -> pairs_delete p k = p.
Proof.
  unfold pairs_delete. induction p as [|[k0 v0] p IH]; simpl; [reflexivity|].
  destruct (k0 =?s k); simpl; [discriminate|]. intros Hp. now rewrite IH.
Qed.

(** A string without surrogate code units is taken as it is. *)
Lemma toUSVString_latin1 s : isLatin1 s = true -> toUSVString s = s.
Proof.
  unfold isLatin1. induction s as [|c s IH]; simpl; [reflexivity|].
  rewrite andb_true_iff, N.ltb_lt. intros [Hc Hs].
  unfold isHighSurrogate, isLowSurrogate.
  destruct (N.leb_spec 55296 c); [lia|]. simpl.
  destruct (N.leb_spec 56320 c); [lia|]. simpl.
  now rewrite IH.
Qed.

(** X8: the focus buttons and the region filter of [Home].  After a focus
    on a region other than "Global" the query has one [region]
    parameter, and [Home] builds for it the filter it builds for the
    region itself ("MENA" goes through "Middle East" and back); a focus
    on "Global" removes the parameter, so that [Home] does not filter by
    region at all, where the "Global" of the side bar filters by the
    keyword "global".  No other parameter changes. *)
Theorem focus_sets_the_region_filter (h : realm) (region : jsstring)
  (searchParams : URLSearchParams) :
  toUSVString region = region ->
  regionFilter h (params_get (MapControl.focusParams region searchParams)
                             (js "region"))
  = (if region =?s js "Global" then Normal NoRegionFilter
     else regionFilter h (Some region))
  /\ (length (filter (fun kv => fst kv =?s js "region")
                (MapControl.focusParams region searchParams)) <= 1)%nat
  /\ (forall k, toUSVString k <> js "region" ->
        params_get (MapControl.focusParams region searchParams) k
        = params_get searchParams k)
  /\ regionFilter h (Some (js "Global"))
     = Normal (OrContains [js "global"]).
Proof.
  intros Hwf.
  unfold MapControl.focusParams, params_get, params_set, params_delete.
  rewrite Hwf.
  change (toUSVString (js "region")) with (js "region").
  change (toUSVString (js "Middle East")) with (js "Middle East").
  split; [|split; [|split; [|reflexivity]]].
  - destruct (region =?s js "Global") eqn:Eg.
    + now rewrite pairs_get_delete, jsstring_eqb_refl.
    + destruct (region =?s js "MENA") eqn:Em;
        rewrite pairs_get_set, jsstring_eqb_refl; [|reflexivity].
      apply jsstring_eqb_eq in Em. subst region. reflexivity.
  - destruct (region =?s js "Global").
    + rewrite named_delete. simpl. lia.
    + destruct (region =?s js "MENA"); rewrite named_set; simpl; lia.
  - intros k Hk. apply not_eq_sym, jsstring_eqb_neq in Hk.
    destruct (region =?s js "Global").
    + now rewrite pairs_get_delete, Hk.
    + destruct (region =?s js "MENA"); now rewrite pairs_get_set, Hk.
Qed.

Lemma focus_sets_the_region_filter_witness :
  toUSVString (js "MENA") = js "MENA"
  /\ regionFilter []
       (params_get (MapControl.focusParams (js "MENA")
                      [(js "unread", js "true"); (js "region", js "Europe")])
                   (js "region"))
     = regionFilter [] (Some (js "MENA"))
  /\ params_get (MapControl.focusParams (js "MENA")
                   [(js "unread", js "true"); (js "region", js "Europe")])
                (js "unread")
     = Some (js "true").
Proof.
  destruct (focus_sets_the_region_filter [] (js "MENA")
              [(js "unread", js "true"); (js "region", js "Europe")] eq_refl)
    as (Hf & _ & Hk & _).
  split; [reflexivity|]. split; [exact Hf|].
  exact (Hk (js "unread") ltac:(discriminate)).
Defined.

(** X9: a focus either leaves the view as it is (a label without a case)
    or moves it to the initial view ("Global") or to the point where the
    aggregation draws the bucket of that region; the zoom it sets is
    within the limits of the map, and every focus button has a case. *)
Theorem focus_centres_on_the_region_bucket (region : jsstring)
  (current : MapControl.position) :
  (MapControl.focusPosition region current = current
   \/ (region = js "Global" /\
       MapControl.focusPosition region current = MapControl.initial)
   \/ (own regionCenters region
         = Some (MapControl.coordinates
                   (MapControl.focusPosition region current)) /\
       (MapControl.minZoom
          <= MapControl.zoom (MapControl.focusPosition region current)
          <= MapControl.maxZoom)%Q))
  /\ (In region MapControl.focusButtons ->
      forall other,
        MapControl.focusPosition region current
        = MapControl.focusPosition region other).
Proof.
  unfold MapControl.focusPosition. split.
  - destruct (region =?s js "Global") eqn:E0.
    { apply jsstring_eqb_eq in E0. right. left. now split. }
    destruct (region =?s js "North America") eqn:E1;
      [|destruct (region =?s js "Europe") eqn:E2;
        [|destruct (region =?s js "MENA") eqn:E3;
          [|destruct (region =?s js "APAC") eqn:E4;
            [|now left]]]];
      right; right;
      match goal with
      | E : (region =?s _) = true |- _ =>
          apply jsstring_eqb_eq in E; subst region
      end;
      (split; [reflexivity|]); split; vm_compute; discriminate.
  - intros Hin other. simpl in Hin.
    repeat (destruct Hin as [<- | Hin]; [reflexivity|]). destruct Hin.
Qed.

Section Selection.

Context `{StringPrototype}.

(** X10: the location filter of the map.  A click on a marker sets the
    [location] parameter to the name in lower case, as the query takes
    it; the markers selected after it are those whose names in lower case
    are that value, the clicked one among them unless its name has an
    unpaired surrogate.  A reset removes the parameter and selects none;
    neither touches another parameter. *)
Theorem marker_click_selects_by_lower_case (regionName : jsstring)
  (searchParams : URLSearchParams) :
  (forall name,
     MapControl.isSelected
       (MapControl.handleMarkerClick regionName searchParams) name = true
     <-> toLowerCase name = toUSVString (toLowerCase regionName))
  /\ (forall name,
        MapControl.isSelected (MapControl.handleReset searchParams) name
        = false)
  /\ (forall k, toUSVString k <> js "location" ->
        params_get (MapControl.handleMarkerClick regionName searchParams) k
        = params_get searchParams k /\
        params_get (MapControl.handleReset searchParams) k
        = params_get searchParams k)
  /\ MapControl.handleReset
       (MapControl.handleMarkerClick regionName
          (MapControl.handleReset searchParams))
     = MapControl.handleReset searchParams.
Proof.
  unfold MapControl.isSelected, MapControl.handleMarkerClick,
    MapControl.handleReset, params_get, params_set, params_delete.
  change (toUSVString (js "location")) with (js "location").
  split; [|split; [|split]].
  - intros name. rewrite pairs_get_set, jsstring_eqb_refl.
    rewrite jsstring_eqb_eq. split; congruence.
  - intros name. now rewrite pairs_get_delete, jsstring_eqb_refl.
  - intros k Hk. apply not_eq_sym, jsstring_eqb_neq in Hk.
    now rewrite pairs_get_set, pairs_get_delete, Hk.
  - set (q := pairs_delete searchParams (js "location")).
    assert (Hq : filter (fun kv => fst kv =?s js "location") q = [])
      by apply named_delete.
    set (v := toUSVString (toLowerCase regionName)).
    clearbody q v. induction q as [|[k0 v0] q IH]; simpl.
    + reflexivity.
    + simpl in Hq. destruct (k0 =?s js "location") eqn:E; [discriminate|].
      simpl. rewrite E. simpl. f_equal. now apply IH.
Qed.

End Selection.

(** ** The status route and the polling button *)

Lemma orDefault_truthy v d : truthy d = true -> truthy (orDefault v d) = true.
Proof.
  intros Hd. unfold orDefault. destruct v as [x|]; [|exact Hd].
  destruct (truthy x) eqn:E; [exact E | exact Hd].
Qed.

Lemma orDefault_cases v d :
  truthy (orDefault v d) = true \/ orDefault v d = d.
Proof.
  unfold orDefault. destruct v as [x|]; [|now right].
  destruct (truthy x) eqn:E; [now left | now right].
Qed.

Lemma orDefault_kept x d : truthy x = true -> orDefault (Some x) d = x.
Proof. intros Hx. unfold orDefault. now rewrite Hx. Qed.

(** X11: the status route answers 500 exactly when the file is there but
    cannot be read, is not JSON, or is the JSON [null]; the body is then
    the fixed error body.  Every other answer is a 200, and a missing
    file is reported as idle. *)
Theorem status_route_fails_iff (file : RefreshStatus.statusFile) :
  (RefreshStatus.httpStatus (RefreshStatus.GET file) = 500 <->
   file = RefreshStatus.Unreadable \/
   exists data, file = RefreshStatus.Contents data /\
                (JSON_parse data = None \/ JSON_parse data = Some JNull))
  /\ (RefreshStatus.httpStatus (RefreshStatus.GET file) = 500 ->
      RefreshStatus.payload (RefreshStatus.GET file) = RefreshStatus.failed)
  /\ (RefreshStatus.httpStatus (RefreshStatus.GET file) <> 500 ->
      RefreshStatus.httpStatus (RefreshStatus.GET file) = 200)
  /\ RefreshStatus.GET RefreshStatus.Missing
     = {| RefreshStatus.httpStatus := 200;
          RefreshStatus.payload := RefreshStatus.idle |}.
Proof.
  split; [|split; [|split; [|reflexivity]]].
  - destruct file as [| |data]; simpl.
    + split; [discriminate | intros [[=] | (d & [=] & _)]].
    + split; [now left | reflexivity].
    + destruct (JSON_parse data) as [v|] eqn:P.
      * destruct v; simpl;
          try (split; [discriminate
                      | intros [[=] | (d & [= <-] & [E | E])]; congruence]).
        split; [|reflexivity]. intros _. right. exists data. tauto.
      * split; [|reflexivity]. intros _. right. exists data. tauto.
  - destruct file as [| |data]; simpl; try discriminate; try reflexivity.
    destruct (JSON_parse data) as [v|]; [|reflexivity].
    destruct v; simpl; try discriminate; reflexivity.
  - destruct file as [| |data]; simpl; intros Hn;
      try reflexivity; try (now elim Hn).
    destruct (JSON_parse data) as [v|]; [|now elim Hn].
    destruct v; simpl in *; first [reflexivity | now elim Hn].
Qed.

Lemma serialized_null x :
  serialized x = JNull <->
  x = JNull \/ exists m e, x = JNumber m e /\ roundsToInfinity m e = true.
Proof.
  destruct x as [|b|m e|s|l|o]; simpl;
    try (split; [discriminate | intros [E | (m' & e' & E & _)]; discriminate]).
  - split; [now left | reflexivity].
  - destruct (roundsToInfinity m e) eqn:R.
    + split; [|reflexivity]. intros _. right. now exists m, e.
    + split; [discriminate|].
      intros [E | (m' & e' & E & R')]; [discriminate|].
      injection E as <- <-. congruence.
Qed.

Lemma serialized_truthy x :
  truthy x = true ->
  truthy (serialized x) = true \/ serialized x = JNull.
Proof.
  destruct x as [|b|m e|s|l|o]; simpl; try (intros Hx; now left).
  destruct (roundsToInfinity m e); [now right | now left].
Qed.

Lemma serialized_default v d :
  serialized d = d ->
  truthy (serialized (orDefault v d)) = true
  \/ serialized (orDefault v d) = d
  \/ serialized (orDefault v d) = JNull.
Proof.
  intros Hd. destruct (orDefault_cases v d) as [Ht | ->].
  - destruct (serialized_truthy _ Ht); tauto.
  - right. now left.
Qed.

(** X12: what the client reads from the route, whatever the file holds.
    [status] is truthy, and [processed], [total] and [percent_complete]
    are truthy or the number 0, unless the file has there a number too
    large for a double: that one arrives as [null].  Nothing else
    arrives as [null] that was not [null] in the file.  A truthy value
    of the file is passed on under [status] and [processed], and
    [error] whatever it is, as [JSON.stringify] writes them; the idle
    body and the error body arrive as they are sent. *)
Theorem status_route_fills_the_defaults (file : RefreshStatus.statusFile) :
  let sent := RefreshStatus.payload (RefreshStatus.GET file) in
  let got := RefreshStatus.received sent in
  (exists v, RefreshStatus.status got = Some v /\
             (truthy v = true \/
              v = JNull /\
              exists m e, RefreshStatus.status sent = Some (JNumber m e) /\
                          roundsToInfinity m e = true))
  /\ Forall (fun field =>
               exists v, field got = Some v /\
                         (truthy v = true \/ v = RefreshStatus.zero \/
                          v = JNull /\
                          exists m e, field sent = Some (JNumber m e) /\
                                      roundsToInfinity m e = true))
            [RefreshStatus.processed; RefreshStatus.total;
             RefreshStatus.percent_complete]
  /\ (forall data json x,
        file = RefreshStatus.Contents data ->
        JSON_parse data = Some json -> json <> JNull ->
        truthy x = true ->
        (getProperty json (js "status") = Some x ->
         RefreshStatus.status got = Some (serialized x)) /\
        (getProperty json (js "processed") = Some x ->
         RefreshStatus.processed got = Some (serialized x)) /\
        RefreshStatus.error got
        = option_map serialized (getProperty json (js "error")))
  /\ (forall x, serialized x = JNull <->
                x = JNull \/
                exists m e, x = JNumber m e /\ roundsToInfinity m e = true)
  /\ RefreshStatus.received RefreshStatus.idle = RefreshStatus.idle
  /\ RefreshStatus.received RefreshStatus.failed = RefreshStatus.failed.
Proof.
  assert (Hfield : forall v d,
            serialized d = d -> d <> JNull ->
            let x := serialized (orDefault v d) in
            truthy x = true \/ x = d \/
            x = JNull /\
            exists m e, orDefault v d = JNumber m e /\
                        roundsToInfinity m e = true).
  { intros v d Hd Hnull x. subst x.
    destruct (serialized_default v d Hd) as [Ht | [E | E]].
    - now left.
    - right. now left.
    - right. right. split; [exact E|].
      apply serialized_null in E. destruct E as [E | E]; [|exact E].
      exfalso. destruct (orDefault_cases v d) as [Ht | Ed].
      + rewrite E in Ht. discriminate.
      + rewrite Ed in E. contradiction. }
  assert (Hidle : serialized (JString (js "idle")) = JString (js "idle"))
    by reflexivity.
  assert (Hzero : serialized RefreshStatus.zero = RefreshStatus.zero)
    by (vm_compute; reflexivity).
  assert (Hconst : RefreshStatus.received RefreshStatus.idle
                   = RefreshStatus.idle
                   /\ RefreshStatus.received RefreshStatus.failed
                      = RefreshStatus.failed)
    by (split; vm_compute; reflexivity).
  destruct Hconst as [Ci Cf].
  intros sent got.
  assert (Hreport : forall json,
            sent = RefreshStatus.report json ->
            (exists v, RefreshStatus.status got = Some v /\
               (truthy v = true \/
                v = JNull /\
                exists m e, RefreshStatus.status sent = Some (JNumber m e) /\
                            roundsToInfinity m e = true))
            /\ Forall (fun field =>
                 exists v, field got = Some v /\
                   (truthy v = true \/ v = RefreshStatus.zero \/
                    v = JNull /\
                    exists m e, field sent = Some (JNumber m e) /\
                                roundsToInfinity m e = true))
                [RefreshStatus.processed; RefreshStatus.total;
                 RefreshStatus.percent_complete]).
  { intros json E. subst got. rewrite E. split.
    - eexists. split; [reflexivity|].
      destruct (Hfield (getProperty json (js "status")) (JString (js "idle"))
                  Hidle ltac:(discriminate))
        as [Ht | [Ez | (En & m & e & Em & R)]].
      + now left.
      + left. rewrite Ez. reflexivity.
      + right. split; [exact En|]. exists m, e. cbn [RefreshStatus.report
          RefreshStatus.status]. now rewrite Em.
    - apply Forall_cons;
        [|apply Forall_cons; [|apply Forall_cons; [|apply Forall_nil]]];
        (eexists; split; [reflexivity|]);
        (match goal with
         | |- context [orDefault ?v RefreshStatus.zero] =>
             destruct (Hfield v RefreshStatus.zero Hzero ltac:(discriminate))
               as [Ht | [Ez | (En & m & e & Em & R)]]
         end;
         [ now left | right; now left
         | right; right; split; [exact En|]; exists m, e;
           cbn [RefreshStatus.report RefreshStatus.processed
                RefreshStatus.total RefreshStatus.percent_complete];
           now rewrite Em ]). }
  assert (Hfixed : sent = RefreshStatus.idle \/ sent = RefreshStatus.failed ->
            (exists v, RefreshStatus.status got = Some v /\
               (truthy v = true \/
                v = JNull /\
                exists m e, RefreshStatus.status sent = Some (JNumber m e) /\
                            roundsToInfinity m e = true))
            /\ Forall (fun field =>
                 exists v, field got = Some v /\
                   (truthy v = true \/ v = RefreshStatus.zero \/
                    v = JNull /\
                    exists m e, field sent = Some (JNumber m e) /\
                                roundsToInfinity m e = true))
                [RefreshStatus.processed; RefreshStatus.total;
                 RefreshStatus.percent_complete]).
  { intros [E | E]; subst got; rewrite E; [rewrite Ci | rewrite Cf];
      (split; [eexists; split; [reflexivity | now left]|]);
      (apply Forall_cons;
       [|apply Forall_cons; [|apply Forall_cons; [|apply Forall_nil]]]);
      eexists; (split; [reflexivity|]); right; now left. }
  assert (Hsent : sent = RefreshStatus.idle \/ sent = RefreshStatus.failed
                  \/ exists json, sent = RefreshStatus.report json).
  { subst sent. destruct file as [| |data]; simpl; [tauto | tauto |].
    destruct (JSON_parse data) as [v|]; [|tauto].
    destruct v; simpl; try tauto; right; right; eexists; reflexivity. }
  split; [|split; [|split; [|split; [exact serialized_null | now split]]]].
  - destruct Hsent as [E | [E | (json & E)]];
      [apply Hfixed; tauto | apply Hfixed; tauto | now apply (Hreport json)].
  - destruct Hsent as [E | [E | (json & E)]];
      [apply Hfixed; tauto | apply Hfixed; tauto | now apply (Hreport json)].
  - intros data json x -> Hp Hn Hx. subst got sent. simpl. rewrite Hp.
    destruct json; try congruence; simpl; repeat split;
      try discriminate; intros ->; now rewrite orDefault_kept.
Qed.

Lemma status_route_fills_the_defaults_witness :
  JSON_parse (quoted "{'status':'running','processed':1e999,'total':''}")
  = Some (JObject [ (js "status", JString (js "running"));
                    (js "processed", JNumber 1 999);
                    (js "total", JString []) ])
  /\ RefreshStatus.status
       (RefreshStatus.received
          (RefreshStatus.payload
             (RefreshStatus.GET
                (RefreshStatus.Contents
                   (quoted "{'status':'running','processed':1e999,'total':''}")))))
     = Some (JString (js "running"))
  /\ RefreshStatus.processed
       (RefreshStatus.received
          (RefreshStatus.payload
             (RefreshStatus.GET
                (RefreshStatus.Contents
                   (quoted "{'status':'running','processed':1e999,'total':''}")))))
     = Some JNull.
Proof.
  split; [vm_compute; reflexivity|].
  destruct (status_route_fills_the_defaults
              (RefreshStatus.Contents
                 (quoted "{'status':'running','processed':1e999,'total':''}")))
    as (_ & _ & Hpass & _).
  split.
  - destruct (Hpass _ (JObject [ (js "status", JString (js "running"));
                                 (js "processed", JNumber 1 999);
                                 (js "total", JString []) ])
                (JString (js "running")) eq_refl
                ltac:(vm_compute; reflexivity) ltac:(discriminate) eq_refl)
      as (Hs & _).
    apply Hs. vm_compute. reflexivity.
  - destruct (Hpass _ (JObject [ (js "status", JString (js "running"));
                                 (js "processed", JNumber 1 999);
                                 (js "total", JString []) ])
                (JNumber 1 999) eq_refl
                ltac:(vm_compute; reflexivity) ltac:(discriminate) eq_refl)
      as (_ & Hproc & _).
    rewrite Hproc by (vm_compute; reflexivity). vm_compute. reflexivity.
Defined.

(** X13: a status file that cannot be read or parsed ends the polling:
    after the tick the button no longer refreshes, shows "Failed to read
    status" and leaves the success message as it was. *)
Theorem unreadable_status_stops_the_polling
  (file : RefreshStatus.statusFile) (b : RefreshStatus.button) :
  RefreshStatus.httpStatus (RefreshStatus.GET file) = 500 ->
  let b' := RefreshStatus.poll
              (RefreshStatus.payload (RefreshStatus.GET file)) b in
  RefreshStatus.isRefreshing b' = false
  /\ RefreshStatus.errorMessage b'
     = Some (JString (js "Failed to read status"))
  /\ RefreshStatus.showSuccess b' = RefreshStatus.showSuccess b.
Proof.
  intros H500.
  assert (E : RefreshStatus.payload (RefreshStatus.GET file)
              = RefreshStatus.failed).
  { destruct file as [| |data]; simpl in *; try discriminate; try reflexivity.
    destruct (JSON_parse data) as [v|]; [|reflexivity].
    destruct v; simpl in *; try discriminate; reflexivity. }
  rewrite E. cbv zeta. repeat split.
Qed.

Lemma unreadable_status_stops_the_polling_witness :
  RefreshStatus.httpStatus
    (RefreshStatus.GET (RefreshStatus.Contents (quoted "{'status':'run")))
  = 500 /\
  RefreshStatus.isRefreshing
    (RefreshStatus.poll
       (RefreshStatus.payload
          (RefreshStatus.GET (RefreshStatus.Contents (quoted "{'status':'run"))))
       {| RefreshStatus.isRefreshing := true;
          RefreshStatus.lastStatus := None;
          RefreshStatus.showSuccess := false |})
  = false.
Proof.
  assert (H500 : RefreshStatus.httpStatus
            (RefreshStatus.GET (RefreshStatus.Contents (quoted "{'status':'run")))
          = 500) by (vm_compute; reflexivity).
  split; [exact H500|].
  exact (proj1 (unreadable_status_stops_the_polling _
                  {| RefreshStatus.isRefreshing := true;
                     RefreshStatus.lastStatus := None;
                     RefreshStatus.showSuccess := false |} H500)).
Defined.

(** X14: a tick ends the refresh exactly when the status it reads is the
    string "completed" or "error"; only "completed" raises the success
    message.  While the status file is missing the route says "idle", so
    a button that refreshes goes on refreshing and shows no error. *)
Theorem polling_ends_on_completed_or_error
  (data : RefreshStatus.body) (b : RefreshStatus.button) :
  (RefreshStatus.isRefreshing (RefreshStatus.poll data b) = false <->
   RefreshStatus.isRefreshing b = false \/
   RefreshStatus.status data = Some (JString (js "completed")) \/
   RefreshStatus.status data = Some (JString (js "error")))
  /\ (RefreshStatus.showSuccess (RefreshStatus.poll data b) = true <->
      RefreshStatus.showSuccess b = true \/
      RefreshStatus.status data = Some (JString (js "completed")))
  /\ RefreshStatus.lastStatus (RefreshStatus.poll data b) = Some data
  /\ RefreshStatus.isRefreshing
       (RefreshStatus.poll
          (RefreshStatus.payload (RefreshStatus.GET RefreshStatus.Missing)) b)
     = RefreshStatus.isRefreshing b
  /\ RefreshStatus.errorMessage
       (RefreshStatus.poll
          (RefreshStatus.payload (RefreshStatus.GET RefreshStatus.Missing)) b)
     = None.
Proof.
  assert (Hs : forall s,
            RefreshStatus.statusIs data s = true <->
            RefreshStatus.status data = Some (JString (js s))).
  { intros s. unfold RefreshStatus.statusIs.
    destruct (RefreshStatus.status data) as [v|]; [|split; discriminate].
    destruct v; try (split; discriminate).
    rewrite jsstring_eqb_eq. split; congruence. }
  unfold RefreshStatus.poll.
  split; [|split; [|split; [|split; reflexivity]]].
  - destruct (RefreshStatus.statusIs data "completed") eqn:Ec.
    + apply Hs in Ec. simpl. tauto.
    + destruct (RefreshStatus.statusIs data "error") eqn:Ee.
      * apply Hs in Ee. simpl. tauto.
      * simpl. split; [tauto|]. intros [Hb | [Hc | He]]; [exact Hb | |].
        -- apply Hs in Hc. congruence.
        -- apply Hs in He. congruence.
  - destruct (RefreshStatus.statusIs data "completed") eqn:Ec.
    + apply Hs in Ec. simpl. tauto.
    + assert (Hn : RefreshStatus.status data
                   <> Some (JString (js "completed"))).
      { intros Hc. apply Hs in Hc. congruence. }
      destruct (RefreshStatus.statusIs data "error"); simpl; tauto.
  - now destruct (RefreshStatus.statusIs data "completed"),
      (RefreshStatus.statusIs data "error").
Qed.

(** ** The [PATCH] route *)

(** X15: a [PATCH] writes no column but [isRead] and [isStarred]: the
    update it passes on holds at most these two, each once, with the
    values that the body of the request has under these names.  The
    requests of [NewsCard] give the update of the one flag. *)
Theorem patch_updates_two_flags_only (text : jsstring)
  (data : list (jsstring * json)) :
  NewsPatch.updateData text = Some data ->
  (forall k v, In (k, v) data ->
     (k = js "isRead" \/ k = js "isStarred") /\
     exists body, JSON_parse text = Some body /\ getProperty body k = Some v)
  /\ NoDup (map fst data)
  /\ NewsPatch.updateData NewsPatch.readRequest
     = Some [(js "isRead", JBool true)]
  /\ (forall newState,
        NewsPatch.updateData (NewsPatch.starRequest newState)
        = Some [(js "isStarred", JBool newState)]).
Proof.
  unfold NewsPatch.updateData. intros Hu.
  split; [|split; [|split; [reflexivity | now intros []]]].
  - destruct (JSON_parse text) as [body|]; [|discriminate].
    assert (Hd : data =
      (match getProperty body (js "isRead") with
       | Some v => [(js "isRead", v)] | None => [] end)
      ++ (match getProperty body (js "isStarred") with
          | Some v => [(js "isStarred", v)] | None => [] end))
      by (destruct body; congruence).
    intros k v Hin. rewrite Hd in Hin. apply in_app_or in Hin.
    destruct Hin as [Hin | Hin].
    + destruct (getProperty body (js "isRead")) as [w|] eqn:G; [|destruct Hin].
      destruct Hin as [[= <- <-] | []]. split; [now left|]. now exists body.
    + destruct (getProperty body (js "isStarred")) as [w|] eqn:G;
        [|destruct Hin].
      destruct Hin as [[= <- <-] | []]. split; [now right|]. now exists body.
  - destruct (JSON_parse text) as [body|]; [|discriminate].
    assert (Hd : data =
      (match getProperty body (js "isRead") with
       | Some v => [(js "isRead", v)] | None => [] end)
      ++ (match getProperty body (js "isStarred") with
          | Some v => [(js "isStarred", v)] | None => [] end))
      by (destruct body; congruence).
    rewrite Hd.
    destruct (getProperty body (js "isRead")),
      (getProperty body (js "isStarred")); simpl;
      repeat constructor; simpl; try tauto.
    intros [E | []]. discriminate E.
Qed.

Lemma patch_updates_two_flags_only_witness :
  NewsPatch.updateData
    (quoted "{'threatLevel':1,'isStarred':null,'id':'x'}")
  = Some [(js "isStarred", JNull)]
  /\ NoDup (map fst [(js "isStarred", JNull)]).
Proof.
  assert (Hu : NewsPatch.updateData
                 (quoted "{'threatLevel':1,'isStarred':null,'id':'x'}")
               = Some [(js "isStarred", JNull)])
    by (vm_compute; reflexivity).
  split; [exact Hu|].
  exact (proj1 (proj2 (patch_updates_two_flags_only _ _ Hu))).
Defined.

(** ** The side bar and the feed *)

Section SidebarAndFeed.

Context `{StringPrototype}.

Lemma lower_literal k :
  isLatin1 k = true -> map lower_latin1 k = k -> toLowerCase k = k.
Proof. intros Hl Hk. now rewrite toLowerCase_latin1. Qed.

Lemma feed_keyword (r k : jsstring) (keywords : list jsstring) :
  In k keywords -> isLatin1 k = true -> map lower_latin1 k = k ->
  includes (toLowerCase r) k = true ->
  matchesRegion (OrContains keywords) (Some r) = true.
Proof.
  intros Hin Hl Hk Hi. simpl. apply existsb_exists. exists k.
  split; [exact Hin|]. unfold containsInsensitive.
  now rewrite (lower_literal k Hl Hk).
Qed.

(** The four selections that the side bar matches by keywords. *)
Lemma sidebar_keywords sel c :
  nonEmpty sel = true ->
  Sidebar.matchesRegion (Some sel) c =
  let r := toLowerCase (Sidebar.regionOrEmpty c) in
  let s := toLowerCase sel in
  if s =?s js "north america" then
    includes r (js "usa") || includes r (js "canada")
    || includes r (js "america")
  else if s =?s js "europe" then
    includes r (js "europe") || includes r (js "uk")
    || includes r (js "germany") || includes r (js "france")
  else if s =?s js "apac" then
    includes r (js "asia") || includes r (js "china")
    || includes r (js "japan") || includes r (js "australia")
  else if s =?s js "middle east" then
    includes r (js "middle east") || includes r (js "uae")
    || includes r (js "saudi") || includes r (js "qatar")
  else includes r s.
Proof.
  intros Hn. unfold Sidebar.matchesRegion, Sidebar.chosen. now rewrite Hn.
Qed.

Ltac pick_keyword r :=
  match goal with
  | Hi : includes (toLowerCase r) ?k = true |- _ =>
      apply (feed_keyword r k);
      [ simpl; repeat (first [left; reflexivity | right])
      | reflexivity | reflexivity | exact Hi ]
  end.

(** X16: for the four regions that the side bar matches by keywords, the
    side bar is not wider than the feed: a competitor that it lists under
    "North America", "Europe", "APAC" or "Middle East" has a region that
    the filter of [Home] for the same selection accepts. *)
Theorem sidebar_region_within_feed_filter (h : realm)
  (selected : jsstring) (c : Sidebar.competitor) :
  In selected (map js ["North America"; "Europe"; "APAC"; "Middle East"]%string) ->
  Sidebar.matchesRegion (Some selected) c = true ->
  exists keywords,
    regionFilter h (Some selected) = Normal (OrContains keywords) /\
    matchesRegion (OrContains keywords) (Sidebar.region c) = true.
Proof.
  intros Hsel Hm. simpl in Hsel.
  assert (Hr : exists r, Sidebar.region c = Some r /\
                         Sidebar.regionOrEmpty c = r).
  { destruct c as [n [r|]]; [now exists r|]. exfalso.
    destruct Hsel as [<- | [<- | [<- | [<- | []]]]];
      rewrite sidebar_keywords in Hm by reflexivity;
      cbv zeta in Hm;
      rewrite (toLowerCase_latin1 (js _)) in Hm by reflexivity;
      change (Sidebar.regionOrEmpty _) with (@nil N) in Hm;
      rewrite (toLowerCase_latin1 []) in Hm by reflexivity;
      vm_compute in Hm; discriminate. }
  destruct Hr as (r & Hregion & Hempty). rewrite Hregion.
  destruct Hsel as [<- | [<- | [<- | [<- | []]]]];
    rewrite sidebar_keywords in Hm by reflexivity;
    cbv zeta in Hm; rewrite Hempty in Hm;
    rewrite (toLowerCase_latin1 (js _)) in Hm by reflexivity.
  - change (map lower_latin1 (js "North America")) with (js "north america")
      in Hm.
    change (js "north america" =?s js "north america") with true in Hm.
    cbv iota in Hm. rewrite !orb_true_iff in Hm.
    exists (map js ["north america"; "us"; "usa"; "canada"; "america"]%string).
    split; [reflexivity|]. destruct Hm as [[Hi | Hi] | Hi]; pick_keyword r.
  - change (map lower_latin1 (js "Europe")) with (js "europe") in Hm.
    change (js "europe" =?s js "north america") with false in Hm.
    change (js "europe" =?s js "europe") with true in Hm.
    cbv iota in Hm. rewrite !orb_true_iff in Hm.
    exists (map js ["europe"; "uk"; "germany"; "france"; "spain"; "italy";
                    "netherlands"; "sweden"; "denmark"; "ireland";
                    "switzerland"; "belgium"; "austria"; "poland"; "norway";
                    "finland"]%string).
    split; [reflexivity|].
    destruct Hm as [[[Hi | Hi] | Hi] | Hi]; pick_keyword r.
  - change (map lower_latin1 (js "APAC")) with (js "apac") in Hm.
    change (js "apac" =?s js "north america") with false in Hm.
    change (js "apac" =?s js "europe") with false in Hm.
    change (js "apac" =?s js "apac") with true in Hm.
    cbv iota in Hm. rewrite !orb_true_iff in Hm.
    exists (map js ["apac"; "asia"; "china"; "japan"; "korea"; "india";
                    "singapore"; "australia"; "pacific"]%string).
    split; [reflexivity|].
    destruct Hm as [[[Hi | Hi] | Hi] | Hi]; pick_keyword r.
  - change (map lower_latin1 (js "Middle East")) with (js "middle east") in Hm.
    change (js "middle east" =?s js "north america") with false in Hm.
    change (js "middle east" =?s js "europe") with false in Hm.
    change (js "middle east" =?s js "apac") with false in Hm.
    change (js "middle east" =?s js "middle east") with true in Hm.
    cbv iota in Hm. rewrite !orb_true_iff in Hm.
    exists (map js ["mena"; "middle east"; "uae"; "saudi"; "qatar"; "dubai";
                    "abu dhabi"; "israel"; "turkey"; "egypt"]%string).
    split; [reflexivity|].
    destruct Hm as [[[Hi | Hi] | Hi] | Hi]; pick_keyword r.
Qed.

(** X17: for a selection that [Home] compares as a whole and the side bar
    searches as a substring, the feed is not wider than the side bar: a
    stored region that the filter of [Home] accepts is one that the side
    bar shows.  For "Global" the two agree. *)
Theorem feed_fallback_within_sidebar_region (h : realm)
  (selected : jsstring) (c : Sidebar.competitor) :
  regionFilter h (Some selected) = Normal (RegionEquals selected) ->
  ~ In (toLowerCase selected)
       (map js ["north america"; "europe"; "apac"; "middle east"]%string) ->
  (matchesRegion (RegionEquals selected) (Sidebar.region c) = true ->
   Sidebar.matchesRegion (Some selected) c = true)
  /\ (forall c',
        Sidebar.matchesRegion (Some (js "Global")) c'
        = matchesRegion (OrContains [js "global"]) (Sidebar.region c')).
Proof.
  intros Hf Hnot. split.
  - assert (Hn : nonEmpty selected = true).
    { unfold regionFilter in Hf. destruct (nonEmpty selected);
        [reflexivity | discriminate]. }
    rewrite (sidebar_keywords _ _ Hn). cbv zeta.
    assert (Hne : forall k,
              In k (map js ["north america"; "europe"; "apac";
                            "middle east"]%string) ->
              (toLowerCase selected =?s k) = false).
    { intros k Hk. apply jsstring_eqb_neq. intros E. apply Hnot.
      now rewrite E. }
    rewrite !Hne by (simpl; repeat (first [left; reflexivity | right])).
    destruct c as [n [r|]]; simpl; [|discriminate].
    unfold equalsInsensitive. rewrite jsstring_eqb_eq. intros E.
    change (Sidebar.regionOrEmpty _) with r.
    rewrite E. apply includes_refl.
  - intros [n [r|]].
    + rewrite sidebar_keywords by reflexivity. cbv zeta.
      rewrite (toLowerCase_latin1 (js "Global")) by reflexivity.
      change (map lower_latin1 (js "Global")) with (js "global").
      change (js "global" =?s js "north america") with false.
      change (js "global" =?s js "europe") with false.
      change (js "global" =?s js "apac") with false.
      change (js "global" =?s js "middle east") with false.
      cbv iota. simpl. unfold containsInsensitive.
      rewrite (lower_literal (js "global")) by reflexivity.
      now rewrite orb_false_r.
    + rewrite sidebar_keywords by reflexivity. cbv zeta.
      rewrite (toLowerCase_latin1 (js "Global")) by reflexivity.
      change (Sidebar.regionOrEmpty _) with (@nil N).
      rewrite (toLowerCase_latin1 []) by reflexivity.
      reflexivity.
Qed.

End SidebarAndFeed.

Lemma sidebar_region_within_feed_filter_witness :
  In (js "Middle East")
     (map js ["North America"; "Europe"; "APAC"; "Middle East"]%string)
  /\ Sidebar.matchesRegion (Some (js "Middle East"))
       {| Sidebar.name := js "Acme";
          Sidebar.region := Some (js "Dubai, UAE") |} = true
  /\ exists keywords,
       regionFilter [] (Some (js "Middle East"))
       = Normal (OrContains keywords) /\
       matchesRegion (OrContains keywords) (Some (js "Dubai, UAE")) = true.
Proof.
  assert (Hin : In (js "Middle East")
     (map js ["North America"; "Europe"; "APAC"; "Middle East"]%string))
    by (simpl; tauto).
  assert (Hm : Sidebar.matchesRegion (Some (js "Middle East"))
       {| Sidebar.name := js "Acme";
          Sidebar.region := Some (js "Dubai, UAE") |} = true)
    by (vm_compute; reflexivity).
  split; [exact Hin|]. split; [exact Hm|].
  exact (sidebar_region_within_feed_filter [] _ _ Hin Hm).
Defined.

Lemma feed_fallback_within_sidebar_region_witness :
  regionFilter [] (Some (js "brasil")) = Normal (RegionEquals (js "brasil"))
  /\ matchesRegion (RegionEquals (js "brasil")) (Some (js "Brasil")) = true
  /\ Sidebar.matchesRegion (Some (js "brasil"))
       {| Sidebar.name := js "Romi"; Sidebar.region := Some (js "Brasil") |}
     = true.
Proof.
  assert (Hf : regionFilter [] (Some (js "brasil"))
               = Normal (RegionEquals (js "brasil"))) by reflexivity.
  assert (Hm : matchesRegion (RegionEquals (js "brasil")) (Some (js "Brasil"))
               = true) by (vm_compute; reflexivity).
  split; [exact Hf|]. split; [exact Hm|].
  refine (proj1 (feed_fallback_within_sidebar_region [] (js "brasil")
                   {| Sidebar.name := js "Romi";
                      Sidebar.region := Some (js "Brasil") |} Hf _) Hm).
  vm_compute. intros [E | [E | [E | [E | []]]]]; discriminate E.
Defined.

(** ** The side bar and the query *)

Lemma toUSVString_idempotent : forall s,
  toUSVString (toUSVString s) = toUSVString s.
Proof.
  assert (Hfix : forall n s, (length s <= n)%nat ->
                 toUSVString (toUSVString s) = toUSVString s).
  { induction n as [|n IH]; intros [|c s] Hlen; simpl in Hlen;
      try reflexivity; try lia.
    assert (Hr : isHighSurrogate 65533 = false /\ isLowSurrogate 65533 = false)
      by (split; reflexivity).
    destruct Hr as [Hr1 Hr2].
    cbn [toUSVString].
    destruct (isHighSurrogate c) eqn:Hh.
    - destruct s as [|d s'].
      + reflexivity.
      + destruct (isLowSurrogate d) eqn:Hl.
        * cbn [toUSVString]. rewrite Hh, Hl. f_equal. f_equal.
          apply IH. simpl in Hlen. lia.
        * change (toUSVString (65533%N :: ?x))
            with (65533%N :: toUSVString x).
          f_equal. apply IH. lia.
    - destruct (isLowSurrogate c) eqn:Hl.
      + change (toUSVString (65533%N :: ?x))
          with (65533%N :: toUSVString x).
        f_equal. apply IH. lia.
      + cbn [toUSVString]. rewrite Hh, Hl. f_equal. apply IH. lia. }
  intros s. now apply (Hfix (length s)).
Qed.

Lemma toUSVString_nonEmpty s : nonEmpty (toUSVString s) = nonEmpty s.
Proof.
  destruct s as [|c s]; [reflexivity|]. cbn [toUSVString].
  destruct (isHighSurrogate c).
  - destruct s as [|d s']; [reflexivity|]. now destruct (isLowSurrogate d).
  - now destruct (isLowSurrogate c).
Qed.

Lemma named_delete_other p k k' :
  k <> k' ->
  filter (fun kv => fst kv =?s k') (pairs_delete p k)
  = filter (fun kv => fst kv =?s k') p.
Proof.
  intros Hk. unfold pairs_delete.
  induction p as [|[k0 v0] p IH]; simpl; [reflexivity|].
  destruct (k0 =?s k) eqn:E; simpl.
  - apply jsstring_eqb_eq in E. subst k0.
    apply jsstring_eqb_neq in Hk. now rewrite Hk.
  - now rewrite IH.
Qed.

Lemma named_set_other p k v k' :
  k <> k' ->
  filter (fun kv => fst kv =?s k') (pairs_set p k v)
  = filter (fun kv => fst kv =?s k') p.
Proof.
  intros Hk. pose proof Hk as Hb. apply jsstring_eqb_neq in Hb.
  induction p as [|[k0 v0] p IH]; simpl.
  - now rewrite Hb.
  - destruct (k0 =?s k) eqn:E; simpl.
    + apply jsstring_eqb_eq in E. subst k0. rewrite Hb.
      now apply named_delete_other.
    + now rewrite IH.
Qed.

Lemma own_named (p : URLSearchParams) k :
  own p k = match filter (fun kv => fst kv =?s k) p with
            | (_, v) :: _ => Some v
            | [] => None
            end.
Proof.
  induction p as [|[k0 v0] p IH]; simpl; [reflexivity|].
  now destruct (k0 =?s k).
Qed.

Lemma pairs_set_present p k v :
  filter (fun kv => fst kv =?s k) p = [(k, v)] -> pairs_set p k v = p.
Proof.
  induction p as [|[k0 v0] p IH]; simpl; [discriminate|].
  destruct (k0 =?s k) eqn:E.
  - intros [= -> -> Hrest]. now rewrite pairs_delete_absent.
  - intros Hp. now rewrite IH.
Qed.

(** The pairs of the name [k] that [setOrDelete] leaves. *)
Lemma setOrDelete_named p k v :
  filter (fun kv => fst kv =?s toUSVString k) (Sidebar.setOrDelete p k v)
  = match v with
    | Some x => [(toUSVString k, toUSVString x)]
    | None => []
    end.
Proof.
  destruct v; simpl; [apply named_set | apply named_delete].
Qed.

Lemma setOrDelete_other p k v k' :
  toUSVString k <> k' ->
  filter (fun kv => fst kv =?s k') (Sidebar.setOrDelete p k v)
  = filter (fun kv => fst kv =?s k') p.
Proof.
  intros Hk. destruct v; simpl;
    [now apply named_set_other | now apply named_delete_other].
Qed.

Lemma setOrDelete_settled p k v :
  filter (fun kv => fst kv =?s toUSVString k) p
  = match v with
    | Some x => [(toUSVString k, toUSVString x)]
    | None => []
    end ->
  Sidebar.setOrDelete p k v = p.
Proof.
  destruct v; simpl; intros Hp;
    [now apply pairs_set_present | now apply pairs_delete_absent].
Qed.

(** X18: the side bar and the query settle after one push.  When the
    state is read from the query and [applyFilters] has written it back,
    reading the state from the written query and applying it again
    changes nothing, so that nothing is pushed again; the two toggles
    read from the written query are those read before. *)
Theorem applyFilters_settles_after_one_push (searchParams : URLSearchParams) :
  let pushed := Sidebar.applyFilters (Sidebar.fromQuery searchParams)
                                     searchParams in
  Sidebar.applyFilters (Sidebar.fromQuery pushed) pushed = pushed
  /\ Sidebar.unreadOnly (Sidebar.fromQuery pushed)
     = Sidebar.unreadOnly (Sidebar.fromQuery searchParams)
  /\ Sidebar.starredOnly (Sidebar.fromQuery pushed)
     = Sidebar.starredOnly (Sidebar.fromQuery searchParams).
Proof.
  intros pushed.
  set (f := Sidebar.fromQuery searchParams) in *.
  set (d1 := Sidebar.chosen (Sidebar.selectedCompetitor f)).
  set (d2 := Sidebar.chosen (Sidebar.selectedRegion f)).
  set (d3 := if Sidebar.unreadOnly f then Some (js "true") else None).
  set (d4 := if Sidebar.starredOnly f then Some (js "true") else None).
  assert (Hq : pushed =
    Sidebar.setOrDelete
      (Sidebar.setOrDelete
         (Sidebar.setOrDelete
            (Sidebar.setOrDelete searchParams (js "competitorId") d1)
            (js "region") d2)
         (js "unread") d3)
      (js "starred") d4) by reflexivity.
  assert (N1 : filter (fun kv => fst kv =?s toUSVString (js "competitorId"))
                 pushed
               = match d1 with
                 | Some x => [(toUSVString (js "competitorId"), toUSVString x)]
                 | None => []
                 end).
  { rewrite Hq, !setOrDelete_other by discriminate.
    apply setOrDelete_named. }
  assert (N2 : filter (fun kv => fst kv =?s toUSVString (js "region")) pushed
               = match d2 with
                 | Some x => [(toUSVString (js "region"), toUSVString x)]
                 | None => []
                 end).
  { rewrite Hq, !setOrDelete_other by discriminate.
    apply setOrDelete_named. }
  assert (N3 : filter (fun kv => fst kv =?s toUSVString (js "unread")) pushed
               = match d3 with
                 | Some x => [(toUSVString (js "unread"), toUSVString x)]
                 | None => []
                 end).
  { rewrite Hq, !setOrDelete_other by discriminate.
    apply setOrDelete_named. }
  assert (N4 : filter (fun kv => fst kv =?s toUSVString (js "starred")) pushed
               = match d4 with
                 | Some x => [(toUSVString (js "starred"), toUSVString x)]
                 | None => []
                 end).
  { rewrite Hq. apply setOrDelete_named. }
  assert (Hchosen : forall k d,
            filter (fun kv => fst kv =?s toUSVString k) pushed
            = match d with
              | Some x => [(toUSVString k, toUSVString x)]
              | None => []
              end ->
            (forall x, d = Some x -> nonEmpty x = true) ->
            Sidebar.setOrDelete pushed k
              (Sidebar.chosen (params_get pushed k)) = pushed).
  { intros k d Hn Hd. apply setOrDelete_settled.
    unfold params_get. rewrite own_named, Hn.
    destruct d as [x|]; simpl; [|reflexivity].
    rewrite toUSVString_nonEmpty, (Hd x eq_refl).
    now rewrite toUSVString_idempotent. }
  assert (Hd : forall v x, Sidebar.chosen v = Some x -> nonEmpty x = true).
  { intros [s|] x; simpl; [|discriminate].
    destruct (nonEmpty s) eqn:E; [|discriminate]. now intros [= <-]. }
  assert (Htoggle : forall k (b : bool),
            filter (fun kv => fst kv =?s toUSVString k) pushed
            = match (if b then Some (js "true") else None) with
              | Some x => [(toUSVString k, toUSVString x)]
              | None => []
              end ->
            match params_get pushed k with
            | Some v => v =?s js "true"
            | None => false
            end = b).
  { intros k b Hn. unfold params_get. rewrite own_named, Hn.
    now destruct b. }
  pose proof (Htoggle _ _ N3) as T3. pose proof (Htoggle _ _ N4) as T4.
  split; [|split; [exact T3 | exact T4]].
  assert (S1 : Sidebar.setOrDelete pushed (js "competitorId")
                 (Sidebar.chosen
                    (Sidebar.selectedCompetitor (Sidebar.fromQuery pushed)))
               = pushed) by exact (Hchosen _ d1 N1 (Hd _)).
  assert (S2 : Sidebar.setOrDelete pushed (js "region")
                 (Sidebar.chosen
                    (Sidebar.selectedRegion (Sidebar.fromQuery pushed)))
               = pushed) by exact (Hchosen _ d2 N2 (Hd _)).
  assert (S3 : Sidebar.setOrDelete pushed (js "unread")
                 (if Sidebar.unreadOnly (Sidebar.fromQuery pushed)
                  then Some (js "true") else None)
               = pushed).
  { cbn [Sidebar.fromQuery Sidebar.unreadOnly]. rewrite T3.
    exact (setOrDelete_settled _ _ _ N3). }
  assert (S4 : Sidebar.setOrDelete pushed (js "starred")
                 (if Sidebar.starredOnly (Sidebar.fromQuery pushed)
                  then Some (js "true") else None)
               = pushed).
  { cbn [Sidebar.fromQuery Sidebar.starredOnly]. rewrite T4.
    exact (setOrDelete_settled _ _ _ N4). }
  unfold Sidebar.applyFilters. cbv zeta. rewrite S1, S2, S3. exact S4.
Qed.

(** ** The top movers *)

Section Assign.

Context {A : Type}.
Implicit Types (o : list (jsstring * A)) (k : jsstring).

Lemma own_assign o k v k' :
  own (assign o k v) k' = if k =?s k' then Some v else own o k'.
Proof.
  induction o as [|[k0 a] o IH]; simpl.
  - reflexivity.
  - destruct (k0 =?s k) eqn:E0; simpl.
    + apply jsstring_eqb_eq in E0. subst k0. now destruct (k =?s k').
    + destruct (k0 =?s k') eqn:E1; [|exact IH].
      apply jsstring_eqb_eq in E1. subst k0.
      destruct (k =?s k') eqn:E2; [|reflexivity].
      apply jsstring_eqb_eq in E2. subst.
      rewrite jsstring_eqb_refl in E0. discriminate.
Qed.

Lemma keys_assign o k v :
  Object_keys (assign o k v) =
  match own o k with
  | Some _ => Object_keys o
  | None => Object_keys o ++ [k]
  end.
Proof.
  induction o as [|[k0 a] o IH]; simpl; [reflexivity|].
  destruct (k0 =?s k); simpl; [reflexivity|].
  rewrite IH. now destruct (own o k).
Qed.

Lemma NoDup_assign o k v :
  NoDup (Object_keys o) -> NoDup (Object_keys (assign o k v)).
Proof.
  intros Hnd. rewrite keys_assign. destruct (own o k) eqn:Ho; [exact Hnd|].
  apply NoDup_snoc; [exact Hnd | now apply own_None].
Qed.

Lemma insertByIndex_Permutation (e : jsstring * A) l :
  Permutation (insertByIndex e l) (e :: l).
Proof.
  induction l as [|e' l IH]; simpl; [reflexivity|].
  destruct (arrayIndex (fst e)) as [i|]; [|reflexivity].
  destruct (arrayIndex (fst e')) as [i'|]; [|reflexivity].
  destruct (i <? i'); [reflexivity|].
  rewrite IH. apply perm_swap.
Qed.

Lemma filter_split_Permutation (f : jsstring * A -> bool) l :
  Permutation (filter f l ++ filter (fun x => negb (f x)) l) l.
Proof.
  induction l as [|x l IH]; simpl; [reflexivity|].
  destruct (f x); simpl.
  - now constructor.
  - rewrite <- Permutation_middle. now constructor.
Qed.

Lemma Object_entries_Permutation o : Permutation (Object_entries o) o.
Proof.
  unfold Object_entries.
  rewrite <- (filter_split_Permutation (fun kv => isArrayIndex (fst kv)) o)
    at 3.
  apply Permutation_app_tail.
  induction (filter (fun kv => isArrayIndex (fst kv)) o) as [|e l IH];
    simpl; [reflexivity|].
  rewrite insertByIndex_Permutation. now constructor.
Qed.

End Assign.

Lemma occurrences_snoc k names x :
  TopMovers.occurrences k (names ++ [x]) =
  TopMovers.occurrences k names + (if k =?s x then 1 else 0).
Proof.
  unfold TopMovers.occurrences. rewrite filter_app, length_app. simpl.
  destruct (k =?s x); simpl; lia.
Qed.

Lemma occurrences_In k names :
  TopMovers.occurrences k names <> 0 -> In k names.
Proof.
  unfold TopMovers.occurrences. intros Hn.
  destruct (filter (jsstring_eqb k) names) as [|x l] eqn:E;
    [simpl in Hn; lia|].
  assert (Hx : In x (filter (jsstring_eqb k) names)) by (rewrite E; now left).
  apply filter_In in Hx. destruct Hx as [Hx Ek].
  apply jsstring_eqb_eq in Ek. now subst.
Qed.

Lemma occurrences_nonneg k names : 0 <= TopMovers.occurrences k names.
Proof. unfold TopMovers.occurrences. lia. Qed.

Lemma tallied_step heap seen counts x :
  tallied seen counts ->
  tallied (seen ++ [x]) (TopMovers.countOne heap counts x).
Proof.
  intros [Hnd Hown]. unfold TopMovers.countOne, read.
  pose proof (Hown x) as Hx.
  pose proof (occurrences_nonneg x seen) as Hpos.
  assert (Hother : forall k, (x =?s k) = false ->
            TopMovers.occurrences k (seen ++ [x])
            = TopMovers.occurrences k seen).
  { intros k Hk. rewrite occurrences_snoc.
    replace (k =?s x) with false; [lia|]. symmetry.
    apply jsstring_eqb_neq. apply jsstring_eqb_neq in Hk. congruence. }
  assert (Hsame : TopMovers.occurrences x (seen ++ [x])
                  = TopMovers.occurrences x seen + 1)
    by (now rewrite occurrences_snoc, jsstring_eqb_refl).
  destruct (isIn x objectPrototypeKeys) eqn:Px.
  - destruct ((x =?s js "__proto__")
              || (TopMovers.occurrences x seen =? 0)) eqn:Ex;
      rewrite Hx.
    + destruct (x =?s js "__proto__") eqn:Ep.
      * (* the setter ignores the text *)
        split; [exact Hnd|]. intros k. rewrite Hown.
        destruct (x =?s k) eqn:Exk.
        -- apply jsstring_eqb_eq in Exk. subst k. now rewrite Px, Ep.
        -- now rewrite (Hother k Exk).
      * split; [now apply NoDup_assign|]. intros k. rewrite own_assign.
        destruct (x =?s k) eqn:Exk.
        -- apply jsstring_eqb_eq in Exk. subst k. rewrite Px, Ep, Hsame.
           simpl. destruct (Z.eqb_spec (TopMovers.occurrences x seen + 1) 0);
             [lia | reflexivity].
        -- now rewrite Hown, (Hother k Exk).
    + split; [now apply NoDup_assign|]. intros k. rewrite own_assign.
      apply orb_false_iff in Ex. destruct Ex as [Ep E0].
      destruct (x =?s k) eqn:Exk.
      * apply jsstring_eqb_eq in Exk. subst k. rewrite Px, Ep, Hsame.
        simpl. destruct (Z.eqb_spec (TopMovers.occurrences x seen + 1) 0);
          [lia | reflexivity].
      * now rewrite Hown, (Hother k Exk).
  - destruct (TopMovers.occurrences x seen =? 0) eqn:E0; rewrite Hx.
    + assert (Hfresh :
        (if isIn x [js "count"; js "maxThreat"] && isIn (js "__proto__") heap
         then assign counts x (TopMovers.Count 1)
         else assign counts x (TopMovers.Count 1))
        = assign counts x (TopMovers.Count 1)) by (now destruct (_ && _)).
      destruct (isIn x [js "count"; js "maxThreat"]
                && isIn (js "__proto__") heap);
        (split; [now apply NoDup_assign|]); intros k; rewrite own_assign;
        (destruct (x =?s k) eqn:Exk;
         [ apply jsstring_eqb_eq in Exk; subst k; rewrite Px, Hsame;
           apply Z.eqb_eq in E0; rewrite E0; reflexivity
         | now rewrite Hown, (Hother k Exk) ]).
    + split; [now apply NoDup_assign|]. intros k. rewrite own_assign.
      destruct (x =?s k) eqn:Exk.
      * apply jsstring_eqb_eq in Exk. subst k. rewrite Px, Hsame.
        destruct (Z.eqb_spec (TopMovers.occurrences x seen + 1) 0);
          [lia | reflexivity].
      * now rewrite Hown, (Hother k Exk).
Qed.

Lemma tallied_fold heap names : forall seen counts,
  tallied seen counts ->
  tallied (seen ++ names) (fold_left (TopMovers.countOne heap) names counts).
Proof.
  induction names as [|x names IH]; simpl; intros seen counts Ht.
  - now rewrite app_nil_r.
  - replace (seen ++ x :: names) with ((seen ++ [x]) ++ names)
      by now rewrite <- app_assoc.
    apply IH. now apply tallied_step.
Qed.

Lemma competitorCounts_tallied heap recent :
  tallied (map TopMovers.competitor recent)
          (TopMovers.competitorCounts heap recent).
Proof.
  unfold TopMovers.competitorCounts.
  apply (tallied_fold heap _ [] []).
  split; [constructor|]. intros k. simpl.
  now destruct (isIn k objectPrototypeKeys), (k =?s js "__proto__").
Qed.

Lemma In_occurrences k names :
  In k names -> TopMovers.occurrences k names <> 0.
Proof.
  unfold TopMovers.occurrences. intros Hk.
  assert (Hf : In k (filter (jsstring_eqb k) names)).
  { apply filter_In. split; [exact Hk | apply jsstring_eqb_refl]. }
  destruct (filter (jsstring_eqb k) names); [destruct Hf | simpl; lia].
Qed.

Lemma movers_Some entries : forall ms,
  TopMovers.movers entries = Some ms -> entries = map entryOf ms.
Proof.
  induction entries as [|[k [n|]] entries IH]; simpl; intros ms Hm.
  - now injection Hm as <-.
  - destruct (TopMovers.movers entries) as [ms'|]; [|discriminate].
    injection Hm as <-. simpl. unfold entryOf at 1. simpl.
    now rewrite <- (IH ms' eq_refl).
  - discriminate.
Qed.

Lemma movers_None entries :
  TopMovers.movers entries = None <->
  exists k, In (k, TopMovers.Text) entries.
Proof.
  induction entries as [|[k [n|]] entries IH]; simpl.
  - split; [discriminate | now intros [k []]].
  - destruct (TopMovers.movers entries) as [ms'|]; simpl.
    + split; [discriminate|]. intros [k' [E | Hin]]; [discriminate|].
      assert (Hn : Some ms' = None) by (apply IH; now exists k').
      discriminate.
    + split; [|reflexivity]. intros _.
      destruct (proj1 IH eq_refl) as [k' Hk']. exists k'. now right.
  - split; [|reflexivity]. intros _. exists k. now left.
Qed.

Lemma insertMover_Permutation x l :
  Permutation (TopMovers.insertMover x l) (x :: l).
Proof.
  induction l as [|y l IH]; simpl; [reflexivity|].
  destruct (TopMovers.count x <? TopMovers.count y); [|reflexivity].
  rewrite IH. apply perm_swap.
Qed.

Lemma sortMovers_Permutation l : Permutation (TopMovers.sortMovers l) l.
Proof.
  induction l as [|x l IH]; simpl; [reflexivity|].
  rewrite insertMover_Permutation. now constructor.
Qed.

Lemma insertMover_sorted x l :
  StronglySorted atLeast l -> StronglySorted atLeast (TopMovers.insertMover x l).
Proof.
  induction l as [|y l IH]; simpl; intros Hs.
  - repeat constructor.
  - inversion Hs as [|? ? Hl Hy]; subst.
    destruct (Z.ltb_spec (TopMovers.count x) (TopMovers.count y)).
    + constructor; [now apply IH|].
      rewrite Forall_forall in *. intros z Hz.
      apply (Permutation_in _ (insertMover_Permutation x l)) in Hz.
      destruct Hz as [<- | Hz]; [unfold atLeast; lia | now apply Hy].
    + constructor; [exact Hs|]. constructor; [unfold atLeast; lia|].
      eapply Forall_impl; [|exact Hy]. unfold atLeast. intros; lia.
Qed.

Lemma sortMovers_sorted l : StronglySorted atLeast (TopMovers.sortMovers l).
Proof.
  induction l as [|x l IH]; simpl; [constructor|].
  now apply insertMover_sorted.
Qed.

Lemma firstn_In {A : Type} (n : nat) (l : list A) (x : A) :
  In x (firstn n l) -> In x l.
Proof.
  intros Hx. rewrite <- (firstn_skipn n l). apply in_or_app. now left.
Qed.

Lemma firstn_sorted {A : Type} (R : A -> A -> Prop) (n : nat) : forall l,
  StronglySorted R l -> StronglySorted R (firstn n l).
Proof.
  induction n as [|n IH]; intros [|x l] Hs; simpl; try constructor.
  - apply IH. now inversion Hs.
  - inversion Hs as [|? ? _ Hx]; subst. rewrite Forall_forall in *.
    intros y Hy. apply Hx. now apply firstn_In in Hy.
Qed.

Lemma firstn_before_skipn {A : Type} (R : A -> A -> Prop) (n : nat) :
  forall l a b,
    StronglySorted R l -> In a (firstn n l) -> In b (skipn n l) -> R a b.
Proof.
  induction n as [|n IH]; intros [|x l] a b Hs; simpl; try tauto.
  inversion Hs as [|? ? Hl Hx]; subst. intros [-> | Ha] Hb.
  - rewrite Forall_forall in Hx. apply Hx.
    rewrite <- (firstn_skipn n l). apply in_or_app. now right.
  - now apply (IH l).
Qed.

Lemma firstn_NoDup {A : Type} (n : nat) : forall l : list A,
  NoDup l -> NoDup (firstn n l).
Proof.
  induction n as [|n IH]; intros [|x l] Hnd; simpl; try constructor.
  - inversion Hnd; subst. intros Hx. now apply firstn_In in Hx.
  - apply IH. now inversion Hnd.
Qed.

Lemma skipn_full {A : Type} (n : nat) (l : list A) (x : A) :
  In x (skipn n l) -> length (firstn n l) = n.
Proof.
  intros Hx. rewrite length_firstn. apply Nat.min_l.
  destruct (Nat.le_gt_cases n (length l)) as [Hle | Hgt]; [exact Hle|].
  rewrite skipn_all2 in Hx by lia. destruct Hx.
Qed.

(** The table of counts and the sorted movers behind a result. *)
Lemma topMovers_Some heap last7Days news result :
  TopMovers.topMovers heap last7Days news = Some result ->
  exists ms,
    Permutation (map entryOf ms)
      (TopMovers.competitorCounts heap (TopMovers.recentNews last7Days news))
    /\ result = firstn 5 (TopMovers.sortMovers ms).
Proof.
  unfold TopMovers.topMovers. intros Ht.
  destruct (TopMovers.movers _) as [ms|] eqn:Em; [|discriminate].
  injection Ht as <-. exists ms. split; [|reflexivity].
  apply movers_Some in Em. rewrite <- Em. apply Object_entries_Permutation.
Qed.

Lemma tallied_Count seen counts k n :
  tallied seen counts -> In (k, TopMovers.Count n) counts ->
  In k seen /\ n = TopMovers.occurrences k seen.
Proof.
  intros [Hnd Hown] Hin. apply (In_own _ _ _ Hnd) in Hin.
  rewrite Hown in Hin.
  destruct (isIn k objectPrototypeKeys).
  - destruct (_ || _); discriminate.
  - destruct (Z.eqb_spec (TopMovers.occurrences k seen) 0); [discriminate|].
    injection Hin as <-. split; [now apply occurrences_In | reflexivity].
Qed.

Lemma tallied_Text seen counts :
  tallied seen counts ->
  (exists k, In (k, TopMovers.Text) counts) <->
  (exists k, In k seen /\ In k objectPrototypeKeys /\ k <> js "__proto__").
Proof.
  intros [Hnd Hown]. split.
  - intros [k Hin]. apply (In_own _ _ _ Hnd) in Hin. rewrite Hown in Hin.
    exists k. destruct (isIn k objectPrototypeKeys) eqn:Pk.
    + destruct (k =?s js "__proto__") eqn:Ep; [discriminate|]. simpl in Hin.
      destruct (Z.eqb_spec (TopMovers.occurrences k seen) 0); [discriminate|].
      repeat split.
      * now apply occurrences_In.
      * now apply isIn_In.
      * now apply jsstring_eqb_neq.
    + destruct (_ =? 0); discriminate.
  - intros (k & Hk & Pk & Hp). exists k. apply own_Some_In. rewrite Hown.
    apply isIn_In in Pk. rewrite Pk.
    apply jsstring_eqb_neq in Hp. rewrite Hp. simpl.
    apply In_occurrences in Hk.
    now destruct (Z.eqb_spec (TopMovers.occurrences k seen) 0).
Qed.

(** X19: when the top movers are defined, they are at most five movers
    with distinct names, in descending order of their counts; the count
    of a mover is the number of the recent rows of its competitor; and a
    competitor of a recent row, other than ["__proto__"], is left out
    only when five movers are listed that count at least as much. *)
Theorem top_movers_are_the_most_frequent heap last7Days news result :
  TopMovers.topMovers heap last7Days news = Some result ->
  let names :=
    map TopMovers.competitor (TopMovers.recentNews last7Days news) in
  (length result <= 5)%nat
  /\ NoDup (map TopMovers.name result)
  /\ StronglySorted
       (fun a b => TopMovers.count b <= TopMovers.count a) result
  /\ (forall m, In m result ->
        In (TopMovers.name m) names
        /\ TopMovers.count m = TopMovers.occurrences (TopMovers.name m) names)
  /\ (forall k, In k names -> k <> js "__proto__" ->
        ~ In k (map TopMovers.name result) ->
        length result = 5%nat
        /\ forall m, In m result ->
             TopMovers.occurrences k names <= TopMovers.count m).
Proof.
  intros Ht names.
  pose proof (competitorCounts_tallied heap
                (TopMovers.recentNews last7Days news)) as Htal.
  fold names in Htal.
  destruct (topMovers_Some _ _ _ _ Ht) as (ms & Hperm & ->).
  set (counts := TopMovers.competitorCounts heap
                   (TopMovers.recentNews last7Days news)) in *.
  pose proof (sortMovers_Permutation ms) as Hsort.
  pose proof (sortMovers_sorted ms) as Hsorted.
  assert (Hentry : forall m, In m (TopMovers.sortMovers ms) ->
            In (entryOf m) counts).
  { intros m Hm. eapply Permutation_in; [exact Hperm|].
    apply in_map. eapply Permutation_in; [exact Hsort | exact Hm]. }
  assert (Hnames : NoDup (map TopMovers.name (TopMovers.sortMovers ms))).
  { apply (Permutation_NoDup (l := Object_keys counts)); [|apply Htal].
    unfold Object_keys. rewrite <- Hperm, map_map. simpl.
    apply Permutation_map. now symmetry. }
  assert (Hcut : forall k, In k names -> k <> js "__proto__" ->
            ~ In k (map TopMovers.name (firstn 5 (TopMovers.sortMovers ms))) ->
            exists m0, In m0 (skipn 5 (TopMovers.sortMovers ms))
                       /\ TopMovers.count m0 = TopMovers.occurrences k names).
  { intros k Hk Hp Hout.
    assert (Pk : isIn k objectPrototypeKeys = false).
    { destruct (isIn k objectPrototypeKeys) eqn:Pk; [|reflexivity].
      destruct (proj2 (tallied_Text _ _ Htal)) as [k' Hk'].
      - exists k. repeat split; [exact Hk | now apply isIn_In | exact Hp].
      - eapply Permutation_in in Hk'; [|symmetry; exact Hperm].
        apply in_map_iff in Hk'. destruct Hk' as (m & E & _). discriminate. }
    destruct Htal as [Hnd Hown]. pose proof (Hown k) as Hok.
    rewrite Pk in Hok. apply In_occurrences in Hk.
    destruct (Z.eqb_spec (TopMovers.occurrences k names) 0); [contradiction|].
    apply own_Some_In in Hok.
    eapply Permutation_in in Hok; [|symmetry; exact Hperm].
    apply in_map_iff in Hok. destruct Hok as (m0 & E & Hm0).
    injection E as En Ec. exists m0. split; [|exact Ec].
    eapply Permutation_in in Hm0; [|symmetry; exact Hsort].
    rewrite <- (firstn_skipn 5 (TopMovers.sortMovers ms)) in Hm0.
    apply in_app_or in Hm0. destruct Hm0 as [Hin | Hin]; [|exact Hin].
    exfalso. apply Hout. rewrite <- En. now apply in_map. }
  split; [rewrite length_firstn; lia|].
  split; [rewrite <- firstn_map; now apply firstn_NoDup|].
  split; [now apply (firstn_sorted atLeast)|].
  split.
  - intros m Hm. apply firstn_In, Hentry in Hm.
    exact (tallied_Count _ _ _ _ Htal Hm).
  - intros k Hk Hp Hout. destruct (Hcut k Hk Hp Hout) as (m0 & Hm0 & Ec).
    split; [exact (skipn_full _ _ _ Hm0)|].
    intros m Hm. rewrite <- Ec.
    exact (firstn_before_skipn atLeast 5 _ m m0 Hsorted Hm Hm0).
Qed.

Lemma top_movers_are_the_most_frequent_witness :
  TopMovers.topMovers [] 10 sampleNews = Some sampleMovers
  /\ length sampleMovers = 5%nat
  /\ forall m, In m sampleMovers ->
       TopMovers.occurrences (js "Eurostec")
         (map TopMovers.competitor (TopMovers.recentNews 10 sampleNews))
       <= TopMovers.count m.
Proof.
  assert (Ht : TopMovers.topMovers [] 10 sampleNews = Some sampleMovers)
    by (vm_compute; reflexivity).
  split; [exact Ht|].
  destruct (top_movers_are_the_most_frequent [] 10 sampleNews sampleMovers Ht)
    as (_ & _ & _ & _ & Hout).
  apply (Hout (js "Eurostec")).
  - vm_compute. repeat (first [left; reflexivity | right]).
  - intros E. vm_compute in E. discriminate E.
  - vm_compute. intuition discriminate.
Defined.

(** X20: the top movers are undefined exactly when a recent row has a
    competitor named as a built-in of [Object.prototype] other than
    ["__proto__"]: its count becomes a text, and the comparator of the
    sort yields [NaN]. *)
Theorem top_movers_undefined_iff heap last7Days news :
  TopMovers.topMovers heap last7Days news = None <->
  exists n,
    In n news /\ last7Days <= TopMovers.date n
    /\ In (TopMovers.competitor n) objectPrototypeKeys
    /\ TopMovers.competitor n <> js "__proto__".
Proof.
  pose proof (competitorCounts_tallied heap
                (TopMovers.recentNews last7Days news)) as Htal.
  unfold TopMovers.topMovers.
  set (counts := TopMovers.competitorCounts heap
                   (TopMovers.recentNews last7Days news)) in *.
  transitivity (exists k, In (k, TopMovers.Text) counts).
  - transitivity (TopMovers.movers (Object_entries counts) = None).
    + destruct (TopMovers.movers (Object_entries counts)); simpl;
        split; congruence.
    + rewrite movers_None. split; intros [k Hk]; exists k.
      * now apply (Permutation_in _ (Object_entries_Permutation counts)).
      * apply (Permutation_in _
                 (Permutation_sym (Object_entries_Permutation counts))).
        exact Hk.
  - rewrite (tallied_Text _ _ Htal). unfold TopMovers.recentNews. split.
    + intros (k & Hk & Pk & Hp). apply in_map_iff in Hk.
      destruct Hk as (n & <- & Hn). apply filter_In in Hn.
      destruct Hn as [Hn Hd]. exists n. repeat split; try assumption.
      now apply Z.leb_le.
    + intros (n & Hn & Hd & Pk & Hp). exists (TopMovers.competitor n).
      repeat split; try assumption. apply in_map, filter_In.
      split; [exact Hn | now apply Z.leb_le].
Qed.
